(** * astrodendro: the HDF5 import path ([astrodendro/io/hdf5.py])

    A shallow embedding of [_parse_newick], of the label aggregation loop
    and of [_construct_tree] / [dendro_import_hdf5], followed by the
    properties of the decoder, of two runs of it on one file, and of
    decoding what the encoder writes.  The last part models the
    [Structure] objects and [d.nodes_dict] as a heap with references and
    relates it to the embedding without objects.

    Conventions of the embedding.
    - A Python [str] is a [list ascii]; positions are [Z], so that the [-1]
      returned by [str.find] and the negative-index rule of slices are the
      ones of Python.
    - A Python exception is a constructor of [exn]; a computation returns
      an [outcome].
    - Dictionaries that are only indexed ([items], [flux_by_node],
      [indices_by_node]) are [gmap]s.  The dictionaries produced by [eval]
      are iterated, so they are association lists in insertion order and
      the iteration order of the interpreter is the section variable
      [iter_order].
    - A height is the rational denoted by its decimal literal; the code
      never computes with heights. *)

From Stdlib Require Import ZArith QArith Ascii String List Lia DecimalString.
From stdpp Require Import base option list gmap sorting.

Local Open Scope Z_scope.

(** ** Exceptions and outcomes *)

(** Keys of [items]: the string ['trunk'] or an integer identity. *)
Inductive key := Trunk | Id (z : Z).

#[global] Instance key_eq_dec : EqDecision key.
Proof. solve_decision. Defined.

#[global] Instance key_countable : Countable key.
Proof.
  refine (inj_countable' (fun k => match k with Trunk => None | Id z => Some z end)
                         (fun o => match o with None => Trunk | Some z => Id z end) _).
  intros []; reflexivity.
Defined.

Inductive exn :=
| KeyError (k : key)
| SyntaxError
| ValueError
| IndexError
| TypeError
| StopIteration
| RuntimeError
| UnboundLocalError.

(** [Beyond]: the text handed to [eval] is outside the fragment of Python
    dictionary displays that [eval_dict] models; nothing is claimed about
    the program on such inputs. *)
Inductive outcome (A : Type) :=
| Ret (a : A)
| Raise (e : exn)
| Beyond.

Arguments Ret {A} a.
Arguments Raise {A} e.
Arguments Beyond {A}.

#[global] Instance outcome_ret : MRet outcome := fun A a => Ret a.
#[global] Instance outcome_bind : MBind outcome := fun A B f m =>
  match m with
  | Ret a => f a
  | Raise e => Raise e
  | Beyond => Beyond
  end.
#[global] Instance outcome_fmap : FMap outcome := fun A B f m =>
  match m with
  | Ret a => Ret (f a)
  | Raise e => Raise e
  | Beyond => Beyond
  end.

Definition returns {A} (m : outcome A) : Prop := exists a, m = Ret a.
Definition raises {A} (m : outcome A) : Prop := exists e, m = Raise e.

(** [for x in xs: st = body(st, x)], stopping at the first exception. *)
Fixpoint for_each {A S} (body : S -> A -> outcome S) (xs : list A) (st : S)
  : outcome S :=
  match xs with
  | [] => Ret st
  | x :: xs' => st' ← body st x; for_each body xs' st'
  end.

(** ** Python strings *)

Abbreviation pystr := (list ascii).

Definition py (s : string) : pystr := list_ascii_of_string s.

Definition len (s : pystr) : Z := Z.of_nat (length s).

(** Clamping of a slice bound: negative bounds count from the end. *)
Definition clamp (n i : Z) : Z :=
  if i <? 0 then Z.max 0 (i + n) else Z.min i n.

(** [s[lo:hi]] *)
Definition slice (s : pystr) (lo hi : Z) : pystr :=
  let lo' := clamp (len s) lo in
  let hi' := clamp (len s) hi in
  take (Z.to_nat (hi' - lo')) (drop (Z.to_nat lo') s).

(** [s[:hi]] and [s[lo:]] *)
Definition slice_to (s : pystr) (hi : Z) : pystr := slice s 0 hi.
Definition slice_from (s : pystr) (lo : Z) : pystr := slice s lo (len s).

Fixpoint index_of (c : ascii) (s : pystr) : option nat :=
  match s with
  | [] => None
  | x :: s' => if Ascii.eqb x c then Some O else S <$> index_of c s'
  end.

(** [s.find(c, from)] for a one-character [c]: [-1] when absent. *)
Definition find (s : pystr) (c : ascii) (from : Z) : Z :=
  let from' := clamp (len s) from in
  match index_of c (drop (Z.to_nat from') s) with
  | Some i => from' + Z.of_nat i
  | None => -1
  end.

Fixpoint enumerate_from {A} (i : Z) (l : list A) : list (Z * A) :=
  match l with
  | [] => []
  | x :: l' => (i, x) :: enumerate_from (i + 1) l'
  end.

Definition enumerate {A} (l : list A) : list (Z * A) := enumerate_from 0 l.

Definition is_digit (c : ascii) : bool :=
  (48 <=? nat_of_ascii c)%nat && (nat_of_ascii c <=? 57)%nat.

Definition digit_val (c : ascii) : Z := Z.of_nat (nat_of_ascii c) - 48.

Definition digits_val (s : pystr) : Z :=
  fold_left (fun acc c => 10 * acc + digit_val c) s 0.

Definition all_digits (s : pystr) : bool := forallb is_digit s.

(** [str.isspace] on one byte: space, \t, \n, \v, \f, \r. *)
Definition is_space (c : ascii) : bool :=
  let n := nat_of_ascii c in
  (n =? 32)%nat || ((9 <=? n)%nat && (n <=? 13)%nat).

Fixpoint lstrip (s : pystr) : pystr :=
  match s with
  | c :: s' => if is_space c then lstrip s' else s
  | [] => []
  end.

Definition strip (s : pystr) : pystr := rev (lstrip (rev (lstrip s))).

Definition unsigned_int (s : pystr) : outcome Z :=
  match s with
  | [] => Raise ValueError
  | _ => if all_digits s then Ret (digits_val s) else Raise ValueError
  end.

(** [int(s)] in base 10: surrounding white space, an optional sign and
    one or more decimal digits; anything else is a [ValueError]. *)
Definition py_int (s : pystr) : outcome Z :=
  match strip s with
  | [] => Raise ValueError
  | c :: ds =>
      if Ascii.eqb c "-" then Z.opp <$> unsigned_int ds
      else if Ascii.eqb c "+" then unsigned_int ds
      else unsigned_int (c :: ds)
  end.

(** ** The values [eval] builds *)

(** A value stored in a dictionary of the nested representation: a height,
    or the tuple [(items[ref], old)] that [collect] writes over it.  The
    first component of the tuple is a reference to the dictionary object
    bound to [ref] in [items]; it is shared, not copied. *)
Inductive value :=
| VNum (h : Q)
| VTuple (ref : Z) (old : value).

(** A dictionary with integer keys, entries kept in insertion order. *)
Abbreviation dict := (list (Z * value)).

Definition dict_keys (d : dict) : list Z := d.*1.

Fixpoint dict_get (d : dict) (k : Z) : option value :=
  match d with
  | [] => None
  | (k', v) :: d' => if decide (k' = k) then Some v else dict_get d' k
  end.

(** [d[k] = v]: an existing key keeps its position. *)
Fixpoint dict_set (d : dict) (k : Z) (v : value) : dict :=
  match d with
  | [] => [(k, v)]
  | (k', v') :: d' =>
      if decide (k' = k) then (k, v) :: d' else (k', v') :: dict_set d' k v
  end.

(** Python's [s.split(c)]. *)
Fixpoint split_on (c : ascii) (s : pystr) : list pystr :=
  match s with
  | [] => [[]]
  | x :: s' =>
      if Ascii.eqb x c then [] :: split_on c s'
      else match split_on c s' with
           | w :: ws => (x :: w) :: ws
           | [] => [[x]]
           end
  end.

(** Unsigned decimal integer literal of the fragment: digits without a
    leading zero (a leading zero starts an octal literal). *)
Definition dec_literal (ds : pystr) : option Z :=
  match ds with
  | [] => None
  | c :: r =>
      if Ascii.eqb c "0" && negb (bool_decide (r = [])) then None
      else if all_digits ds then Some (digits_val ds) else None
  end.

(** Integer literal, optionally negated. *)
Definition int_literal (s : pystr) : option Z :=
  match s with
  | [] => None
  | c :: ds => if Ascii.eqb c "-" then Z.opp <$> dec_literal ds else dec_literal s
  end.

(** Decimal point literal [digits.digits], as the rational it denotes. *)
Definition point_literal (s : pystr) : option Q :=
  match split_on "." s with
  | [w; f] =>
      if negb (bool_decide (w = [])) && negb (bool_decide (f = []))
         && all_digits w && all_digits f
      then Some (Qred (Qmake (digits_val (w ++ f))
                             (Pos.pow 10 (Pos.of_nat (length f)))))
      else None
  | _ => None
  end.

Definition unsigned_literal (t : pystr) : option Q :=
  match point_literal t with
  | Some q => Some q
  | None => inject_Z <$> dec_literal t
  end.

(** A height: a point literal or an integer literal, optionally negated. *)
Definition num_literal (s : pystr) : option Q :=
  match s with
  | [] => None
  | c :: t =>
      if Ascii.eqb c "-" then (fun q => Qred (Qopp q)) <$> unsigned_literal t
      else unsigned_literal s
  end.

Definition entry_literal (s : pystr) : option (Z * value) :=
  match split_on ":" s with
  | [k; v] =>
      k' ← int_literal k; v' ← num_literal v; Some (k', VNum v')
  | _ => None
  end.

(** [eval("{%s}" % text)] on the modelled fragment: the empty display, and
    comma separated [identity:height] entries written without white space.
    A display that starts with a colon is a syntax error whatever
    follows.  Every other text is [Beyond] the model. *)
Definition eval_dict (text : pystr) : outcome dict :=
  match text with
  | [] => Ret []
  | c :: _ =>
      if Ascii.eqb c ":" then Raise SyntaxError
      else match mapM entry_literal (split_on "," text) with
           | Some es => Ret (fold_left (fun d e => dict_set d e.1 e.2) es [])
           | None => Beyond
           end
  end.

(** ** numpy arrays *)

(** An n-dimensional array: its shape and its elements in row-major
    order. *)
Record ndarray (A : Type) := mk_ndarray { shape : list nat; flat : list A }.

Arguments mk_ndarray {A} shape flat.
Arguments shape {A} _.
Arguments flat {A} _.

Definition coord := list nat.

Definition size_of (sh : list nat) : nat := fold_right Nat.mul 1%nat sh.

Definition well_shaped {A} (a : ndarray A) : Prop :=
  length (flat a) = size_of (shape a).

(** [np.indices(shape).reshape(ndim, prod(shape)).transpose()]: every
    coordinate of the shape, first axis slowest. *)
Fixpoint all_coords (sh : list nat) : list coord :=
  match sh with
  | [] => [[]]
  | n :: sh' => i ← seq 0 n; c ← all_coords sh'; [i :: c]
  end.

(** What [a[coord]] evaluates to: an element, or a sub-array when the
    coordinate has fewer components than the array has axes. *)
Inductive item (A : Type) :=
| Scalar (x : A)
| SubArray (elems : list A).

Arguments Scalar {A} x.
Arguments SubArray {A} elems.

Fixpoint nd_item {A} (sh : list nat) (fl : list A) (c : coord)
  : outcome (item A) :=
  match c, sh with
  | [], [] => match fl with
              | x :: _ => Ret (Scalar x)
              | [] => Raise IndexError
              end
  | [], _ :: _ => Ret (SubArray fl)
  | _ :: _, [] => Raise IndexError
  | i :: c', n :: sh' =>
      if (i <? n)%nat
      then nd_item sh' (take (size_of sh') (drop (i * size_of sh') fl)) c'
      else Raise IndexError
  end.

Definition getitem {A} (a : ndarray A) (c : coord) : outcome (item A) :=
  nd_item (shape a) (flat a) c.

(** [a[coord]] for a coordinate drawn from the shape of [a] itself, which
    always selects an element. *)
Definition element {A} (a : ndarray A) (c : coord) : outcome A :=
  i ← getitem a c;
  match i with
  | Scalar x => Ret x
  | SubArray _ => Raise IndexError
  end.

(** [if idx:] for a numpy integer or array. *)
Definition truth (idx : item Z) : outcome bool :=
  match idx with
  | Scalar x => Ret (negb (x =? 0))
  | SubArray [] => Ret false
  | SubArray [x] => Ret (negb (x =? 0))
  | SubArray _ => Raise ValueError
  end.

(** Use of [idx] as a dictionary key: arrays are not hashable. *)
Definition hashable (idx : item Z) : outcome Z :=
  match idx with
  | Scalar x => Ret x
  | SubArray _ => Raise TypeError
  end.

(** ** Phase 1 of [_parse_newick]: levels and spans *)

Definition is_open (c : ascii) : bool := Ascii.eqb c "(".
Definition is_close (c : ascii) : bool := Ascii.eqb c ")".

(** Body of the first loop; the state is [(current_level, max_level)]. *)
Definition max_level_step (st : Z * Z) (ic : Z * ascii) : Z * Z :=
  let '(current_level, max_level) := st in
  let c := ic.2 in
  let current_level := if is_open c then current_level + 1 else current_level in
  let current_level := if is_close c then current_level - 1 else current_level in
  (current_level, Z.max max_level current_level).

Definition find_max_level (s : pystr) : Z :=
  (fold_left max_level_step (enumerate s) (0, 0)).2.

(** State of the scan for the spans of one level.  [start] is the local
    variable of that name: unbound ([None]) until first assigned. *)
Record scan := mk_scan {
  current_level : Z;
  start : option Z;
  pairs : list (Z * Z)
}.

Definition scan_step (level : Z) (st : scan) (ic : Z * ascii) : outcome scan :=
  let '(i, c) := ic in
  let st :=
    if is_open c then
      let cl := current_level st + 1 in
      mk_scan cl (if cl =? level then Some i else start st) (pairs st)
    else st in
  if is_close c then
    st ← (if current_level st =? level then
            match start st with
            | Some s => Ret (mk_scan (current_level st) (start st)
                                     (pairs st ++ [(s, i)]))
            | None => Raise UnboundLocalError
            end
          else Ret st);
    Ret (mk_scan (current_level st - 1) (start st) (pairs st))
  else Ret st.

(** Body of [for pair in pairs[::-1]]: read the identity that follows the
    closing parenthesis, evaluate the span, cut it out of the string. *)
Definition excise (st : pystr * gmap key dict) (pair : Z * Z)
  : outcome (pystr * gmap key dict) :=
  let '(s, items) := st in
  let '(start, end_) := pair in
  let colon := find s ":" end_ in
  let branch_id := slice s (end_ + 1) colon in
  branch_id ← match branch_id with
               | [] => Ret Trunk
               | _ => Id <$> py_int branch_id
               end;
  d ← eval_dict (slice s (start + 1) end_);
  Ret (slice_to s start ++ slice_from s (end_ + 1), <[branch_id := d]> items).

(** Body of [for level in range(max_level, 0, -1)].  The third component
    is the local [start], which both inner loops assign. *)
Definition level_body (st : pystr * gmap key dict * option Z) (level : Z)
  : outcome (pystr * gmap key dict * option Z) :=
  let '(s, items, start0) := st in
  sc ← for_each (scan_step level) (enumerate s) (mk_scan 0 start0 []);
  si ← for_each excise (rev (pairs sc)) (s, items);
  Ret (si.1, si.2, match pairs sc with
                   | [] => start sc
                   | p :: _ => Some p.1
                   end).

(** [range(max_level, 0, -1)] *)
Definition levels (max_level : Z) : list Z := rev (seqZ 1 max_level).

Definition phase1 (s : pystr) : outcome (pystr * gmap key dict * option Z) :=
  for_each level_body (levels (find_max_level s)) (s, ∅, None).

(** ** Nodes and the dendrogram *)

(** What the builder passes to [Structure(indices, values, children, idx)],
    and the [_level] attribute that the importer assigns afterwards.  The
    class itself lives in [structure.py]; the importer never hands it a
    height. *)
#[warnings="-register-all"]
Inductive Structure (D : Type) :=
| mk_Structure (indices : list coord) (values : list D)
               (children : list (Structure D)) (idx : Z) (_level : option Z).

Arguments mk_Structure {D} indices values children idx _level.

Definition indices {D} (n : Structure D) : list coord :=
  match n with mk_Structure i _ _ _ _ => i end.
Definition values {D} (n : Structure D) : list D :=
  match n with mk_Structure _ v _ _ _ => v end.
Definition children {D} (n : Structure D) : list (Structure D) :=
  match n with mk_Structure _ _ c _ _ => c end.
Definition idx {D} (n : Structure D) : Z :=
  match n with mk_Structure _ _ _ i _ => i end.
Definition _level {D} (n : Structure D) : option Z :=
  match n with mk_Structure _ _ _ _ l => l end.

(** [node._level = l] *)
Definition set_level {D} (l : Z) (n : Structure D) : Structure D :=
  mk_Structure (indices n) (values n) (children n) (idx n) (Some l).

(** The fields of [Dendrogram] that the importer fills.  [nodes_dict], the
    index of the same node objects by identity, is left out: no function
    of this file reads it, and every node it holds is reachable from
    [trunk]. *)
Record Dendrogram (D : Type) := mk_Dendrogram {
  n_dim : Z;
  data : ndarray D;
  index_map : ndarray Z;
  trunk : list (Structure D)
}.

Arguments mk_Dendrogram {D} n_dim data index_map trunk.
Arguments n_dim {D} _.
Arguments data {D} _.
Arguments index_map {D} _.
Arguments trunk {D} _.

(** The datasets and attributes read from the file. *)
Record h5file (D : Type) := mk_h5file {
  attr_n_dim : Z;
  ds_data : ndarray D;
  ds_index_map : ndarray Z;
  ds_newick : pystr
}.

Arguments mk_h5file {D} attr_n_dim ds_data ds_index_map ds_newick.
Arguments attr_n_dim {D} _.
Arguments ds_data {D} _.
Arguments ds_index_map {D} _.
Arguments ds_newick {D} _.

Section Importer.

(** Element type of the data array. *)
Context {D : Type}.

(** Order in which the interpreter iterates over a dictionary, as a
    function of the order in which its keys were inserted. *)
Variable iter_order : list Z -> list Z.

(** Number of nested calls of a recursive helper that the interpreter
    allows before it raises [RuntimeError]. *)
Variable limit : nat.

(** *** Phase 2 of [_parse_newick] *)

(** [collect(d)], where [d] is the dictionary object bound to [k] in
    [items].  The dictionaries are updated in place, so the state is the
    whole of [items]. *)
Fixpoint collect (fuel : nat) (k : key) (items : gmap key dict)
  : outcome (gmap key dict) :=
  match fuel with
  | O => Raise RuntimeError
  | S fuel' =>
      match items !! k with
      | None => Raise (KeyError k)
      | Some d =>
          for_each
            (fun (items : gmap key dict) (item : Z) =>
               match items !! Id item with
               | None => Ret items
               | Some _ =>
                   items ← collect fuel' (Id item) items;
                   match items !! k with
                   | None => Raise (KeyError k)
                   | Some d =>
                       match dict_get d item with
                       | None => Raise (KeyError (Id item))
                       | Some old =>
                           Ret (<[k := dict_set d item (VTuple item old)]> items)
                       end
                   end
               end)
            (iter_order (dict_keys d)) items
      end
  end.

(** The result stands for the object [items['trunk']]: the dictionary
    bound to [Trunk], whose tuples refer to the other dictionaries of
    the returned map. *)
Definition _parse_newick (s : pystr) : outcome (gmap key dict) :=
  st ← phase1 s;
  let items := st.1.2 in
  match items !! Trunk with
  | None => Raise (KeyError Trunk)
  | Some _ => collect limit Trunk items
  end.

(** *** The label aggregation loop *)

Definition aggregate_step (data : ndarray D) (index_map : ndarray Z)
    (st : gmap Z (list D) * gmap Z (list coord)) (c : coord)
  : outcome (gmap Z (list D) * gmap Z (list coord)) :=
  let '(flux_by_node, indices_by_node) := st in
  i ← getitem index_map c;
  b ← truth i;
  if b : bool then
    i ← hashable i;
    let fresh :=
      v ← element data c;
      Ret (<[i := [v]]> flux_by_node, <[i := [c]]> indices_by_node) in
    match flux_by_node !! i with
    | None => fresh
    | Some fl =>
        v ← element data c;
        let flux_by_node := <[i := fl ++ [v]]> flux_by_node in
        match indices_by_node !! i with
        | None =>
            v ← element data c;
            Ret (<[i := [v]]> flux_by_node, <[i := [c]]> indices_by_node)
        | Some il => Ret (flux_by_node, <[i := il ++ [c]]> indices_by_node)
        end
    end
  else Ret st.

(** The loop over [indices]: one pass over the coordinates of [data]. *)
Definition aggregate (data : ndarray D) (index_map : ndarray Z)
  : outcome (gmap Z (list D) * gmap Z (list coord)) :=
  for_each (aggregate_step data index_map) (all_coords (shape data)) (∅, ∅).

(** *** The tree builder *)

(** [d[k]] on a dictionary that is only indexed. *)
Definition subscript {V} (m : gmap Z V) (k : Z) : outcome V :=
  match m !! k with
  | Some v => Ret v
  | None => Raise (KeyError (Id k))
  end.

(** [d.itervalues().next()] *)
Definition first_value (d : dict) : outcome value :=
  match iter_order (dict_keys d) with
  | [] => Raise StopIteration
  | k :: _ =>
      match dict_get d k with
      | Some v => Ret v
      | None => Raise (KeyError (Id k))
      end
  end.

(** [_construct_tree(repr)], where [repr] is the dictionary object bound
    to [k] in [items]. *)
Fixpoint _construct_tree (fuel : nat) (items : gmap key dict)
    (flux_by_node : gmap Z (list D)) (indices_by_node : gmap Z (list coord))
    (k : key) : outcome (list (Structure D)) :=
  match fuel with
  | O => Raise RuntimeError
  | S fuel' =>
      match items !! k with
      | None => Raise (KeyError k)
      | Some repr =>
          for_each
            (fun (nodes : list (Structure D)) (idx : Z) =>
               node_indices ← subscript indices_by_node idx;
               f ← subscript flux_by_node idx;
               match dict_get repr idx with
               | None => Raise (KeyError (Id idx))
               | Some (VTuple ref _) =>
                   sub_nodes ← _construct_tree fuel' items flux_by_node
                                               indices_by_node (Id ref);
                   let b := mk_Structure node_indices f sub_nodes idx None in
                   match items !! Id ref with
                   | None => Raise (KeyError (Id ref))
                   | Some sub_nodes_repr =>
                       first_child_repr ← first_value sub_nodes_repr;
                       let height := match first_child_repr with
                                     | VTuple _ h => h
                                     | VNum _ => first_child_repr
                                     end in
                       Ret (nodes ++ [b])
                   end
               | Some (VNum _) =>
                   let l := mk_Structure node_indices f [] idx None in
                   Ret (nodes ++ [l])
               end)
            (iter_order (dict_keys repr)) []
      end
  end.

Definition dendro_import_hdf5 (h5f : h5file D) : outcome (Dendrogram D) :=
  let data := ds_data h5f in
  let index_map := ds_index_map h5f in
  ag ← aggregate data index_map;
  repr ← _parse_newick (ds_newick h5f);
  trunk ← _construct_tree limit repr ag.1 ag.2 Trunk;
  Ret (mk_Dendrogram (attr_n_dim h5f) data index_map (set_level 0 <$> trunk)).

End Importer.

(** Iteration in insertion order.  CPython 2 iterates over a small
    dictionary of integers by hash slot, the key modulo 8, so for keys
    below 8 written in increasing order, as in most of the examples
    below, this is its order.  For the keys 3 and 9 of [nested_document]
    it is not (CPython 2 gives 9 before 3): there [insertion_order] only
    fixes one order, and the general statements hold for every order. *)
Definition insertion_order (ks : list Z) : list Z := ks.

(** Iteration in increasing order of the keys. *)
Definition ascending_order (ks : list Z) : list Z := merge_sort Z.le ks.

(** A one-dimensional array. *)
Definition arr1 {A} (l : list A) : ndarray A := mk_ndarray [length l] l.

(** ** Vocabulary of the statements *)

(** A node and all its descendants, parents first. *)
Fixpoint subnodes {D} (n : Structure D) : list (Structure D) :=
  n :: (fix go (cs : list (Structure D)) : list (Structure D) :=
          match cs with
          | [] => []
          | c :: cs' => subnodes c ++ go cs'
          end) (children n).

(** Every node of a dendrogram. *)
Definition nodes_of {D} (d : Dendrogram D) : list (Structure D) :=
  n ← trunk d; subnodes n.

Definition is_branch {D} (n : Structure D) : Prop := children n ≠ [].

(** A node apart from the order of its children. *)
Definition same_node {D} (n n' : Structure D) : Prop :=
  idx n' = idx n /\ indices n' = indices n /\ values n' = values n
  /\ _level n' = _level n
  /\ idx <$> children n' ≡ₚ idx <$> children n.

(** Two dendrograms with the same arrays, the same identities among the
    roots and among all nodes, and under every identity the same node
    apart from the order of its children. *)
Definition same_structure {D} (d d' : Dendrogram D) : Prop :=
  n_dim d' = n_dim d /\ data d' = data d /\ index_map d' = index_map d
  /\ idx <$> trunk d' ≡ₚ idx <$> trunk d
  /\ idx <$> nodes_of d' ≡ₚ idx <$> nodes_of d
  /\ forall n n', n ∈ nodes_of d -> n' ∈ nodes_of d' -> idx n' = idx n ->
                  same_node n n'.

(** The pixels of a labelled array in traversal order: coordinate, label
    and data value. *)
Definition pixels {D} (data : ndarray D) (index_map : ndarray Z)
  : list (coord * (Z * D)) :=
  zip (all_coords (shape data)) (zip (flat index_map) (flat data)).

(** The pixels that carry the label [v], in traversal order. *)
Definition labelled {D} (v : Z) (px : list (coord * (Z * D)))
  : list (coord * (Z * D)) :=
  filter (fun p => p.2.1 = v) px.

(** The accumulator that a pass over [px] leaves for the label [v]. *)
Definition group {D A} (f : coord * (Z * D) -> A) (v : Z)
    (px : list (coord * (Z * D))) : option (list A) :=
  if decide (v = 0) then None
  else match labelled v px with
       | [] => None
       | l => Some (f <$> l)
       end.

(** The nested mapping that a dictionary of [items] stands for once the
    references of its tuples are followed. *)
#[warnings="-register-all"]
Inductive nested :=
| NHeight (h : Q)
| NPair (d : list (Z * nested)) (old : nested).

Fixpoint view (fuel : nat) (items : gmap key dict) (v : value) : option nested :=
  match fuel with
  | O => None
  | S fuel' =>
      match v with
      | VNum h => Some (NHeight h)
      | VTuple ref old =>
          d ← items !! Id ref;
          d' ← mapM (fun kv : Z * value =>
                       n ← view fuel' items kv.2; Some (kv.1, n)) d;
          o ← view fuel' items old;
          Some (NPair d' o)
      end
  end.

Definition view_dict (fuel : nat) (items : gmap key dict) (k : key)
  : option (list (Z * nested)) :=
  d ← items !! k;
  mapM (fun kv : Z * value => n ← view fuel items kv.2; Some (kv.1, n)) d.

(** ** The format that the parser accepts *)

(** Syntax tree of a topology string.  An entry is [identity:height],
    preceded, for a branch, by the parenthesised entries of its children:
    the identity of a branch comes right after its closing parenthesis.
    The tree keeps the literals as they are written. *)
#[warnings="-register-all"]
Inductive entry :=
| ELeaf (id_text height_text : pystr)
| EBranch (subs : list entry) (id_text height_text : pystr).

Definition id_text (e : entry) : pystr :=
  match e with ELeaf i _ => i | EBranch _ i _ => i end.
Definition height_text (e : entry) : pystr :=
  match e with ELeaf _ h => h | EBranch _ _ h => h end.
Definition subs (e : entry) : list entry :=
  match e with ELeaf _ _ => [] | EBranch cs _ _ => cs end.

(** [",".join(l)] *)
Fixpoint join (l : list pystr) : pystr :=
  match l with
  | [] => []
  | [w] => w
  | w :: l' => w ++ ","%char :: join l'
  end.

Definition header (e : entry) : pystr :=
  id_text e ++ ":"%char :: height_text e.

Fixpoint print_entry (e : entry) : pystr :=
  match e with
  | ELeaf _ _ => header e
  | EBranch cs _ _ =>
      "("%char ::
        join ((fix go (l : list entry) : list pystr :=
                 match l with
                 | [] => []
                 | c :: l' => print_entry c :: go l'
                 end) cs)
        ++ ")"%char :: header e
  end.

(** The whole string: the group of the roots, which has no identity, and
    a terminator of at most one character. *)
Definition print_document (roots : list entry) (term : pystr) : pystr :=
  "("%char :: join (print_entry <$> roots) ++ ")"%char :: term.

Definition id_of (e : entry) : Z := default 0 (int_literal (id_text e)).
Definition height_of (e : entry) : Q := default 0%Q (num_literal (height_text e)).

(** The nested mapping that a syntax tree denotes. *)
Fixpoint nested_of (e : entry) : Z * nested :=
  match e with
  | ELeaf _ _ => (id_of e, NHeight (height_of e))
  | EBranch cs _ _ =>
      (id_of e,
       NPair ((fix go (l : list entry) : list (Z * nested) :=
                 match l with
                 | [] => []
                 | c :: l' => nested_of c :: go l'
                 end) cs)
             (NHeight (height_of e)))
  end.

(** An entry and all the entries below it. *)
Fixpoint entries_of (e : entry) : list entry :=
  e :: match e with
       | ELeaf _ _ => []
       | EBranch cs _ _ =>
           (fix go (l : list entry) : list entry :=
              match l with
              | [] => []
              | c :: l' => entries_of c ++ go l'
              end) cs
       end.

(** Nesting depth of the groups of an entry. *)
Fixpoint depth (e : entry) : nat :=
  match e with
  | ELeaf _ _ => O
  | EBranch cs _ _ =>
      S ((fix go (l : list entry) : nat :=
            match l with
            | [] => O
            | c :: l' => Nat.max (depth c) (go l')
            end) cs)
  end.

Definition forest_depth (roots : list entry) : nat :=
  foldr Nat.max O (depth <$> roots).

(** Both literals of an entry are literals of the fragment. *)
Definition literals_ok (e : entry) : Prop :=
  is_Some (int_literal (id_text e)) /\ is_Some (num_literal (height_text e)).

(** A well-formed document: literals of the fragment, identities that
    are pairwise distinct, a terminator of at most one character that is
    not a parenthesis. *)
Record well_formed (roots : list entry) (term : pystr) : Prop := {
  wf_literals : Forall literals_ok (roots ≫= entries_of);
  wf_distinct : NoDup (id_of <$> (roots ≫= entries_of));
  wf_term_short : (length term <= 1)%nat;
  wf_term_plain : ("("%char ∉ term) /\ (")"%char ∉ term)
}.

(** ** The encoder *)

Section Encoder.

Context {D : Type}.

(** The literals that the encoder writes for the identity and for the
    height of a node, and what it ends the string with.  The nodes that
    the importer builds hold no height: the class that reports the height
    of a node is not in this file. *)
Variable write_id : Z -> pystr.
Variable write_height : Structure D -> pystr.
Variable terminator : pystr.

(** Modelled from the spec: [to_newick], the encoder of the topology
    string, which is called by [dendro_export_hdf5] and defined outside
    this file.  The spec gives it as the exact mirror of the decode path.
    The decoder reads the identity of a group between its closing
    parenthesis and the next colon, so a leaf is written
    [identity:height] and a branch is written as the group of its
    children followed at once by [identity:height].  The informal grammar
    of the spec shows a colon between the parenthesis and the identity;
    the decode path does not read such a string, and the mirror of the
    decode path is what is modelled. *)
Fixpoint to_newick_node (n : Structure D) : pystr :=
  match n with
  | mk_Structure _ _ cs i _ =>
      match cs with
      | [] => []
      | _ =>
          "("%char ::
            join ((fix go (l : list (Structure D)) : list pystr :=
                     match l with
                     | [] => []
                     | c :: l' => to_newick_node c :: go l'
                     end) cs)
            ++ [")"%char]
      end ++ write_id i ++ ":"%char :: write_height n
  end.

(** Modelled from the spec: the document is the group of the roots, which
    has no identity, and the terminator. *)
Definition to_newick (roots : list (Structure D)) : pystr :=
  "("%char :: join (to_newick_node <$> roots) ++ ")"%char :: terminator.

(** The syntax tree of the text written for a node. *)
Fixpoint entry_of (n : Structure D) : entry :=
  match n with
  | mk_Structure _ _ cs i _ =>
      match cs with
      | [] => ELeaf (write_id i) (write_height n)
      | _ =>
          EBranch ((fix go (l : list (Structure D)) : list entry :=
                      match l with
                      | [] => []
                      | c :: l' => entry_of c :: go l'
                      end) cs)
                  (write_id i) (write_height n)
      end
  end.

(** The height that the decoder reads for a node: the rational denoted by
    the literal written. *)
Definition written_height (n : Structure D) : Q :=
  default 0%Q (num_literal (write_height n)).

(** The nested mapping of the nodes as the encoder writes them. *)
Fixpoint written (n : Structure D) : Z * nested :=
  match n with
  | mk_Structure _ _ cs i _ =>
      (i, match cs with
          | [] => NHeight (written_height n)
          | _ =>
              NPair ((fix go (l : list (Structure D)) : list (Z * nested) :=
                        match l with
                        | [] => []
                        | c :: l' => written c :: go l'
                        end) cs)
                    (NHeight (written_height n))
          end)
  end.

(** Nesting depth of the branches of a node. *)
Fixpoint node_depth (n : Structure D) : nat :=
  match n with
  | mk_Structure _ _ cs _ _ =>
      match cs with
      | [] => O
      | _ =>
          S ((fix go (l : list (Structure D)) : nat :=
                match l with
                | [] => O
                | c :: l' => Nat.max (node_depth c) (go l')
                end) cs)
      end
  end.

End Encoder.

(** Decimal digits of an integer, and a height for the examples. *)
Definition write_decimal (z : Z) : pystr :=
  list_ascii_of_string (NilZero.string_of_int (Z.to_int z)).

Definition write_one {D} (n : Structure D) : pystr := py "1.0".

(** ** Input files of the examples *)

Definition two_leaves : pystr := py "(1:2.0,2:3.0):".

(** A branch written with a colon between the closing parenthesis and its
    identity, and the same branch with the identity right after the
    parenthesis. *)
Definition branch_colon_id : pystr := py "((1:1.0,2:1.5):3:4.0):".
Definition branch_id : pystr := py "((1:1.0,2:1.5)3:4.0);".

(** The opening parenthesis of the outer group is never closed. *)
Definition unclosed_outer : pystr := py "((1:1.0,2:1.5);".

Definition file_two_leaves : h5file Z :=
  mk_h5file 1 (arr1 [10; 11; 12; 13; 14; 15]) (arr1 [1; 1; 0; 2; 2; 2]) two_leaves.

Definition file_branch_colon_id : h5file Z :=
  mk_h5file 1 (arr1 [10; 11; 12; 13]) (arr1 [1; 1; 2; 2]) branch_colon_id.

Definition file_branch_unlabelled : h5file Z :=
  mk_h5file 1 (arr1 [10; 11; 12; 13]) (arr1 [1; 1; 2; 2]) branch_id.

Definition file_branch : h5file Z :=
  mk_h5file 1 (arr1 [10; 11; 12; 13; 14]) (arr1 [1; 1; 2; 2; 3]) branch_id.

(** The two leaves written in decreasing order of their identities. *)
Definition file_two_leaves_swapped : h5file Z :=
  mk_h5file 1 (arr1 [10; 11; 12; 13; 14; 15]) (arr1 [1; 1; 0; 2; 2; 2])
    (py "(2:3.0,1:2.0);").

(** The label 7 is not an identity of the topology. *)
Definition file_stray_label : h5file Z :=
  mk_h5file 1 (arr1 [10; 11]) (arr1 [1; 7]) (py "(1:2.0);").

Definition file_unclosed_outer : h5file Z :=
  mk_h5file 1 (arr1 [10; 11]) (arr1 [1; 2]) unclosed_outer.

(** A document with a branch inside a branch:
    ["((1:1.0,(7:0.5)2:1.5)3:4.0,9:2.0);"]. *)
Definition nested_document : list entry :=
  [EBranch [ELeaf (py "1") (py "1.0");
            EBranch [ELeaf (py "7") (py "0.5")] (py "2") (py "1.5")]
           (py "3") (py "4.0");
   ELeaf (py "9") (py "2.0")].

(** The dendrograms that the importer returns on four of these files. *)
Definition leaf_1 : Structure Z := mk_Structure [[0]; [1]]%nat [10; 11] [] 1 None.
Definition leaf_2 : Structure Z := mk_Structure [[2]; [3]]%nat [12; 13] [] 2 None.
Definition branch_3 : Structure Z :=
  mk_Structure [[4]]%nat [14] [leaf_1; leaf_2] 3 (Some 0).

Definition dendrogram_branch : Dendrogram Z :=
  mk_Dendrogram 1 (ds_data file_branch) (ds_index_map file_branch) [branch_3].

Definition dendrogram_two_leaves : Dendrogram Z :=
  mk_Dendrogram 1 (ds_data file_two_leaves) (ds_index_map file_two_leaves)
    [mk_Structure [[0]; [1]]%nat [10; 11] [] 1 (Some 0);
     mk_Structure [[3]; [4]; [5]]%nat [13; 14; 15] [] 2 (Some 0)].

Definition dendrogram_stray_label : Dendrogram Z :=
  mk_Dendrogram 1 (ds_data file_stray_label) (ds_index_map file_stray_label)
    [mk_Structure [[0]]%nat [10] [] 1 (Some 0)].

Definition dendrogram_unclosed_outer : Dendrogram Z :=
  mk_Dendrogram 1 (ds_data file_unclosed_outer) (ds_index_map file_unclosed_outer)
    [mk_Structure [[0]]%nat [10] [] 1 (Some 0);
     mk_Structure [[1]]%nat [11] [] 2 (Some 0)].

(** * Properties *)

(** ** Outcomes *)

Lemma for_each_cons {A S} (body : S -> A -> outcome S) x xs st :
  for_each body (x :: xs) st = st' ← body st x; for_each body xs st'.
Proof. done. Qed.

Lemma for_each_app {A S} (body : S -> A -> outcome S) xs ys st :
  for_each body (xs ++ ys) st = st' ← for_each body xs st; for_each body ys st'.
Proof.
  revert st. induction xs as [|x xs IH]; intros st; simpl; [done|].
  destruct (body st x); simpl; auto.
Qed.

Lemma for_each_invariant {A S} (P : S -> Prop) (body : S -> A -> outcome S) xs :
  (forall st x st', x ∈ xs -> P st -> body st x = Ret st' -> P st') ->
  forall st st', P st -> for_each body xs st = Ret st' -> P st'.
Proof.
  induction xs as [|x xs IH]; intros Hbody st st' HP Hrun; simpl in Hrun.
  - by inversion Hrun; subst.
  - destruct (body st x) as [st1| |] eqn:E; simpl in Hrun; try discriminate.
    apply (IH (fun st0 y st0' Hy => Hbody st0 y st0' (list_elem_of_further _ _ _ Hy))
              st1 st'); [|done].
    eapply Hbody; [apply list_elem_of_here|exact HP|exact E].
Qed.

Lemma ret_bind {A B} (a : A) (f : A -> outcome B) : Ret a ≫= f = f a.
Proof. done. Qed.

Lemma bind_Ret {A B} (m : outcome A) (f : A -> outcome B) b :
  m ≫= f = Ret b -> exists a, m = Ret a /\ f a = Ret b.
Proof. destruct m; simpl; intros; try discriminate; eauto. Qed.

(** ** Strings without an opening or without a closing parenthesis *)

Lemma is_open_false c : c ≠ "("%char -> is_open c = false.
Proof. intros H. unfold is_open. by apply Ascii.eqb_neq. Qed.

Lemma is_close_false c : c ≠ ")"%char -> is_close c = false.
Proof. intros H. unfold is_close. by apply Ascii.eqb_neq. Qed.

Lemma max_level_no_open s i cur :
  "("%char ∉ s -> cur <= 0 ->
  exists cur', cur' <= 0 /\
    fold_left max_level_step (enumerate_from i s) (cur, 0) = (cur', 0).
Proof.
  revert i cur. induction s as [|c s IH]; intros i cur Hno Hcur; simpl.
  - eauto.
  - apply not_elem_of_cons in Hno as [Hc Hs].
    rewrite is_open_false by done.
    destruct (is_close c).
    + replace (Z.max 0 (cur - 1)) with 0 by lia. apply IH; [done|lia].
    + replace (Z.max 0 cur) with 0 by lia. by apply IH.
Qed.

Lemma find_max_level_no_open s : "("%char ∉ s -> find_max_level s = 0.
Proof.
  intros Hno. unfold find_max_level, enumerate.
  destruct (max_level_no_open s 0 0 Hno) as (cur' & _ & ->); [lia|done].
Qed.

Lemma scan_no_close level s i sc :
  ")"%char ∉ s ->
  exists sc', for_each (scan_step level) (enumerate_from i s) sc = Ret sc'
              /\ pairs sc' = pairs sc.
Proof.
  revert i sc. induction s as [|c s IH]; intros i sc Hno; simpl.
  - eauto.
  - apply not_elem_of_cons in Hno as [Hc Hs].
    rewrite is_close_false by done. simpl.
    destruct (IH (i + 1) (if is_open c
                          then mk_scan (current_level sc + 1)
                                 (if current_level sc + 1 =? level
                                  then Some i else start sc) (pairs sc)
                          else sc) Hs) as (sc' & -> & Hp).
    exists sc'. split; [done|]. rewrite Hp. by destruct (is_open c).
Qed.

Lemma level_body_no_close s items st level :
  ")"%char ∉ s -> exists st', level_body (s, items, st) level = Ret (s, items, st').
Proof.
  intros Hno. unfold level_body, enumerate.
  destruct (scan_no_close level s 0 (mk_scan 0 st []) Hno) as (sc' & -> & Hp).
  simpl in *. rewrite Hp. simpl. eauto.
Qed.

Lemma levels_no_close s items ls :
  ")"%char ∉ s ->
  forall st, exists st', for_each level_body ls (s, items, st) = Ret (s, items, st').
Proof.
  intros Hno. induction ls as [|l ls IH]; intros st; [simpl; eauto|].
  rewrite for_each_cons.
  destruct (level_body_no_close s items st l Hno) as (st1 & ->). apply IH.
Qed.

Lemma outcome_cases {A} (m : outcome A) : returns m \/ raises m \/ m = Beyond.
Proof. destruct m; unfold returns, raises; eauto. Qed.

(** ** Nesting levels along a string *)

(** The level after one more character. *)
Definition step_level (c : Z) (x : ascii) : Z :=
  if is_open x then c + 1 else if is_close x then c - 1 else c.

(** The level at the end of [w], entered at level [c]. *)
Definition net (c : Z) (w : pystr) : Z := fold_left step_level w c.

(** The highest level met along [w], entered at level [c]. *)
Fixpoint peak (c : Z) (w : pystr) : Z :=
  match w with
  | [] => c
  | x :: w' => Z.max c (peak (step_level c x) w')
  end.

(** A text without parentheses. *)
Definition plain (w : pystr) : Prop := ("("%char ∉ w) /\ (")"%char ∉ w).

Lemma is_open_true x : is_open x = true <-> x = "("%char.
Proof. unfold is_open. apply Ascii.eqb_eq. Qed.

Lemma is_close_true x : is_close x = true <-> x = ")"%char.
Proof. unfold is_close. apply Ascii.eqb_eq. Qed.

Lemma open_not_close x : is_open x = true -> is_close x = false.
Proof. intros ->%is_open_true. done. Qed.

Lemma plain_nil : plain [].
Proof. split; apply not_elem_of_nil. Qed.

Lemma plain_cons x w :
  plain (x :: w) <-> (is_open x = false /\ is_close x = false) /\ plain w.
Proof.
  unfold plain. rewrite !not_elem_of_cons.
  assert (is_open x = false <-> "("%char ≠ x) as ->.
  { rewrite <- not_true_iff_false, is_open_true. split; intros H E; by apply H. }
  assert (is_close x = false <-> ")"%char ≠ x) as ->.
  { rewrite <- not_true_iff_false, is_close_true. split; intros H E; by apply H. }
  tauto.
Qed.

Lemma plain_app w1 w2 : plain (w1 ++ w2) <-> plain w1 /\ plain w2.
Proof. unfold plain. rewrite !not_elem_of_app. tauto. Qed.

Lemma net_app c w1 w2 : net c (w1 ++ w2) = net (net c w1) w2.
Proof. unfold net. apply fold_left_app. Qed.

Lemma peak_ge c w : c <= peak c w.
Proof. destruct w; simpl; lia. Qed.

Lemma peak_app c w1 w2 :
  peak c (w1 ++ w2) = Z.max (peak c w1) (peak (net c w1) w2).
Proof.
  revert c. induction w1 as [|x w1 IH]; intros c; simpl.
  - pose proof (peak_ge c w2). unfold net. simpl. lia.
  - rewrite IH. unfold net. simpl. lia.
Qed.

Lemma net_plain c w : plain w -> net c w = c.
Proof.
  revert c. induction w as [|x w IH]; intros c; [done|].
  intros [[Ho Hc] Hw]%plain_cons. unfold net in *. simpl.
  unfold step_level at 2. rewrite Ho, Hc. by apply IH.
Qed.

Lemma peak_plain c w : plain w -> peak c w = c.
Proof.
  revert c. induction w as [|x w IH]; intros c; [done|].
  intros [[Ho Hc] Hw]%plain_cons. simpl.
  unfold step_level. rewrite Ho, Hc, IH by done. lia.
Qed.

Lemma enumerate_from_app {A} (l1 l2 : list A) i :
  enumerate_from i (l1 ++ l2)
  = enumerate_from i l1 ++ enumerate_from (i + Z.of_nat (length l1)) l2.
Proof.
  revert i. induction l1 as [|x l1 IH]; intros i; simpl.
  - f_equal. lia.
  - rewrite IH. do 3 f_equal. lia.
Qed.

Lemma max_level_step_level c mx i x :
  max_level_step (c, mx) (i, x) = (step_level c x, Z.max mx (step_level c x)).
Proof.
  unfold max_level_step, step_level. simpl.
  destruct (is_open x) eqn:E; [by rewrite (open_not_close x E)|done].
Qed.

Lemma max_level_fold w : forall i c mx,
  c <= mx ->
  fold_left max_level_step (enumerate_from i w) (c, mx)
  = (net c w, Z.max mx (peak c w)).
Proof.
  induction w as [|x w IH]; intros i c mx Hle; cbn [enumerate_from fold_left].
  - simpl. f_equal. lia.
  - rewrite max_level_step_level, IH by lia. unfold net. simpl. f_equal.
    pose proof (peak_ge (step_level c x) w). lia.
Qed.

Lemma find_max_level_peak s : find_max_level s = peak 0 s.
Proof.
  unfold find_max_level, enumerate. rewrite max_level_fold by lia. simpl.
  pose proof (peak_ge 0 s). lia.
Qed.

(** ** The scan of one level *)

Lemma scan_step_level L sc i x :
  step_level (current_level sc) x < L -> current_level sc < L ->
  scan_step L sc (i, x)
  = Ret (mk_scan (step_level (current_level sc) x) (start sc) (pairs sc)).
Proof.
  intros H1 H2. unfold scan_step, step_level in *. destruct sc as [c st ps].
  simpl in *. destruct (is_open x) eqn:Eo.
  - rewrite (open_not_close x Eo). simpl.
    destruct (Z.eqb_spec (c + 1) L); [lia|done].
  - destruct (is_close x); simpl; [|done].
    destruct (Z.eqb_spec c L); [lia|done].
Qed.

(** A text that stays below the level leaves the pairs alone. *)
Lemma scan_quiet L w : forall i sc,
  peak (current_level sc) w < L ->
  for_each (scan_step L) (enumerate_from i w) sc
  = Ret (mk_scan (net (current_level sc) w) (start sc) (pairs sc)).
Proof.
  induction w as [|x w IH]; intros i sc Hpeak.
  - simpl. by destruct sc.
  - cbn [enumerate_from peak] in *. rewrite for_each_cons.
    pose proof (peak_ge (step_level (current_level sc) x) w).
    rewrite scan_step_level, ret_bind by lia.
    rewrite IH by (simpl; lia). done.
Qed.

Lemma scan_step_plain L sc i x :
  is_open x = false -> is_close x = false -> scan_step L sc (i, x) = Ret sc.
Proof. intros Ho Hx. unfold scan_step. by rewrite Ho, Hx. Qed.

Lemma scan_plain L b : forall i sc,
  plain b -> for_each (scan_step L) (enumerate_from i b) sc = Ret sc.
Proof.
  induction b as [|x b IH]; intros i sc Hb; [done|].
  apply plain_cons in Hb as [[Ho Hx] Hb].
  cbn [enumerate_from]. rewrite for_each_cons.
  rewrite scan_step_plain, ret_bind by done. by apply IH.
Qed.

(** A group at the level adds its span. *)
Lemma scan_group L b i sc :
  current_level sc = L - 1 -> plain b ->
  for_each (scan_step L) (enumerate_from i ("("%char :: b ++ [")"%char])) sc
  = Ret (mk_scan (L - 1) (Some i) (pairs sc ++ [(i, i + len b + 1)])).
Proof.
  intros Hc Hb. cbn [enumerate_from]. rewrite for_each_cons.
  assert (scan_step L sc (i, "("%char)
          = Ret (mk_scan L (Some i) (pairs sc))) as ->.
  { unfold scan_step. simpl.
    replace (current_level sc + 1 =? L) with true
      by (symmetry; apply Z.eqb_eq; lia).
    do 2 f_equal. lia. }
  rewrite ret_bind, enumerate_from_app, for_each_app, scan_plain, ret_bind by done.
  cbn [enumerate_from]. rewrite for_each_cons.
  unfold scan_step. simpl. rewrite Z.eqb_refl. simpl.
  unfold len. do 3 f_equal. do 2 f_equal. lia.
Qed.

(** ** Slices around a span *)

Lemma len_app s1 s2 : len (s1 ++ s2) = len s1 + len s2.
Proof. unfold len. rewrite length_app. lia. Qed.

Lemma len_cons x s : len (x :: s) = 1 + len s.
Proof. unfold len. simpl. lia. Qed.

Lemma len_nonneg s : 0 <= len s.
Proof. unfold len. lia. Qed.

Lemma clamp_inside n i : 0 <= i <= n -> clamp n i = i.
Proof. intros H. unfold clamp. destruct (Z.ltb_spec i 0); lia. Qed.

Lemma slice_middle p m q : slice (p ++ m ++ q) (len p) (len p + len m) = m.
Proof.
  unfold slice. pose proof (len_nonneg p). pose proof (len_nonneg m).
  pose proof (len_nonneg q).
  rewrite !clamp_inside by (rewrite !len_app; lia).
  replace (len p + len m - len p) with (len m) by lia.
  unfold len. rewrite !Nat2Z.id, drop_app_length, take_app_length. done.
Qed.

Lemma slice_minus_one p q : slice (p ++ q) (len p) (-1) = take (length q - 1) q.
Proof.
  unfold slice. pose proof (len_nonneg p). pose proof (len_nonneg q).
  rewrite (clamp_inside _ (len p)) by (rewrite len_app; lia).
  unfold clamp. simpl. rewrite len_app.
  unfold len. rewrite Nat2Z.id, drop_app_length. f_equal. lia.
Qed.

Lemma slice_to_prefix p q : slice_to (p ++ q) (len p) = p.
Proof.
  unfold slice_to.
  pose proof (slice_middle [] p q) as H. simpl in H.
  replace (len [] + len p) with (len p) in H by (unfold len; simpl; lia).
  exact H.
Qed.

Lemma slice_from_suffix p q : slice_from (p ++ q) (len p) = q.
Proof.
  unfold slice_from.
  pose proof (slice_middle p q []) as H. rewrite app_nil_r in H.
  rewrite len_app. exact H.
Qed.

Lemma index_of_lt c s i : index_of c s = Some i -> (i < length s)%nat.
Proof.
  revert i. induction s as [|x s IH]; intros i; simpl; [done|].
  destruct (Ascii.eqb x c).
  - intros [= <-]. lia.
  - destruct (index_of c s) as [j|]; simpl; [|done].
    intros [= <-]. specialize (IH j eq_refl). lia.
Qed.

Lemma find_at_suffix p q c :
  find (p ++ q) c (len p)
  = match index_of c q with
    | Some i => len p + Z.of_nat i
    | None => -1
    end.
Proof.
  unfold find. pose proof (len_nonneg p). pose proof (len_nonneg q).
  rewrite clamp_inside by (rewrite len_app; lia).
  unfold len at 1. by rewrite Nat2Z.id, drop_app_length.
Qed.

(** The text that [excise] reads as the identity of a span, given what
    follows its closing parenthesis: up to the first colon, or, without a
    colon, all but the last character. *)
Definition key_text (after : pystr) : pystr :=
  match index_of ":" after with
  | Some i => take i after
  | None => take (length after - 1) after
  end.

Definition key_after (after : pystr) : outcome key :=
  match key_text after with
  | [] => Ret Trunk
  | bid => Id <$> py_int bid
  end.

Lemma excise_span pre b after items :
  excise (pre ++ "("%char :: b ++ ")"%char :: after, items)
         (len pre, len pre + len b + 1)
  = k ← key_after after; d ← eval_dict b;
    Ret (pre ++ after, <[k := d]> items).
Proof.
  unfold excise.
  set (s := pre ++ "("%char :: b ++ ")"%char :: after).
  set (p1 := pre ++ "("%char :: b).
  assert (len p1 = len pre + len b + 1) as Hp1.
  { unfold p1. rewrite len_app, len_cons. lia. }
  assert (s = p1 ++ ")"%char :: after) as Hs1.
  { unfold s, p1. by rewrite <- app_assoc. }
  assert (slice s (len pre + len b + 1 + 1)
                (find s ":" (len pre + len b + 1)) = key_text after) as ->.
  { rewrite <- Hp1, Hs1, find_at_suffix. simpl.
    replace (p1 ++ ")"%char :: after) with ((p1 ++ [")"%char]) ++ after)
      by (by rewrite <- app_assoc).
    replace (len p1 + 1) with (len (p1 ++ [")"%char]))
      by (rewrite len_app; unfold len; simpl; lia).
    unfold key_text. destruct (index_of ":" after) as [i|] eqn:Ei; simpl.
    - apply index_of_lt in Ei.
      rewrite <- (take_drop i after) at 1.
      replace (len p1 + Z.of_nat (S i))
        with (len (p1 ++ [")"%char]) + len (take i after)).
      + apply slice_middle.
      + rewrite len_app. unfold len. rewrite length_take. simpl. lia.
    - apply slice_minus_one. }
  assert (slice s (len pre + 1) (len pre + len b + 1) = b) as ->.
  { unfold s.
    replace (pre ++ "("%char :: b ++ ")"%char :: after)
      with ((pre ++ ["("%char]) ++ b ++ ")"%char :: after)
      by (by rewrite <- app_assoc).
    replace (len pre + 1) with (len (pre ++ ["("%char]))
      by (rewrite len_app; unfold len; simpl; lia).
    replace (len pre + len b + 1) with (len (pre ++ ["("%char]) + len b)
      by (rewrite len_app; unfold len; simpl; lia).
    apply slice_middle. }
  assert (slice_to s (len pre) = pre) as -> by apply slice_to_prefix.
  assert (slice_from s (len pre + len b + 1 + 1) = after) as ->.
  { rewrite Hs1.
    replace (p1 ++ ")"%char :: after) with ((p1 ++ [")"%char]) ++ after)
      by (by rewrite <- app_assoc).
    replace (len pre + len b + 1 + 1) with (len (p1 ++ [")"%char]))
      by (rewrite len_app, Hp1; unfold len; simpl; lia).
    apply slice_from_suffix. }
  unfold key_after. by destruct (key_text after).
Qed.

(** ** A string cut at the spans of one level *)

(** Texts [w], each followed by a group [(b)], and a last text [t]: the
    spans of the level are the groups. *)
Fixpoint seg_text (gs : list (pystr * pystr)) (t : pystr) : pystr :=
  match gs with
  | [] => t
  | (w, b) :: gs' => w ++ "("%char :: b ++ ")"%char :: seg_text gs' t
  end.

(** The string once the groups are cut out. *)
Fixpoint seg_cut (gs : list (pystr * pystr)) (t : pystr) : pystr :=
  match gs with
  | [] => t
  | (w, b) :: gs' => w ++ seg_cut gs' t
  end.

(** The positions of the parentheses of the groups. *)
Fixpoint seg_pairs (i : Z) (gs : list (pystr * pystr)) : list (Z * Z) :=
  match gs with
  | [] => []
  | (w, b) :: gs' =>
      (i + len w, i + len w + len b + 1)
        :: seg_pairs (i + len w + len b + 2) gs'
  end.

(** The groups are at level [L], the texts between them stay below it. *)
Fixpoint seg_ok (L c : Z) (gs : list (pystr * pystr)) (t : pystr) : Prop :=
  match gs with
  | [] => peak c t < L
  | (w, b) :: gs' =>
      peak c w < L /\ net c w = L - 1 /\ plain b /\ seg_ok L (L - 1) gs' t
  end.

(** What the groups add to [items], last group first; [rest] is the text
    that follows the segments. *)
Fixpoint seg_table (gs : list (pystr * pystr)) (t rest : pystr)
    (items : gmap key dict) : outcome (gmap key dict) :=
  match gs with
  | [] => Ret items
  | (w, b) :: gs' =>
      items' ← seg_table gs' t rest items;
      k ← key_after (seg_cut gs' t ++ rest);
      d ← eval_dict b;
      Ret (<[k := d]> items')
  end.

Lemma scan_seg L t gs : forall c i sc,
  current_level sc = c -> seg_ok L c gs t ->
  exists c' st',
    for_each (scan_step L) (enumerate_from i (seg_text gs t)) sc
    = Ret (mk_scan c' st' (pairs sc ++ seg_pairs i gs)).
Proof.
  induction gs as [|[w b] gs IH]; intros c i sc Hc Hok; simpl in Hok.
  - subst c. simpl. rewrite scan_quiet by done. rewrite app_nil_r. eauto.
  - destruct Hok as (Hw & Hnet & Hb & Hok). subst c.
    cbn [seg_text seg_pairs].
    rewrite enumerate_from_app, for_each_app, scan_quiet, ret_bind by done.
    assert ("("%char :: b ++ ")"%char :: seg_text gs t
            = ("("%char :: b ++ [")"%char]) ++ seg_text gs t) as ->.
    { simpl. by rewrite <- app_assoc. }
    rewrite enumerate_from_app, for_each_app.
    rewrite scan_group by done. rewrite ret_bind.
    edestruct (IH (L - 1)) as (c' & st' & ->); [|exact Hok|]; [done|].
    simpl. exists c', st'. rewrite <- app_assoc. simpl.
    replace (i + Z.of_nat (length w) + Z.of_nat (S (length (b ++ [")"%char]))))
      with (i + len w + len b + 2); [done|].
    unfold len. rewrite length_app. simpl. lia.
Qed.

Lemma excise_seg t gs : forall pre items,
  for_each excise (rev (seg_pairs (len pre) gs)) (pre ++ seg_text gs t, items)
  = items' ← seg_table gs t [] items; Ret (pre ++ seg_cut gs t, items').
Proof.
  induction gs as [|[w b] gs IH]; intros pre items; [done|].
  cbn [seg_pairs seg_text seg_cut seg_table rev].
  rewrite for_each_app.
  specialize (IH (pre ++ w ++ "("%char :: b ++ [")"%char]) items).
  replace (len (pre ++ w ++ "("%char :: b ++ [")"%char]))
    with (len pre + len w + len b + 2) in IH.
  2:{ rewrite !len_app, len_cons, len_app. unfold len. simpl. lia. }
  replace ((pre ++ w ++ "("%char :: b ++ [")"%char]) ++ seg_text gs t)
    with (pre ++ w ++ "("%char :: b ++ ")"%char :: seg_text gs t) in IH.
  2:{ rewrite <- !app_assoc. simpl. rewrite <- app_assoc. done. }
  rewrite IH. clear IH.
  destruct (seg_table gs t [] items) as [items'| |]; [|done|done].
  rewrite !ret_bind. cbn [for_each].
  replace ((pre ++ w ++ "("%char :: b ++ [")"%char]) ++ seg_cut gs t)
    with ((pre ++ w) ++ "("%char :: b ++ ")"%char :: seg_cut gs t).
  2:{ rewrite <- !app_assoc. simpl. rewrite <- app_assoc. done. }
  replace (len pre + len w) with (len (pre ++ w)) by apply len_app.
  rewrite excise_span. rewrite app_nil_r.
  destruct (key_after (seg_cut gs t)) as [k| |]; [|done|done].
  destruct (eval_dict b) as [d| |]; [|done|done].
  rewrite !ret_bind. by rewrite <- app_assoc.
Qed.

Lemma level_body_seg L gs t items st :
  seg_ok L 0 gs t ->
  exists st',
    level_body (seg_text gs t, items, st) L
    = items' ← seg_table gs t [] items; Ret (seg_cut gs t, items', st').
Proof.
  intros Hok. unfold level_body, enumerate.
  destruct (scan_seg L t gs 0 0 (mk_scan 0 st []) eq_refl Hok)
    as (c' & st' & ->).
  rewrite ret_bind. cbn [pairs app].
  pose proof (excise_seg t gs [] items) as H.
  change (len []) with 0 in H. cbn [app] in H.
  eexists. rewrite H.
  destruct (seg_table gs t [] items) as [items'| |]; simpl; reflexivity.
Qed.

(** *** Segments side by side *)

Lemma seg_text_tail gs t1 t2 : seg_text gs (t1 ++ t2) = seg_text gs t1 ++ t2.
Proof.
  induction gs as [|[w b] gs IH]; simpl; [done|].
  rewrite IH, <- !app_assoc. simpl. by rewrite <- app_assoc.
Qed.

Lemma seg_text_app gs1 gs2 t :
  seg_text (gs1 ++ gs2) t = seg_text gs1 (seg_text gs2 t).
Proof. induction gs1 as [|[w b] gs1 IH]; simpl; [done|]. by rewrite IH. Qed.

Lemma seg_cut_tail gs t1 t2 : seg_cut gs (t1 ++ t2) = seg_cut gs t1 ++ t2.
Proof.
  induction gs as [|[w b] gs IH]; simpl; [done|]. by rewrite IH, <- app_assoc.
Qed.

Lemma seg_cut_app gs1 gs2 t :
  seg_cut (gs1 ++ gs2) t = seg_cut gs1 (seg_cut gs2 t).
Proof. induction gs1 as [|[w b] gs1 IH]; simpl; [done|]. by rewrite IH. Qed.

Lemma seg_text_join gs1 t1 w b gs2 t2 :
  seg_text (gs1 ++ (t1 ++ w, b) :: gs2) t2
  = seg_text gs1 t1 ++ seg_text ((w, b) :: gs2) t2.
Proof.
  rewrite seg_text_app. cbn [seg_text]. by rewrite <- app_assoc, seg_text_tail.
Qed.

Lemma seg_cut_join gs1 t1 w b gs2 t2 :
  seg_cut (gs1 ++ (t1 ++ w, b) :: gs2) t2
  = seg_cut gs1 t1 ++ seg_cut ((w, b) :: gs2) t2.
Proof.
  rewrite seg_cut_app. cbn [seg_cut]. by rewrite <- app_assoc, seg_cut_tail.
Qed.

Lemma net_cons c x w : net c (x :: w) = net (step_level c x) w.
Proof. done. Qed.

Lemma net_group c b r :
  plain b -> net c ("("%char :: b ++ ")"%char :: r) = net c r.
Proof.
  intros Hb. rewrite net_cons, net_app, (net_plain _ b), net_cons by done.
  f_equal. unfold step_level. simpl. lia.
Qed.

Lemma seg_ok_lt L c gs t : seg_ok L c gs t -> c < L.
Proof.
  destruct gs as [|[w b] gs]; simpl.
  - pose proof (peak_ge c t). lia.
  - pose proof (peak_ge c w). lia.
Qed.

(** The level at the end of a segmented string. *)
Lemma seg_ok_tail L t1 t2 gs : forall c,
  seg_ok L c gs t1 -> peak (net c (seg_text gs t1)) t2 < L ->
  seg_ok L c gs (t1 ++ t2).
Proof.
  induction gs as [|[w b] gs IH]; intros c; simpl.
  - intros H1 H2. rewrite peak_app. lia.
  - intros (Hw & Hn & Hb & Hok) H2. do 3 (split; [done|]).
    apply IH; [done|]. by rewrite net_app, net_group, Hn in H2.
Qed.

Lemma seg_ok_app L t1 w b gs2 t2 gs1 : forall c,
  seg_ok L c gs1 t1 ->
  seg_ok L (net c (seg_text gs1 t1)) ((w, b) :: gs2) t2 ->
  seg_ok L c (gs1 ++ (t1 ++ w, b) :: gs2) t2.
Proof.
  induction gs1 as [|[w1 b1] gs1 IH]; intros c; simpl.
  - intros H1 (Hw & Hn & Hb & Hok). rewrite peak_app, net_app.
    split; [lia|]. by do 2 (split; [done|]).
  - intros (Hw1 & Hn1 & Hb1 & Hok1) H2. do 3 (split; [done|]).
    apply IH; [done|]. by rewrite net_app, net_group, Hn1 in H2.
Qed.

Lemma seg_table_tail rest items t1 t2 gs :
  seg_table gs (t1 ++ t2) rest items = seg_table gs t1 (t2 ++ rest) items.
Proof.
  induction gs as [|[w b] gs IH]; simpl; [done|].
  by rewrite IH, seg_cut_tail, <- app_assoc.
Qed.

Lemma seg_table_app rest items items1 items2 t1 w b gs2 t2 gs1 :
  seg_table ((w, b) :: gs2) t2 rest items = Ret items1 ->
  seg_table gs1 t1 (seg_cut ((w, b) :: gs2) t2 ++ rest) items1 = Ret items2 ->
  seg_table (gs1 ++ (t1 ++ w, b) :: gs2) t2 rest items = Ret items2.
Proof.
  intros H1. revert items2.
  induction gs1 as [|[w1 b1] gs1 IH]; intros items2 H2.
  - simpl in H2. inversion H2; subst. exact H1.
  - cbn [seg_table app] in *.
    apply bind_Ret in H2 as (it & Hit & H2).
    rewrite (IH _ Hit), ret_bind.
    by rewrite seg_cut_join, <- app_assoc.
Qed.

(** A segmented string: its groups with the texts before them, and its
    last text. *)
Abbreviation segs := (list (pystr * pystr) * pystr)%type.

Definition text_of (x : segs) : pystr := seg_text x.1 x.2.
Definition cut_of (x : segs) : pystr := seg_cut x.1 x.2.

(** Two segmented strings side by side. *)
Definition seg_app (x y : segs) : segs :=
  match y.1 with
  | [] => (x.1, x.2 ++ y.2)
  | (w, b) :: gs => (x.1 ++ (x.2 ++ w, b) :: gs, y.2)
  end.

(** Segmented strings separated by commas. *)
Fixpoint join_segs (l : list segs) : segs :=
  match l with
  | [] => ([], [])
  | [x] => x
  | x :: l' => seg_app x (seg_app ([], [","%char]) (join_segs l'))
  end.

Lemma text_of_app x y : text_of (seg_app x y) = text_of x ++ text_of y.
Proof.
  destruct x as [gs1 t1], y as [[|[w b] gs2] t2]; unfold seg_app, text_of; simpl.
  - apply seg_text_tail.
  - apply seg_text_join.
Qed.

Lemma cut_of_app x y : cut_of (seg_app x y) = cut_of x ++ cut_of y.
Proof.
  destruct x as [gs1 t1], y as [[|[w b] gs2] t2]; unfold seg_app, cut_of; simpl.
  - apply seg_cut_tail.
  - apply seg_cut_join.
Qed.

Lemma seg_ok_seg_app L c x y :
  seg_ok L c x.1 x.2 -> seg_ok L (net c (text_of x)) y.1 y.2 ->
  seg_ok L c (seg_app x y).1 (seg_app x y).2.
Proof.
  destruct x as [gs1 t1], y as [[|[w b] gs2] t2]; unfold seg_app, text_of; simpl.
  - apply seg_ok_tail.
  - apply seg_ok_app.
Qed.

Lemma seg_table_seg_app rest items items1 items2 x y :
  seg_table y.1 y.2 rest items = Ret items1 ->
  seg_table x.1 x.2 (cut_of y ++ rest) items1 = Ret items2 ->
  seg_table (seg_app x y).1 (seg_app x y).2 rest items = Ret items2.
Proof.
  destruct x as [gs1 t1], y as [[|[w b] gs2] t2]; unfold seg_app, cut_of.
  - cbn [fst snd seg_table seg_cut]. intros [= <-].
    by rewrite seg_table_tail.
  - cbn [fst snd]. apply seg_table_app.
Qed.

Lemma net_text_app c x y :
  net c (text_of (seg_app x y)) = net (net c (text_of x)) (text_of y).
Proof. by rewrite text_of_app, net_app. Qed.

Lemma text_of_join l : text_of (join_segs l) = join (text_of <$> l).
Proof.
  induction l as [|x [|y l] IH]; [done|done|].
  change (join_segs (x :: y :: l))
    with (seg_app x (seg_app ([], [","%char]) (join_segs (y :: l)))).
  rewrite !text_of_app, IH. done.
Qed.

Lemma cut_of_join l : cut_of (join_segs l) = join (cut_of <$> l).
Proof.
  induction l as [|x [|y l] IH]; [done|done|].
  change (join_segs (x :: y :: l))
    with (seg_app x (seg_app ([], [","%char]) (join_segs (y :: l)))).
  rewrite !cut_of_app, IH. done.
Qed.

(** Balanced pieces, each fine at level [c], are fine side by side. *)
Lemma seg_ok_join L c l :
  c < L ->
  Forall (fun x => seg_ok L c x.1 x.2 /\ net c (text_of x) = c) l ->
  seg_ok L c (join_segs l).1 (join_segs l).2
  /\ net c (text_of (join_segs l)) = c.
Proof.
  intros Hc. induction l as [|x [|y l] IH]; intros Hl.
  - simpl. split; [lia|done].
  - by apply Forall_cons in Hl as [? _].
  - apply Forall_cons in Hl as [[Hx Hnx] Hl]. specialize (IH Hl) as [IH1 IH2].
    change (join_segs (x :: y :: l))
      with (seg_app x (seg_app ([], [","%char]) (join_segs (y :: l)))).
    split.
    + apply seg_ok_seg_app; [done|]. rewrite Hnx.
      apply seg_ok_seg_app; [cbn; unfold step_level; simpl; lia|]. exact IH1.
    + rewrite !net_text_app, Hnx. exact IH2.
Qed.

(** ** Literals *)

(** The characters of the literals of the fragment. *)
Definition numeric (c : ascii) : bool :=
  is_digit c || Ascii.eqb c "-" || Ascii.eqb c ".".

Lemma is_digit_range c :
  is_digit c = true -> (48 <= nat_of_ascii c <= 57)%nat.
Proof.
  unfold is_digit. intros [H1 H2]%andb_true_iff.
  apply Nat.leb_le in H1, H2. lia.
Qed.

Lemma numeric_cases c :
  numeric c = true -> is_digit c = true \/ c = "-"%char \/ c = "."%char.
Proof.
  unfold numeric. intros [[H|H]%orb_true_iff|H]%orb_true_iff; auto.
  - apply Ascii.eqb_eq in H. auto.
  - apply Ascii.eqb_eq in H. auto.
Qed.

Lemma numeric_not c x :
  numeric c = true -> numeric x = false -> c ≠ x.
Proof. intros H1 H2 ->. congruence. Qed.

Lemma numeric_not_space c : numeric c = true -> is_space c = false.
Proof.
  intros [H|[->| ->]]%numeric_cases; [|done|done].
  apply is_digit_range in H. unfold is_space.
  apply orb_false_iff. split.
  - apply Nat.eqb_neq. lia.
  - apply andb_false_iff. right. apply Nat.leb_gt. lia.
Qed.

Lemma numeric_fresh x s :
  numeric x = false -> Forall (fun c => numeric c = true) s -> x ∉ s.
Proof.
  intros Hx Hs Hin. rewrite Forall_forall in Hs.
  specialize (Hs x Hin). congruence.
Qed.

Lemma all_digits_numeric s :
  all_digits s = true -> Forall (fun c => numeric c = true) s.
Proof.
  unfold all_digits. rewrite forallb_forall, Forall_forall.
  intros H c Hc%list_elem_of_In. unfold numeric. by rewrite (H c Hc).
Qed.

Lemma dec_literal_Some ds z :
  dec_literal ds = Some z ->
  ds ≠ [] /\ all_digits ds = true /\ z = digits_val ds.
Proof.
  unfold dec_literal. destruct ds as [|c r]; [done|].
  destruct (Ascii.eqb c "0" && negb (bool_decide (r = []))); [done|].
  destruct (all_digits (c :: r)) eqn:E; [|done].
  by intros [= <-].
Qed.

Lemma int_literal_numeric s z :
  int_literal s = Some z -> s ≠ [] /\ Forall (fun c => numeric c = true) s.
Proof.
  unfold int_literal. destruct s as [|c ds]; [done|].
  destruct (Ascii.eqb c "-") eqn:E.
  - apply Ascii.eqb_eq in E as ->.
    destruct (dec_literal ds) as [z'|] eqn:Ed; [|done].
    apply dec_literal_Some in Ed as (_ & Hd & _). intros _.
    split; [done|]. constructor; [done|]. by apply all_digits_numeric.
  - intros (_ & Hd & _)%dec_literal_Some.
    split; [done|]. by apply all_digits_numeric.
Qed.

(** [c.join(l)] *)
Fixpoint unsplit (c : ascii) (l : list pystr) : pystr :=
  match l with
  | [] => []
  | [w] => w
  | w :: l' => w ++ c :: unsplit c l'
  end.

Lemma split_on_cons c x s :
  split_on c (x :: s)
  = if Ascii.eqb x c then [] :: split_on c s
    else match split_on c s with
         | w :: ws => (x :: w) :: ws
         | [] => [[x]]
         end.
Proof. done. Qed.

Lemma split_on_not_nil c s : split_on c s ≠ [].
Proof.
  induction s as [|x s IH]; [done|]. rewrite split_on_cons.
  destruct (Ascii.eqb x c); [done|]. by destruct (split_on c s).
Qed.

Lemma unsplit_split c s : unsplit c (split_on c s) = s.
Proof.
  induction s as [|x s IH]; [done|]. rewrite split_on_cons.
  pose proof (split_on_not_nil c s) as Hne.
  destruct (Ascii.eqb x c) eqn:E.
  - apply Ascii.eqb_eq in E as ->.
    destruct (split_on c s) as [|w ws]; [done|]. simpl in *. by rewrite IH.
  - destruct (split_on c s) as [|w [|w' ws]]; [done| |]; simpl in *;
      by rewrite <- IH.
Qed.

Lemma split_on_fresh c w : c ∉ w -> split_on c w = [w].
Proof.
  induction w as [|x w IH]; [done|].
  intros [Hx Hw]%not_elem_of_cons. rewrite split_on_cons, (IH Hw).
  destruct (Ascii.eqb_spec x c); [by subst|done].
Qed.

Lemma split_on_app c w r :
  c ∉ w -> split_on c (w ++ c :: r) = w :: split_on c r.
Proof.
  induction w as [|x w IH].
  - intros _. simpl. by rewrite Ascii.eqb_refl.
  - intros [Hx Hw]%not_elem_of_cons.
    change ((x :: w) ++ c :: r) with (x :: (w ++ c :: r)).
    rewrite split_on_cons, (IH Hw).
    destruct (Ascii.eqb_spec x c); [by subst|done].
Qed.

Lemma point_literal_numeric s q :
  point_literal s = Some q -> Forall (fun c => numeric c = true) s.
Proof.
  unfold point_literal. pose proof (unsplit_split "." s) as Hs.
  destruct (split_on "." s) as [|w [|f [|g l]]]; try done.
  destruct (negb (bool_decide (w = [])) && negb (bool_decide (f = []))
            && all_digits w && all_digits f) eqn:E; [|done].
  apply andb_true_iff in E as [[_ Hw]%andb_true_iff Hf].
  intros _. rewrite <- Hs. simpl. apply Forall_app. split.
  - by apply all_digits_numeric.
  - constructor; [done|]. by apply all_digits_numeric.
Qed.

Lemma unsigned_literal_numeric s q :
  unsigned_literal s = Some q -> Forall (fun c => numeric c = true) s.
Proof.
  unfold unsigned_literal. destruct (point_literal s) as [q'|] eqn:E.
  - intros _. by eapply point_literal_numeric.
  - destruct (dec_literal s) as [z|] eqn:Ed; [|done].
    apply dec_literal_Some in Ed as (_ & Hd & _). intros _.
    by apply all_digits_numeric.
Qed.

Lemma num_literal_numeric s q :
  num_literal s = Some q -> Forall (fun c => numeric c = true) s.
Proof.
  unfold num_literal. destruct s as [|c t]; [done|].
  destruct (Ascii.eqb c "-") eqn:E.
  - apply Ascii.eqb_eq in E as ->.
    destruct (unsigned_literal t) as [q'|] eqn:Eu; [|done].
    intros _. constructor; [done|]. by eapply unsigned_literal_numeric.
  - apply unsigned_literal_numeric.
Qed.

Lemma lstrip_head c s : is_space c = false -> lstrip (c :: s) = c :: s.
Proof. intros H. simpl. by rewrite H. Qed.

Lemma strip_numeric s :
  Forall (fun c => numeric c = true) s -> strip s = s.
Proof.
  intros Hs. unfold strip.
  assert (forall t, Forall (fun c => numeric c = true) t -> lstrip t = t) as Hl.
  { intros [|c t] Ht; [done|]. apply Forall_cons in Ht as [Hc _].
    by apply lstrip_head, numeric_not_space. }
  rewrite (Hl s Hs), Hl, rev_involutive; [done|].
  apply Forall_forall. intros c Hc%list_elem_of_In%in_rev%list_elem_of_In.
  rewrite Forall_forall in Hs. by apply Hs.
Qed.

Lemma unsigned_int_digits ds :
  ds ≠ [] -> all_digits ds = true -> unsigned_int ds = Ret (digits_val ds).
Proof. intros Hne Hd. unfold unsigned_int. destruct ds; [done|]. by rewrite Hd. Qed.

(** [int] reads an integer literal of the fragment as [eval] does. *)
Lemma py_int_literal s z : int_literal s = Some z -> py_int s = Ret z.
Proof.
  intros H. pose proof (int_literal_numeric s z H) as [_ Hn].
  unfold py_int. rewrite (strip_numeric s Hn).
  unfold int_literal in H. destruct s as [|c ds]; [done|].
  destruct (Ascii.eqb c "-") eqn:E.
  - destruct (dec_literal ds) as [z'|] eqn:Ed; [|done].
    apply dec_literal_Some in Ed as (Hne & Hd & ->).
    rewrite unsigned_int_digits by done. simpl in *. congruence.
  - apply dec_literal_Some in H as (Hne & Hd & ->).
    assert (Ascii.eqb c "+" = false) as ->.
    { apply Ascii.eqb_neq. intros ->. done. }
    by apply unsigned_int_digits.
Qed.

Lemma literals_ok_values e :
  literals_ok e ->
  int_literal (id_text e) = Some (id_of e)
  /\ num_literal (height_text e) = Some (height_of e).
Proof.
  intros [[z Hz] [q Hq]]. unfold id_of, height_of. by rewrite Hz, Hq.
Qed.

Lemma literals_ok_numeric e :
  literals_ok e ->
  id_text e ≠ []
  /\ Forall (fun c => numeric c = true) (id_text e)
  /\ Forall (fun c => numeric c = true) (height_text e).
Proof.
  intros [[z Hz] [q Hq]].
  destruct (int_literal_numeric _ _ Hz). split; [done|]. split; [done|].
  by eapply num_literal_numeric.
Qed.

Lemma plain_numeric s : Forall (fun c => numeric c = true) s -> plain s.
Proof. intros H. split; by apply numeric_fresh. Qed.

Lemma plain_header e : literals_ok e -> plain (header e).
Proof.
  intros (_ & Hi & Hh)%literals_ok_numeric. unfold header.
  apply plain_app. split; [by apply plain_numeric|].
  apply plain_cons. split; [done|]. by apply plain_numeric.
Qed.

Lemma entry_literal_header e :
  literals_ok e ->
  entry_literal (header e) = Some (id_of e, VNum (height_of e)).
Proof.
  intros Hok. destruct (literals_ok_values e Hok) as [Hz Hq].
  destruct (literals_ok_numeric e Hok) as (_ & Hi & Hh).
  unfold entry_literal, header.
  rewrite split_on_app, split_on_fresh by (by apply numeric_fresh).
  by rewrite Hz, Hq.
Qed.

Lemma comma_not_in_header e : literals_ok e -> ","%char ∉ header e.
Proof.
  intros (_ & Hi & Hh)%literals_ok_numeric. unfold header.
  rewrite not_elem_of_app, not_elem_of_cons.
  split; [by apply numeric_fresh|]. split; [done|]. by apply numeric_fresh.
Qed.

Lemma split_on_join_headers cs :
  cs ≠ [] -> Forall literals_ok cs ->
  split_on "," (join (header <$> cs)) = header <$> cs.
Proof.
  induction cs as [|c [|c' cs] IH]; intros Hne Hok; [done| |].
  - apply Forall_cons in Hok as [Hc _]. simpl.
    by apply split_on_fresh, comma_not_in_header.
  - apply Forall_cons in Hok as [Hc Hok].
    change (join (header <$> c :: c' :: cs))
      with (header c ++ ","%char :: join (header <$> c' :: cs)).
    rewrite split_on_app by (by apply comma_not_in_header).
    by rewrite IH.
Qed.

(** The flat dictionary of a group: its entries with their heights. *)
Definition flat_dict (cs : list entry) : dict :=
  (fun c => (id_of c, VNum (height_of c))) <$> cs.

Lemma mapM_cons {A B} (f : A -> option B) x l :
  mapM f (x :: l) = y ← f x; k ← mapM f l; Some (y :: k).
Proof. done. Qed.

Lemma mapM_entry_literal cs :
  Forall literals_ok cs ->
  mapM entry_literal (header <$> cs) = Some (flat_dict cs).
Proof.
  induction cs as [|c cs IH]; intros Hok; [done|].
  apply Forall_cons in Hok as [Hc Hok].
  rewrite fmap_cons, mapM_cons, entry_literal_header, IH by done. done.
Qed.

Lemma dict_set_fresh d k v :
  k ∉ d.*1 -> dict_set d k v = d ++ [(k, v)].
Proof.
  induction d as [|[k' v'] d IH]; [done|].
  intros [Hk Hd]%not_elem_of_cons. simpl in *.
  destruct (decide (k' = k)); [congruence|]. by rewrite IH.
Qed.

Lemma fold_dict_set_distinct (es : dict) : forall d0 : dict,
  NoDup (d0.*1 ++ es.*1) ->
  fold_left (fun d e => dict_set d e.1 e.2) es d0 = d0 ++ es.
Proof.
  induction es as [|[k v] es IH]; intros d0 Hnd; simpl.
  - by rewrite app_nil_r.
  - simpl in Hnd. rewrite dict_set_fresh.
    + rewrite IH, <- app_assoc; [done|].
      rewrite fmap_app, <- app_assoc. done.
    + apply NoDup_app in Hnd as (_ & Hdis & _).
      intros Hin. apply (Hdis k Hin). apply list_elem_of_here.
Qed.

(** [eval] of the entries of a group whose groups are cut out. *)
Lemma eval_dict_flat cs :
  Forall literals_ok cs -> NoDup (id_of <$> cs) ->
  eval_dict (join (header <$> cs)) = Ret (flat_dict cs).
Proof.
  intros Hok Hnd. destruct cs as [|c cs]; [done|].
  unfold eval_dict.
  rewrite split_on_join_headers, mapM_entry_literal by done.
  destruct (join (header <$> c :: cs)) as [|x text] eqn:E.
  - exfalso. apply Forall_cons in Hok as [Hc _].
    apply literals_ok_numeric in Hc as (Hne & _).
    destruct cs; simpl in E; unfold header in E;
      by destruct (id_text c).
  - assert (x <> ":"%char) as Hx.
    { apply Forall_cons in Hok as [Hc _].
      apply literals_ok_numeric in Hc as (Hne & Hi & _).
      assert (exists r, id_text c = x :: r) as [r Hr].
      { destruct cs; simpl in E; unfold header in E;
          destruct (id_text c) as [|y r]; try done;
          simpl in E; inversion E; eauto. }
      rewrite Hr in Hi. apply Forall_cons in Hi as [Hi _].
      intros ->. done. }
    apply Ascii.eqb_neq in Hx. rewrite Hx.
    f_equal. rewrite fold_dict_set_distinct; [done|].
    simpl. unfold flat_dict. rewrite <- list_fmap_compose. exact Hnd.
Qed.

Lemma index_of_app_fresh c w r :
  c ∉ w -> index_of c (w ++ c :: r) = Some (length w).
Proof.
  induction w as [|x w IH]; simpl.
  - intros _. by rewrite Ascii.eqb_refl.
  - intros [Hx Hw]%not_elem_of_cons. rewrite (IH Hw).
    destruct (Ascii.eqb_spec x c); [by subst|done].
Qed.

Lemma key_after_header e rest :
  literals_ok e -> key_after (header e ++ rest) = Ret (Id (id_of e)).
Proof.
  intros Hok. destruct (literals_ok_values e Hok) as [Hz _].
  destruct (literals_ok_numeric e Hok) as (Hne & Hi & _).
  unfold key_after, key_text, header. rewrite <- app_assoc. simpl.
  rewrite index_of_app_fresh by (by apply numeric_fresh).
  rewrite take_app_length.
  destruct (id_text e) as [|x r] eqn:E; [done|].
  by rewrite (py_int_literal _ _ Hz).
Qed.

Lemma key_after_term term :
  (length term <= 1)%nat -> key_after term = Ret Trunk.
Proof.
  intros H. destruct term as [|x [|y t]]; [done| |simpl in H; lia].
  unfold key_after, key_text. simpl. by destruct (Ascii.eqb x ":").
Qed.

(** ** The document level by level *)

(** A group: its entries between parentheses, then what follows. *)
Definition grp (kids : list pystr) (suffix : pystr) : pystr :=
  "("%char :: join kids ++ ")"%char :: suffix.

(** The same group cut at the spans that lie [S m'] groups deep: the
    group itself when [m'] is 0, spans inside its entries otherwise. *)
Definition sgrp (m' : nat) (flat : pystr) (kids : list segs) (suffix : pystr)
  : segs :=
  match m' with
  | O => ([([], flat)], suffix)
  | S _ => seg_app ([], ["("%char])
             (seg_app (join_segs kids) ([], ")"%char :: suffix))
  end.

(** An entry printed with the groups more than [m] deep cut out. *)
Fixpoint pr (m : nat) (e : entry) {struct m} : pystr :=
  match e with
  | ELeaf _ _ => header e
  | EBranch cs _ _ =>
      match m with
      | O => header e
      | S m' => grp (pr m' <$> cs) (header e)
      end
  end.

(** The same text cut at the spans that lie [m] groups deep. *)
Fixpoint sg (m : nat) (e : entry) {struct m} : segs :=
  match e with
  | ELeaf _ _ => ([], header e)
  | EBranch cs _ _ =>
      match m with
      | O => ([], header e)
      | S m' => sgrp m' (join (header <$> cs)) (sg m' <$> cs) (header e)
      end
  end.

Definition pr_doc (m : nat) (roots : list entry) (term : pystr) : pystr :=
  match m with
  | O => term
  | S m' => grp (pr m' <$> roots) term
  end.

Definition sg_doc (m : nat) (roots : list entry) (term : pystr) : segs :=
  match m with
  | O => ([], term)
  | S m' => sgrp m' (join (header <$> roots)) (sg m' <$> roots) term
  end.

Lemma pr_0 e : pr 0 e = header e.
Proof. by destruct e. Qed.

Lemma text_sgrp m' flat kids suffix :
  (m' = O -> flat = join (text_of <$> kids)) ->
  text_of (sgrp m' flat kids suffix) = grp (text_of <$> kids) suffix.
Proof.
  intros Hflat. destruct m' as [|k]; unfold sgrp, grp.
  - rewrite Hflat by done. done.
  - rewrite !text_of_app, text_of_join. unfold text_of at 1 3. simpl.
    done.
Qed.

Lemma cut_sgrp m' flat kids suffix :
  cut_of (sgrp m' flat kids suffix)
  = match m' with
    | O => suffix
    | S _ => grp (cut_of <$> kids) suffix
    end.
Proof.
  destruct m' as [|k]; unfold sgrp, grp; [done|].
  rewrite !cut_of_app, cut_of_join. unfold cut_of at 1 3. simpl. done.
Qed.

Lemma peak_single c x : peak c [x] = Z.max c (step_level c x).
Proof. done. Qed.

Lemma ok_sgrp L m' flat kids suffix :
  plain suffix -> (m' = O -> plain flat) ->
  (m' ≠ O ->
   Forall (fun x => seg_ok L (L - Z.of_nat m') x.1 x.2
                    /\ net (L - Z.of_nat m') (text_of x) = L - Z.of_nat m')
          kids) ->
  let x := sgrp m' flat kids suffix in
  seg_ok L (L - Z.of_nat m' - 1) x.1 x.2
  /\ net (L - Z.of_nat m' - 1) (text_of x) = L - Z.of_nat m' - 1.
Proof.
  intros Hs Hflat Hkids. destruct m' as [|k].
  - specialize (Hflat eq_refl). cbv zeta. cbn [sgrp fst snd seg_ok].
    replace (L - Z.of_nat 0 - 1) with (L - 1) by lia. split.
    + split; [simpl; lia|]. split; [done|]. split; [done|].
      rewrite peak_plain by done. lia.
    + unfold text_of. cbn [seg_text fst snd app].
      rewrite net_group, net_plain by done. done.
  - specialize (Hkids ltac:(done)).
    set (c := L - Z.of_nat (S k) - 1).
    replace (L - Z.of_nat (S k)) with (c + 1) in Hkids by lia.
    assert (c + 1 < L) as Hc by lia.
    destruct (seg_ok_join L (c + 1) kids Hc Hkids) as [Hj Hnj].
    assert (net c (text_of ([], ["("%char])) = c + 1) as Hopen by done.
    assert (net (c + 1) (text_of ([], ")"%char :: suffix)) = c) as Hclose.
    { unfold text_of. cbn [seg_text fst snd].
      rewrite net_cons, net_plain by done.
      unfold step_level. simpl. lia. }
    cbv zeta. cbn [sgrp]. split.
    + apply seg_ok_seg_app.
      * simpl. unfold step_level. simpl. lia.
      * rewrite Hopen. apply seg_ok_seg_app; [done|]. rewrite Hnj.
        simpl. rewrite peak_plain by done. unfold step_level. simpl. lia.
    + rewrite !net_text_app, Hopen, Hnj, Hclose. done.
Qed.

(** Cutting the groups of one level gives the text of the next level. *)
Lemma text_sg m : forall e, text_of (sg m e) = pr m e.
Proof.
  induction m as [|m IH]; intros [i h|cs i h]; try done.
  cbn [sg pr]. rewrite text_sgrp.
  - f_equal. rewrite <- list_fmap_compose. apply list_fmap_ext.
    intros ???. apply IH.
  - intros ->. f_equal. rewrite <- list_fmap_compose. apply list_fmap_ext.
    intros ? c ?. simpl. by destruct c.
Qed.

Lemma cut_sg m : forall e, cut_of (sg (S m) e) = pr m e.
Proof.
  induction m as [|m IH]; intros [i h|cs i h]; try done.
  cbn [sg pr]. rewrite cut_sgrp.
  f_equal. rewrite <- list_fmap_compose. apply list_fmap_ext.
  intros ???. apply IH.
Qed.

Lemma text_sg_doc m roots term : text_of (sg_doc m roots term) = pr_doc m roots term.
Proof.
  destruct m as [|m]; [done|]. cbn [sg_doc pr_doc]. rewrite text_sgrp.
  - f_equal. rewrite <- list_fmap_compose. apply list_fmap_ext.
    intros ???. apply text_sg.
  - intros ->. f_equal. rewrite <- list_fmap_compose. apply list_fmap_ext.
    intros ? c ?. simpl. by destruct c.
Qed.

Lemma cut_sg_doc m roots term :
  cut_of (sg_doc (S m) roots term) = pr_doc m roots term.
Proof.
  cbn [sg_doc]. rewrite cut_sgrp. destruct m as [|m]; [done|].
  cbn [pr_doc]. f_equal. rewrite <- list_fmap_compose. apply list_fmap_ext.
  intros ???. apply cut_sg.
Qed.

(** *** Entries with good literals and distinct identities *)

Lemma entries_of_unfold e : entries_of e = e :: (subs e ≫= entries_of).
Proof. destruct e as [i h|cs i h]; simpl; f_equal. Qed.

Lemma entry_in_entries e : e ∈ entries_of e.
Proof. rewrite entries_of_unfold. apply list_elem_of_here. Qed.

Lemma child_in_entries c cs : c ∈ cs -> c ∈ cs ≫= entries_of.
Proof.
  intros Hc. apply list_elem_of_bind. exists c. split; [|done].
  apply entry_in_entries.
Qed.

Definition tidy (l : list entry) : Prop :=
  Forall literals_ok (l ≫= entries_of) /\ NoDup (id_of <$> (l ≫= entries_of)).

Lemma tidy_cons e l : tidy (e :: l) -> tidy [e] /\ tidy l.
Proof.
  unfold tidy. rewrite !bind_cons, !fmap_app. simpl. rewrite !app_nil_r.
  intros [[H1 H2]%Forall_app (H3 & _ & H4)%NoDup_app]. done.
Qed.

Lemma tidy_subs e : tidy [e] -> literals_ok e /\ tidy (subs e).
Proof.
  unfold tidy. rewrite !bind_cons. simpl. rewrite !app_nil_r.
  rewrite entries_of_unfold, fmap_cons.
  intros [[H1 H2]%Forall_cons [_ H3]%NoDup_cons]. done.
Qed.

Lemma tidy_literals l : tidy l -> Forall literals_ok l.
Proof.
  intros [H _]. rewrite Forall_forall in H. apply Forall_forall.
  intros c Hc. by apply H, child_in_entries.
Qed.

Lemma tidy_distinct l : tidy l -> NoDup (id_of <$> l).
Proof.
  induction l as [|e l IH]; intros Ht; [constructor|].
  pose proof (tidy_cons e l Ht) as [_ Hl].
  destruct Ht as [_ Hnd]. rewrite bind_cons, fmap_app in Hnd.
  apply NoDup_app in Hnd as (_ & Hdis & _).
  rewrite fmap_cons. constructor; [|by apply IH].
  intros (c & Hid & Hc)%list_elem_of_fmap.
  apply (Hdis (id_of e)).
  - apply list_elem_of_fmap_2, entry_in_entries.
  - rewrite Hid. by apply list_elem_of_fmap_2, child_in_entries.
Qed.

Lemma tidy_each l : tidy l -> Forall (fun e => tidy [e]) l.
Proof.
  induction l as [|e l IH]; intros Ht; [constructor|].
  destruct (tidy_cons e l Ht). constructor; auto.
Qed.

Lemma plain_join l : Forall plain l -> plain (join l).
Proof.
  induction l as [|w [|w' l] IH]; intros Hl.
  - apply plain_nil.
  - by apply Forall_cons in Hl as [? _].
  - apply Forall_cons in Hl as [Hw Hl].
    change (join (w :: w' :: l)) with (w ++ ","%char :: join (w' :: l)).
    apply plain_app. split; [done|]. apply plain_cons. split; [done|]. auto.
Qed.

Lemma plain_flat cs : Forall literals_ok cs -> plain (join (header <$> cs)).
Proof.
  intros H. apply plain_join, Forall_fmap.
  eapply Forall_impl; [exact H|]. intros c. apply plain_header.
Qed.

(** The spans that lie [m] groups deep in an entry are at level [L] when
    the entry starts at level [L - m]. *)
Lemma ok_sg L m : forall e,
  tidy [e] -> (1 <= m)%nat ->
  seg_ok L (L - Z.of_nat m) (sg m e).1 (sg m e).2
  /\ net (L - Z.of_nat m) (text_of (sg m e)) = L - Z.of_nat m.
Proof.
  induction m as [|m IH]; intros e Ht Hm; [lia|].
  destruct (tidy_subs e Ht) as [Hlit Hsubs].
  pose proof (plain_header e Hlit) as Hh.
  destruct e as [i h|cs i h].
  - cbn [sg fst snd seg_ok]. unfold text_of. cbn [seg_text fst snd].
    rewrite peak_plain, net_plain by done. lia.
  - cbn [sg]. simpl in Hsubs.
    replace (L - Z.of_nat (S m)) with (L - Z.of_nat m - 1) by lia.
    apply ok_sgrp; [done| |].
    + intros _. by apply plain_flat, tidy_literals.
    + intros Hne. apply Forall_fmap.
      eapply Forall_impl; [apply (tidy_each _ Hsubs)|].
      intros c Hc. apply IH; [done|lia].
Qed.

Lemma ok_sg_doc m roots term :
  tidy roots -> plain term -> (1 <= m)%nat ->
  seg_ok (Z.of_nat m) 0 (sg_doc m roots term).1 (sg_doc m roots term).2.
Proof.
  intros Ht Hterm Hm. destruct m as [|m]; [lia|]. cbn [sg_doc].
  replace 0 with (Z.of_nat (S m) - Z.of_nat m - 1) by lia.
  apply ok_sgrp; [done| |].
  - intros _. by apply plain_flat, tidy_literals.
  - intros Hne. apply Forall_fmap.
    eapply Forall_impl; [apply (tidy_each _ Ht)|].
    intros c Hc. apply ok_sg; [done|lia].
Qed.

(** *** What one level adds to [items] *)

(** Insertion of bindings, last binding first. *)
Definition ins (items : gmap key dict) (bs : list (key * dict))
  : gmap key dict :=
  foldr (fun kd acc => <[kd.1 := kd.2]> acc) items bs.

(** The groups that lie [m] groups deep in an entry. *)
Fixpoint bindings (m : nat) (e : entry) {struct m} : list (key * dict) :=
  match e with
  | ELeaf _ _ => []
  | EBranch cs _ _ =>
      match m with
      | O => []
      | S m' =>
          match m' with
          | O => [(Id (id_of e), flat_dict cs)]
          | S _ => c ← cs; bindings m' c
          end
      end
  end.

Definition doc_bindings (m : nat) (roots : list entry) : list (key * dict) :=
  match m with
  | O => []
  | S m' =>
      match m' with
      | O => [(Trunk, flat_dict roots)]
      | S _ => c ← roots; bindings m' c
      end
  end.

Lemma ins_app items bs1 bs2 : ins items (bs1 ++ bs2) = ins (ins items bs2) bs1.
Proof. unfold ins. apply foldr_app. Qed.

Lemma table_join (kids : list entry) (f : entry -> segs)
    (g : entry -> list (key * dict)) :
  Forall (fun c => forall rest items,
              seg_table (f c).1 (f c).2 rest items = Ret (ins items (g c)))
         kids ->
  forall rest items,
    seg_table (join_segs (f <$> kids)).1 (join_segs (f <$> kids)).2 rest items
    = Ret (ins items (kids ≫= g)).
Proof.
  induction kids as [|x [|y l] IH]; intros Hk rest items.
  - done.
  - apply Forall_cons in Hk as [Hx _]. simpl. rewrite app_nil_r. apply Hx.
  - apply Forall_cons in Hk as [Hx Hk]. specialize (IH Hk).
    change (join_segs (f <$> x :: y :: l))
      with (seg_app (f x) (seg_app ([], [","%char]) (join_segs (f <$> y :: l)))).
    rewrite bind_cons, ins_app.
    eapply seg_table_seg_app; [|apply Hx].
    eapply seg_table_seg_app; [apply IH|done].
Qed.

Lemma table_sgrp_group flat kids suffix rest items k d :
  key_after (suffix ++ rest) = Ret k -> eval_dict flat = Ret d ->
  let x := sgrp 0 flat kids suffix in
  seg_table x.1 x.2 rest items = Ret (<[k := d]> items).
Proof. intros Hk Hd. simpl. by rewrite Hk, Hd. Qed.

Lemma table_sgrp_inside m flat kids suffix rest items bs :
  (forall rest items,
      seg_table (join_segs kids).1 (join_segs kids).2 rest items
      = Ret (ins items bs)) ->
  let x := sgrp (S m) flat kids suffix in
  seg_table x.1 x.2 rest items = Ret (ins items bs).
Proof.
  intros Hk. cbv zeta. cbn [sgrp].
  eapply seg_table_seg_app; [|done].
  eapply seg_table_seg_app; [done|]. apply Hk.
Qed.

Lemma table_sg m : forall e rest items,
  tidy [e] -> (1 <= m)%nat ->
  seg_table (sg m e).1 (sg m e).2 rest items = Ret (ins items (bindings m e)).
Proof.
  induction m as [|m IH]; intros e rest items Ht Hm; [lia|].
  destruct (tidy_subs e Ht) as [Hlit Hsubs].
  destruct e as [i h|cs i h]; [done|]. simpl in Hsubs.
  cbn [sg bindings]. destruct m as [|m].
  - apply table_sgrp_group.
    + by apply key_after_header.
    + apply eval_dict_flat; [by apply tidy_literals|by apply tidy_distinct].
  - apply table_sgrp_inside. apply table_join.
    eapply Forall_impl; [apply (tidy_each _ Hsubs)|].
    intros c Hc rest' items'. apply IH; [done|lia].
Qed.

Lemma table_sg_doc m roots term items :
  tidy roots -> (length term <= 1)%nat -> (1 <= m)%nat ->
  seg_table (sg_doc m roots term).1 (sg_doc m roots term).2 [] items
  = Ret (ins items (doc_bindings m roots)).
Proof.
  intros Ht Hterm Hm. destruct m as [|[|m]]; [lia| |].
  - cbn [sg_doc doc_bindings]. apply table_sgrp_group.
    + rewrite app_nil_r. by apply key_after_term.
    + apply eval_dict_flat; [by apply tidy_literals|by apply tidy_distinct].
  - cbn [sg_doc doc_bindings]. apply table_sgrp_inside. apply table_join.
    eapply Forall_impl; [apply (tidy_each _ Ht)|].
    intros c Hc rest' items'. apply table_sg; [done|lia].
Qed.

(** *** The loop over the levels *)

Lemma levels_S m : levels (Z.of_nat (S m)) = Z.of_nat (S m) :: levels (Z.of_nat m).
Proof.
  unfold levels. rewrite seqZ_S, rev_app_distr. simpl. do 2 f_equal. lia.
Qed.

(** The bindings of the levels 1 to [m]. *)
Fixpoint all_bindings (m : nat) (roots : list entry) : list (key * dict) :=
  match m with
  | O => []
  | S m' => all_bindings m' roots ++ doc_bindings (S m') roots
  end.

Lemma level_body_doc m roots term items st :
  tidy roots -> plain term -> (length term <= 1)%nat ->
  exists st',
    level_body (pr_doc (S m) roots term, items, st) (Z.of_nat (S m))
    = Ret (pr_doc m roots term, ins items (doc_bindings (S m) roots), st').
Proof.
  intros Ht Hp Hl.
  pose proof (ok_sg_doc (S m) roots term Ht Hp ltac:(lia)) as Hok.
  destruct (level_body_seg _ _ _ items st Hok) as (st' & Hrun).
  exists st'.
  change (seg_text (sg_doc (S m) roots term).1 (sg_doc (S m) roots term).2)
    with (text_of (sg_doc (S m) roots term)) in Hrun.
  change (seg_cut (sg_doc (S m) roots term).1 (sg_doc (S m) roots term).2)
    with (cut_of (sg_doc (S m) roots term)) in Hrun.
  rewrite text_sg_doc, cut_sg_doc, table_sg_doc in Hrun by (done || lia).
  exact Hrun.
Qed.

Lemma levels_doc roots term m : forall items st,
  tidy roots -> plain term -> (length term <= 1)%nat ->
  exists st',
    for_each level_body (levels (Z.of_nat m)) (pr_doc m roots term, items, st)
    = Ret (term, ins items (all_bindings m roots), st').
Proof.
  induction m as [|m IH]; intros items st Ht Hp Hl.
  - exists st. done.
  - rewrite levels_S, for_each_cons.
    destruct (level_body_doc m roots term items st Ht Hp Hl) as (st1 & ->).
    rewrite ret_bind.
    destruct (IH (ins items (doc_bindings (S m) roots)) st1 Ht Hp Hl)
      as (st' & ->).
    exists st'. cbn [all_bindings]. by rewrite ins_app.
Qed.

(** *** The printed document and its depth *)

Lemma print_entry_branch cs i h :
  print_entry (EBranch cs i h)
  = grp (print_entry <$> cs) (header (EBranch cs i h)).
Proof. unfold grp. simpl. do 2 f_equal. Qed.

Lemma depth_branch cs i h :
  depth (EBranch cs i h) = S (forest_depth cs).
Proof.
  unfold forest_depth. simpl. f_equal.
  induction cs as [|c cs IH]; [done|]. simpl. by rewrite IH.
Qed.

Lemma forest_depth_cons e l :
  forest_depth (e :: l) = Nat.max (depth e) (forest_depth l).
Proof. done. Qed.

Lemma forest_depth_elem e l : e ∈ l -> (depth e <= forest_depth l)%nat.
Proof.
  induction l as [|x l IH]; [by intros ?%elem_of_nil|].
  rewrite forest_depth_cons. intros [->|H]%elem_of_cons; [lia|].
  specialize (IH H). lia.
Qed.

Lemma forest_depth_le B l :
  (forall x, x ∈ l -> (depth x <= B)%nat) -> (forest_depth l <= B)%nat.
Proof.
  induction l as [|x l IH]; intros H; [unfold forest_depth; simpl; lia|].
  rewrite forest_depth_cons.
  assert (Hx := H x ltac:(apply list_elem_of_here)).
  assert (Hl := IH (fun y Hy => H y (list_elem_of_further _ _ _ Hy))).
  lia.
Qed.

Lemma pr_full m : forall e, (depth e <= m)%nat -> pr m e = print_entry e.
Proof.
  induction m as [|m IH]; intros [i h|cs i h] Hd; try done.
  - rewrite depth_branch in Hd. lia.
  - rewrite depth_branch in Hd. rewrite print_entry_branch. cbn [pr].
    f_equal. apply list_fmap_ext. intros k c Hc. apply IH.
    apply list_elem_of_lookup_2, forest_depth_elem in Hc. lia.
Qed.

Lemma pr_doc_full m roots term :
  (forest_depth roots < m)%nat -> pr_doc m roots term = print_document roots term.
Proof.
  intros Hd. destruct m as [|m]; [lia|]. unfold print_document. cbn [pr_doc].
  unfold grp. do 3 f_equal. apply list_fmap_ext. intros k c Hc. apply pr_full.
  apply list_elem_of_lookup_2, forest_depth_elem in Hc. lia.
Qed.

Lemma net_pr c m e : tidy [e] -> net c (pr m e) = c.
Proof.
  intros Ht. destruct m as [|m].
  - rewrite pr_0. apply net_plain, plain_header. by apply tidy_subs in Ht as [? _].
  - destruct (ok_sg (c + Z.of_nat (S m)) (S m) e Ht ltac:(lia)) as [_ H].
    replace (c + Z.of_nat (S m) - Z.of_nat (S m)) with c in H by lia.
    by rewrite text_sg in H.
Qed.

Lemma peak_join_ge c l w :
  Forall (fun w => net c w = c) l -> w ∈ l -> peak c w <= peak c (join l).
Proof.
  induction l as [|x [|y l] IH]; intros Hl Hw.
  - by apply elem_of_nil in Hw.
  - apply elem_of_cons in Hw as [->|Hw]; [simpl; lia|by apply elem_of_nil in Hw].
  - apply Forall_cons in Hl as [Hx Hl].
    change (join (x :: y :: l)) with (x ++ ","%char :: join (y :: l)).
    rewrite peak_app, Hx. cbn [peak].
    replace (step_level c ",") with c by done.
    apply elem_of_cons in Hw as [->|Hw]; [lia|].
    specialize (IH Hl Hw). lia.
Qed.

Lemma peak_grp c kids suffix :
  peak (c + 1) (join kids) <= peak c (grp kids suffix).
Proof.
  unfold grp. cbn [peak]. replace (step_level c "(") with (c + 1) by done.
  rewrite peak_app. lia.
Qed.

Lemma peak_pr m : forall c e,
  tidy [e] -> (depth e <= m)%nat -> c + Z.of_nat (depth e) <= peak c (pr m e).
Proof.
  induction m as [|m IH]; intros c [i h|cs i h] Ht Hd.
  - simpl. pose proof (peak_ge c (header (ELeaf i h))). lia.
  - rewrite depth_branch in Hd. lia.
  - simpl. pose proof (peak_ge c (header (ELeaf i h))). lia.
  - rewrite depth_branch in *. cbn [pr].
    pose proof (peak_grp c (pr m <$> cs) (header (EBranch cs i h))) as Hg.
    pose proof (peak_ge (c + 1) (join (pr m <$> cs))) as Hge.
    destruct (tidy_subs _ Ht) as [_ Hsubs]. simpl in Hsubs.
    assert (forall x, x ∈ cs -> c + 1 + Z.of_nat (depth x)
                                 <= peak (c + 1) (join (pr m <$> cs))) as Hall.
    { intros x Hx.
      pose proof (tidy_each _ Hsubs) as He. rewrite Forall_forall in He.
      etrans; [apply (IH (c + 1) x)|].
      - by apply He.
      - apply forest_depth_elem in Hx. lia.
      - apply peak_join_ge; [|by apply list_elem_of_fmap_2].
        apply Forall_fmap, Forall_forall. intros y Hy. apply net_pr. by apply He. }
    assert (forest_depth cs
            <= Z.to_nat (peak (c + 1) (join (pr m <$> cs)) - (c + 1)))%nat as Hmax.
    { apply forest_depth_le. intros x Hx. specialize (Hall x Hx). lia. }
    lia.
Qed.

Lemma peak_document roots term :
  tidy roots ->
  1 + Z.of_nat (forest_depth roots) <= peak 0 (print_document roots term).
Proof.
  intros Ht. set (fd := forest_depth roots).
  rewrite <- (pr_doc_full (S fd)) by lia. cbn [pr_doc].
  pose proof (peak_grp 0 (pr fd <$> roots) term) as Hg.
  pose proof (peak_ge (0 + 1) (join (pr fd <$> roots))) as Hge.
  pose proof (tidy_each _ Ht) as He. rewrite Forall_forall in He.
  assert (fd <= Z.to_nat (peak (0 + 1) (join (pr fd <$> roots)) - 1))%nat.
  { apply forest_depth_le. intros x Hx.
    assert (0 + 1 + Z.of_nat (depth x) <= peak (0 + 1) (join (pr fd <$> roots))).
    { etrans; [apply (peak_pr fd (0 + 1) x)|].
      - by apply He.
      - by apply forest_depth_elem.
      - apply peak_join_ge; [|by apply list_elem_of_fmap_2].
        apply Forall_fmap, Forall_forall. intros y Hy. apply net_pr. by apply He. }
    lia. }
  lia.
Qed.

(** Phase 1 on a well-formed document: every group is cut out, only the
    terminator is left, and [items] holds the bindings of all levels. *)
Lemma phase1_document roots term :
  tidy roots -> plain term -> (length term <= 1)%nat ->
  exists M st,
    (forest_depth roots < M)%nat
    /\ phase1 (print_document roots term)
       = Ret (term, ins ∅ (all_bindings M roots), st).
Proof.
  intros Ht Hp Hl. unfold phase1. rewrite find_max_level_peak.
  pose proof (peak_document roots term Ht) as Hpeak.
  set (P := peak 0 (print_document roots term)) in *.
  exists (Z.to_nat P).
  destruct (levels_doc roots term (Z.to_nat P) ∅ None Ht Hp Hl) as (st & Hrun).
  exists st. split; [lia|].
  rewrite Z2Nat.id in Hrun by lia.
  rewrite pr_doc_full in Hrun by lia. exact Hrun.
Qed.

(** *** The table after phase 1 *)

Definition is_group (e : entry) : bool :=
  match e with ELeaf _ _ => false | EBranch _ _ _ => true end.

Lemma bindings_sound m : forall e k d,
  (k, d) ∈ bindings m e ->
  exists b, b ∈ entries_of e /\ is_group b = true
            /\ k = Id (id_of b) /\ d = flat_dict (subs b).
Proof.
  induction m as [|m IH]; intros [i h|cs i h] k d; simpl;
    try by intros ?%elem_of_nil.
  destruct m as [|m].
  - intros [= -> ->]%list_elem_of_singleton.
    exists (EBranch cs i h). split; [apply list_elem_of_here|done].
  - intros (c & Hin & Hc)%list_elem_of_bind.
    destruct (IH c k d Hin) as (b & Hb & Hg & -> & ->).
    exists b. split; [|done]. apply list_elem_of_further.
    change (b ∈ cs ≫= entries_of).
    apply list_elem_of_bind. eauto.
Qed.

Lemma bindings_complete n : forall e b,
  (depth e <= n)%nat -> b ∈ entries_of e -> is_group b = true ->
  exists m, (1 <= m <= n)%nat
            /\ (Id (id_of b), flat_dict (subs b)) ∈ bindings m e.
Proof.
  induction n as [|n IH]; intros e b Hd Hb Hg.
  - destruct e as [i h|cs i h].
    + simpl in Hb. apply list_elem_of_singleton in Hb as ->. done.
    + rewrite depth_branch in Hd. lia.
  - rewrite entries_of_unfold in Hb. apply elem_of_cons in Hb as [->|Hb].
    + exists 1%nat. split; [lia|]. destruct e; [done|].
      simpl. apply list_elem_of_here.
    + destruct e as [i h|cs i h]; [by apply elem_of_nil in Hb|].
      simpl in Hb. apply list_elem_of_bind in Hb as (c & Hbc & Hc).
      rewrite depth_branch in Hd.
      pose proof (forest_depth_elem c cs Hc) as Hdc.
      destruct (IH c b ltac:(lia) Hbc Hg) as (m & Hm & Hin).
      exists (S m). split; [lia|].
      cbn [bindings]. destruct m as [|m]; [lia|].
      apply list_elem_of_bind. eauto.
Qed.

Lemma all_bindings_sound M roots k d :
  (k, d) ∈ all_bindings M roots ->
  (k = Trunk /\ d = flat_dict roots)
  \/ exists b, b ∈ roots ≫= entries_of /\ is_group b = true
               /\ k = Id (id_of b) /\ d = flat_dict (subs b).
Proof.
  induction M as [|M IH]; [by intros ?%elem_of_nil|].
  cbn [all_bindings]. intros [H|H]%elem_of_app; [by apply IH|].
  unfold doc_bindings in H. destruct M as [|M].
  - apply list_elem_of_singleton in H as [= -> ->]. by left.
  - apply list_elem_of_bind in H as (c & Hin & Hc). right.
    destruct (bindings_sound _ _ _ _ Hin) as (b & Hb & Hg & -> & ->).
    exists b. split; [|done]. apply list_elem_of_bind. eauto.
Qed.

Lemma all_bindings_trunk M roots :
  (1 <= M)%nat -> (Trunk, flat_dict roots) ∈ all_bindings M roots.
Proof.
  induction M as [|[|M] IH]; intros HM; [lia| |].
  - simpl. apply list_elem_of_here.
  - cbn [all_bindings]. apply elem_of_app. left.
    apply IH. lia.
Qed.

Lemma all_bindings_mono M roots m kd :
  (m <= M)%nat -> kd ∈ doc_bindings m roots -> kd ∈ all_bindings M roots.
Proof.
  induction M as [|M IH]; intros Hm Hin.
  - assert (m = O) as -> by lia. done.
  - cbn [all_bindings]. apply elem_of_app.
    destruct (decide (m = S M)) as [->|Hne]; [by right|].
    left. apply IH; [lia|done].
Qed.

Lemma all_bindings_complete M roots b :
  (forest_depth roots < M)%nat ->
  b ∈ roots ≫= entries_of -> is_group b = true ->
  (Id (id_of b), flat_dict (subs b)) ∈ all_bindings M roots.
Proof.
  intros HM (c & Hbc & Hc)%list_elem_of_bind Hg.
  pose proof (forest_depth_elem c roots Hc) as Hdc.
  destruct (bindings_complete (depth c) c b ltac:(lia) Hbc Hg) as (m & Hm & Hin).
  apply (all_bindings_mono M roots (S m)); [lia|].
  unfold doc_bindings. destruct m as [|m]; [lia|].
  apply list_elem_of_bind. eauto.
Qed.

Lemma ins_empty bs : ins ∅ bs = list_to_map bs.
Proof. done. Qed.

Lemma list_to_map_unique (l : list (key * dict)) k d :
  (k, d) ∈ l -> (forall d', (k, d') ∈ l -> d' = d) ->
  (list_to_map l : gmap key dict) !! k = Some d.
Proof.
  induction l as [|[k' d'] l IH]; intros Hin Hun; [by apply elem_of_nil in Hin|].
  rewrite list_to_map_cons. destruct (decide (k' = k)) as [->|Hne].
  - rewrite lookup_insert_eq. f_equal. apply Hun, list_elem_of_here.
  - rewrite lookup_insert_ne by done. apply IH.
    + apply elem_of_cons in Hin as [[= ]|]; [congruence|done].
    + intros d'' H. apply Hun. by apply list_elem_of_further.
Qed.

Lemma NoDup_fmap_same {A B} (f : A -> B) l x y :
  NoDup (f <$> l) -> x ∈ l -> y ∈ l -> f x = f y -> x = y.
Proof.
  induction l as [|z l IH]; [by intros _ ?%elem_of_nil|].
  rewrite fmap_cons. intros [Hz Hnd]%NoDup_cons Hx Hy Hf.
  apply elem_of_cons in Hx as [->|Hx], Hy as [->|Hy]; try done.
  - exfalso. apply Hz. rewrite Hf. by apply list_elem_of_fmap_2.
  - exfalso. apply Hz. rewrite <- Hf. by apply list_elem_of_fmap_2.
  - by apply IH.
Qed.

(** The table after phase 1: the flat dictionary of every group under
    its identity, nothing under the identity of a leaf. *)
Record flat_table (roots : list entry) (items : gmap key dict) : Prop := {
  flat_trunk : items !! Trunk = Some (flat_dict roots);
  flat_group : forall b, b ∈ roots ≫= entries_of -> is_group b = true ->
               items !! Id (id_of b) = Some (flat_dict (subs b));
  flat_leaf : forall b, b ∈ roots ≫= entries_of -> is_group b = false ->
              items !! Id (id_of b) = None
}.

Lemma flat_table_bindings M roots :
  tidy roots -> (forest_depth roots < M)%nat ->
  flat_table roots (ins ∅ (all_bindings M roots)).
Proof.
  intros [_ Hnd] HM. rewrite ins_empty. split.
  - apply list_to_map_unique; [apply all_bindings_trunk; lia|].
    intros d' [[_ ->]|(b & _ & _ & [=] & _)]%all_bindings_sound. done.
  - intros b Hb Hg. apply list_to_map_unique.
    + by apply all_bindings_complete.
    + intros d' [[[=] _]|(b' & Hb' & _ & [= Hid] & ->)]%all_bindings_sound.
      by rewrite (NoDup_fmap_same id_of _ b b' Hnd Hb Hb' Hid).
  - intros b Hb Hg. apply not_elem_of_list_to_map_1.
    intros ([k d] & Hk & Hin)%list_elem_of_fmap. simpl in Hk. subst k.
    apply all_bindings_sound in Hin as [[[=] _]|(b' & Hb' & Hg' & [= Hid] & _)].
    rewrite (NoDup_fmap_same id_of _ b b' Hnd Hb Hb' Hid) in Hg. congruence.
Qed.

(** ** Phase 2 on the table of a well-formed document *)

(** The entry of a child once [collect] has visited it. *)
Definition linked_entry (c : entry) : Z * value :=
  (id_of c,
   if is_group c then VTuple (id_of c) (VNum (height_of c))
   else VNum (height_of c)).

Definition linked_dict (cs : list entry) : dict := linked_entry <$> cs.

(** The dictionary of a group while [collect] is at work on it: the
    children whose identity is in [seen] are linked. *)
Definition partial_entry (seen : list Z) (c : entry) : Z * value :=
  if bool_decide (id_of c ∈ seen) then linked_entry c
  else (id_of c, VNum (height_of c)).

Definition partial_dict (seen : list Z) (cs : list entry) : dict :=
  partial_entry seen <$> cs.

Lemma partial_entry_key seen c : (partial_entry seen c).1 = id_of c.
Proof. unfold partial_entry. by destruct (bool_decide _). Qed.

Lemma partial_entry_unseen seen c :
  id_of c ∉ seen -> partial_entry seen c = (id_of c, VNum (height_of c)).
Proof. intros H. unfold partial_entry. by rewrite bool_decide_eq_false_2. Qed.

Lemma partial_dict_nil cs : partial_dict [] cs = flat_dict cs.
Proof.
  unfold partial_dict, flat_dict. apply list_fmap_ext. intros k c _.
  unfold partial_entry. rewrite bool_decide_eq_false_2; [done|].
  apply not_elem_of_nil.
Qed.

Lemma partial_dict_all seen cs :
  (forall c, c ∈ cs -> id_of c ∈ seen) -> partial_dict seen cs = linked_dict cs.
Proof.
  intros H. unfold partial_dict, linked_dict. apply list_fmap_ext.
  intros k c Hc%list_elem_of_lookup_2. unfold partial_entry.
  rewrite bool_decide_eq_true_2; [done|]. by apply H.
Qed.

Lemma dict_keys_fmap (g : entry -> Z * value) cs :
  (forall c, (g c).1 = id_of c) -> dict_keys (g <$> cs) = id_of <$> cs.
Proof.
  intros Hg. unfold dict_keys. rewrite <- list_fmap_compose.
  apply list_fmap_ext. intros ? c _. apply Hg.
Qed.

Lemma dict_get_fmap (g : entry -> Z * value) cs c :
  (forall x, (g x).1 = id_of x) -> NoDup (id_of <$> cs) -> c ∈ cs ->
  dict_get (g <$> cs) (id_of c) = Some (g c).2.
Proof.
  intros Hg. induction cs as [|x cs IH]; [by intros _ ?%elem_of_nil|].
  rewrite fmap_cons. intros [Hx Hnd]%NoDup_cons Hc.
  rewrite fmap_cons. simpl. specialize (Hg x) as Hgx.
  destruct (g x) as [k v] eqn:E. simpl in Hgx. subst k.
  destruct (decide (id_of x = id_of c)) as [Heq|Hne].
  - apply elem_of_cons in Hc as [->|Hc]; [by rewrite E|].
    exfalso. apply Hx. rewrite Heq. by apply list_elem_of_fmap_2.
  - apply elem_of_cons in Hc as [->|Hc]; [done|]. by apply IH.
Qed.

Lemma dict_set_fmap (g : entry -> Z * value) cs k v :
  (forall x, (g x).1 = id_of x) -> NoDup (id_of <$> cs) -> k ∈ id_of <$> cs ->
  dict_set (g <$> cs) k v
  = (fun x => if decide (id_of x = k) then (k, v) else g x) <$> cs.
Proof.
  intros Hg. induction cs as [|x cs IH]; [by intros _ ?%elem_of_nil|].
  rewrite !fmap_cons. intros [Hx Hnd]%NoDup_cons Hk. simpl.
  specialize (Hg x) as Hgx. destruct (g x) as [k' v'] eqn:E.
  simpl in Hgx. subst k'.
  destruct (decide (id_of x = k)) as [Heq|Hne].
  - f_equal. apply list_fmap_ext. intros j y Hy%list_elem_of_lookup_2.
    destruct (decide (id_of y = k)) as [Hy'|]; [|done].
    exfalso. apply Hx. rewrite Heq, <- Hy'. by apply list_elem_of_fmap_2.
  - f_equal. apply IH; [done|].
    apply elem_of_cons in Hk as [?|?]; [congruence|done].
Qed.

(** Entries of different children have different identities. *)
Lemma tidy_same_child cs c c' b b' :
  tidy cs -> c ∈ cs -> c' ∈ cs -> b ∈ entries_of c -> b' ∈ entries_of c' ->
  id_of b = id_of b' -> c = c'.
Proof.
  intros [_ Hnd]. induction cs as [|x cs IH]; [by intros ?%elem_of_nil|].
  rewrite bind_cons, fmap_app in Hnd.
  apply NoDup_app in Hnd as (_ & Hdis & Hnd).
  intros Hc Hc' Hb Hb' Hid.
  assert (forall y z w, y ∈ cs -> z ∈ entries_of y -> w ∈ entries_of x ->
                        id_of w = id_of z -> False) as Hcross.
  { intros y z w Hy Hz Hw Hwz. apply (Hdis (id_of w)).
    - by apply list_elem_of_fmap_2.
    - rewrite Hwz. apply list_elem_of_fmap_2, list_elem_of_bind. eauto. }
  apply elem_of_cons in Hc as [->|Hc], Hc' as [->|Hc']; try done.
  - exfalso. by eapply Hcross.
  - exfalso. by eapply (Hcross c b b').
  - by apply IH.
Qed.

Lemma tidy_below c b :
  tidy [c] -> b ∈ subs c ≫= entries_of -> id_of b ≠ id_of c.
Proof.
  intros [_ Hnd] Hb Heq. simpl in Hnd. rewrite app_nil_r in Hnd.
  rewrite entries_of_unfold, fmap_cons in Hnd.
  apply NoDup_cons in Hnd as [Hc _]. apply Hc. rewrite <- Heq.
  by apply list_elem_of_fmap_2.
Qed.


Section Linking.

Variable iter_order : list Z -> list Z.

(** The interpreter visits every key of a dictionary once. *)
Hypothesis iter_order_perm : forall ks, NoDup ks -> iter_order ks ≡ₚ ks.

(** Body of the loop of [collect]. *)
Definition collect_body (fuel : nat) (k : key) (items : gmap key dict)
    (item : Z) : outcome (gmap key dict) :=
  match items !! Id item with
  | None => Ret items
  | Some _ =>
      items ← collect iter_order fuel (Id item) items;
      match items !! k with
      | None => Raise (KeyError k)
      | Some d =>
          match dict_get d item with
          | None => Raise (KeyError (Id item))
          | Some old => Ret (<[k := dict_set d item (VTuple item old)]> items)
          end
      end
  end.

Lemma collect_S fuel k items :
  collect iter_order (S fuel) k items
  = match items !! k with
    | None => Raise (KeyError k)
    | Some d => for_each (collect_body fuel k) (iter_order (dict_keys d)) items
    end.
Proof. done. Qed.

(** The table while [collect] is in the group bound to [k], whose entries
    are [cs], after the children in [seen]; [st0] is the table on entry. *)
Record linking (st0 : gmap key dict) (k : key) (cs : list entry)
    (seen : list Z) (st : gmap key dict) : Prop := {
  lk_here : st !! k = Some (partial_dict seen cs);
  lk_below : forall c b, c ∈ cs -> b ∈ entries_of c ->
    st !! Id (id_of b)
    = if is_group b
      then Some ((if bool_decide (id_of c ∈ seen)
                  then linked_dict else flat_dict) (subs b))
      else None;
  lk_frame : forall k', k' ≠ k ->
    (forall x, x ∈ cs ≫= entries_of -> k' ≠ Id (id_of x)) ->
    st !! k' = st0 !! k'
}.

Lemma linking_ext st0 k cs seen seen' st :
  (forall i, i ∈ seen <-> i ∈ seen') ->
  linking st0 k cs seen st -> linking st0 k cs seen' st.
Proof.
  intros Hext [H1 H2 H3].
  assert (forall i, bool_decide (i ∈ seen) = bool_decide (i ∈ seen')) as Hb.
  { intros i. apply bool_decide_ext, Hext. }
  split; [|intros c b Hc Hbc; rewrite <- Hb; by apply H2|done].
  rewrite H1. f_equal. apply list_fmap_ext. intros j c _.
  unfold partial_entry. by rewrite Hb.
Qed.

(** What [collect] does on a group whose table is flat. *)
Definition collect_links (fuel : nat) : Prop :=
  forall k cs st,
    (forest_depth cs < fuel)%nat -> tidy cs ->
    (forall x, x ∈ cs ≫= entries_of -> k ≠ Id (id_of x)) ->
    linking st k cs [] st ->
    exists st', collect iter_order fuel k st = Ret st'
                /\ linking st k cs (id_of <$> cs) st'.

Lemma collect_body_links fuel st0 k cs seen st i :
  collect_links fuel ->
  (forest_depth cs < S fuel)%nat -> tidy cs ->
  (forall x, x ∈ cs ≫= entries_of -> k ≠ Id (id_of x)) ->
  linking st0 k cs seen st -> i ∈ id_of <$> cs -> i ∉ seen ->
  exists st', collect_body fuel k st i = Ret st'
              /\ linking st0 k cs (seen ++ [i]) st'.
Proof.
  intros IH Hfd Ht Hk [Hhere Hbelow Hframe] Hi Hseen.
  apply list_elem_of_fmap in Hi as (c & -> & Hc).
  pose proof (tidy_distinct cs Ht) as Hnd.
  pose proof (tidy_each cs Ht) as Heach. rewrite Forall_forall in Heach.
  assert (forall c', c' ∈ cs -> id_of c' = id_of c -> c' = c) as Hsame.
  { intros c' Hc' Heq. by apply (NoDup_fmap_same id_of cs). }
  assert (forall j, bool_decide (j ∈ seen ++ [id_of c])
                    = bool_decide (j ∈ seen) || bool_decide (j = id_of c)) as Hdec.
  { intros j. apply eq_true_iff_eq.
    rewrite orb_true_iff, !bool_decide_eq_true, elem_of_app,
      list_elem_of_singleton. done. }
  assert (bool_decide (id_of c ∈ seen) = false) as Hnot
    by (by apply bool_decide_eq_false_2).
  assert (forall j : Z, bool_decide (j ∈ @nil Z) = false) as Hnil.
  { intros j. apply bool_decide_eq_false_2, not_elem_of_nil. }
  unfold collect_body.
  rewrite (Hbelow c c Hc (entry_in_entries c)). rewrite Hnot.
  destruct (is_group c) eqn:Hg.
  - (* a group: [collect] links what is below it, then its own entry *)
    assert (forest_depth (subs c) < fuel)%nat as Hfd'.
    { pose proof (forest_depth_elem c cs Hc) as Hd. destruct c; [done|].
      rewrite depth_branch in Hd. simpl. lia. }
    destruct (tidy_subs c (Heach c Hc)) as [_ Htc].
    destruct (IH (Id (id_of c)) (subs c) st Hfd' Htc) as (st1 & Hrun & Hl1).
    { intros x Hx [= Heq]. by apply (tidy_below c x (Heach c Hc)). }
    { split; [|intros c' b Hc' Hb|done].
      - rewrite partial_dict_nil.
        rewrite (Hbelow c c Hc (entry_in_entries c)). by rewrite Hg, Hnot.
      - rewrite (Hbelow c b Hc).
        + by rewrite Hnot, Hnil.
        + rewrite entries_of_unfold. apply list_elem_of_further.
          apply list_elem_of_bind. eauto. }
    destruct Hl1 as [H1here H1below H1frame].
    rewrite Hrun, ret_bind.
    assert (st1 !! k = Some (partial_dict seen cs)) as Hk1.
    { rewrite H1frame; [done| |].
      - intros ->. apply (Hk c); [by apply child_in_entries|done].
      - intros x Hx. apply Hk. apply list_elem_of_bind. exists c.
        split; [|done]. rewrite entries_of_unfold. by apply list_elem_of_further. }
    rewrite Hk1. unfold partial_dict.
    rewrite (dict_get_fmap _ cs c (partial_entry_key seen) Hnd Hc).
    rewrite (partial_entry_unseen seen c) by done.
    cbn [snd]. eexists. split; [done|]. split.
    + rewrite lookup_insert_eq. f_equal.
      rewrite dict_set_fmap;
        [|apply partial_entry_key|done|by apply list_elem_of_fmap_2].
      apply list_fmap_ext. intros j x Hx%list_elem_of_lookup_2.
      unfold partial_entry. rewrite Hdec.
      destruct (decide (id_of x = id_of c)) as [Heq|Hne].
      * rewrite (Hsame x Hx Heq). rewrite (bool_decide_eq_true_2 (_ = _)) by done.
        rewrite orb_true_r. unfold linked_entry. by rewrite Hg.
      * rewrite (bool_decide_eq_false_2 (_ = _)) by done.
        by rewrite orb_false_r.
    + intros c' b Hc' Hb.
      assert (Id (id_of b) ≠ k) as Hbk.
      { intros <-. apply (Hk b); [|done]. apply list_elem_of_bind. eauto. }
      rewrite lookup_insert_ne by (by apply not_eq_sym).
      rewrite Hdec.
      destruct (decide (id_of c' = id_of c)) as [Heq|Hne].
      * apply Hsame in Heq as ->; [|done].
        rewrite (bool_decide_eq_true_2 (_ = _)) by done. rewrite orb_true_r.
        rewrite entries_of_unfold in Hb.
        apply elem_of_cons in Hb as [->|Hb].
        -- by rewrite H1here, Hg, partial_dict_all
             by (intros; by apply list_elem_of_fmap_2).
        -- apply list_elem_of_bind in Hb as (y & Hby & Hy).
           rewrite (H1below y b Hy Hby).
           assert (bool_decide (id_of y ∈ id_of <$> subs c) = true) as ->
             by (by apply bool_decide_eq_true_2, list_elem_of_fmap_2).
           done.
      * rewrite (bool_decide_eq_false_2 (_ = _)) by done. rewrite orb_false_r.
        rewrite H1frame; [by apply Hbelow| |].
        -- intros [= Heq]. apply Hne.
           by rewrite (tidy_same_child cs c' c b c Ht Hc' Hc Hb
                         (entry_in_entries c) Heq).
        -- intros x (y & Hxy & Hy)%list_elem_of_bind [= Heq]. apply Hne.
           assert (x ∈ entries_of c) as Hxc.
           { rewrite entries_of_unfold. apply list_elem_of_further.
             apply list_elem_of_bind. eauto. }
           by rewrite (tidy_same_child cs c' c b x Ht Hc' Hc Hb Hxc Heq).
    + intros k' Hk' Hfresh.
      rewrite lookup_insert_ne by (by apply not_eq_sym).
      rewrite H1frame; [by apply Hframe| |].
      * intros ->. apply (Hfresh c); [by apply child_in_entries|done].
      * intros x Hx. apply Hfresh. apply list_elem_of_bind. exists c.
        split; [|done]. rewrite entries_of_unfold. by apply list_elem_of_further.
  - (* a leaf: nothing is bound to its identity *)
    exists st. split; [done|].
    assert (forall b, b ∈ entries_of c -> b = c) as Hleaf.
    { intros b Hb. destruct c; [|done]. simpl in Hb.
      by apply list_elem_of_singleton in Hb. }
    split.
    + rewrite Hhere. f_equal. apply list_fmap_ext.
      intros j x Hx%list_elem_of_lookup_2. unfold partial_entry. rewrite Hdec.
      destruct (decide (id_of x = id_of c)) as [Heq|Hne].
      * rewrite (Hsame x Hx Heq), Hnot.
        rewrite (bool_decide_eq_true_2 (_ = _)) by done. simpl.
        unfold linked_entry. by rewrite Hg.
      * rewrite (bool_decide_eq_false_2 (_ = _)) by done.
        by rewrite orb_false_r.
    + intros c' b Hc' Hb. rewrite Hdec.
      destruct (decide (id_of c' = id_of c)) as [Heq|Hne].
      * apply Hsame in Heq as ->; [|done].
        rewrite (Hleaf b Hb). rewrite (Hbelow c c Hc (entry_in_entries c)).
        by rewrite Hg.
      * rewrite (bool_decide_eq_false_2 (_ = _)) by done. rewrite orb_false_r.
        by apply Hbelow.
    + done.
Qed.

Lemma collect_loop_links fuel st0 k cs :
  collect_links fuel ->
  (forest_depth cs < S fuel)%nat -> tidy cs ->
  (forall x, x ∈ cs ≫= entries_of -> k ≠ Id (id_of x)) ->
  forall todo seen st,
    linking st0 k cs seen st -> NoDup todo ->
    (forall i, i ∈ todo -> i ∈ id_of <$> cs /\ i ∉ seen) ->
    exists st', for_each (collect_body fuel k) todo st = Ret st'
                /\ linking st0 k cs (seen ++ todo) st'.
Proof.
  intros IH Hfd Ht Hk. induction todo as [|i todo IHt]; intros seen st Hl Hnd Hin.
  - exists st. rewrite app_nil_r. done.
  - apply NoDup_cons in Hnd as [Hi Hnd].
    destruct (Hin i (list_elem_of_here _ _)) as [Hics Hiseen].
    destruct (collect_body_links fuel st0 k cs seen st i IH Hfd Ht Hk Hl Hics Hiseen)
      as (st1 & Hstep & Hl1).
    destruct (IHt (seen ++ [i]) st1 Hl1 Hnd) as (st' & Hrun & Hl').
    { intros j Hj. destruct (Hin j (list_elem_of_further _ _ _ Hj)) as [? ?].
      split; [done|]. rewrite elem_of_app, list_elem_of_singleton.
      intros [? | ->]; done. }
    exists st'. rewrite for_each_cons, Hstep, ret_bind.
    split; [done|]. by rewrite <- app_assoc in Hl'.
Qed.

Lemma collect_links_all fuel : collect_links fuel.
Proof.
  induction fuel as [|fuel IH]; intros k cs st Hfd Ht Hk Hl; [lia|].
  rewrite collect_S. destruct Hl as [Hhere Hbelow Hframe].
  rewrite Hhere. unfold partial_dict at 1.
  rewrite (dict_keys_fmap _ cs (partial_entry_key [])).
  pose proof (tidy_distinct cs Ht) as Hnd.
  pose proof (iter_order_perm _ Hnd) as Hperm.
  destruct (collect_loop_links fuel st k cs IH Hfd Ht Hk
              (iter_order (id_of <$> cs)) [] st) as (st' & Hrun & Hl').
  - done.
  - by rewrite Hperm.
  - intros i Hi. rewrite Hperm in Hi. split; [done|apply not_elem_of_nil].
  - exists st'. split; [done|].
    eapply linking_ext; [|exact Hl']. intros i. simpl. by rewrite Hperm.
Qed.

End Linking.

(** ** The nested mapping of a linked table *)

Lemma nested_of_branch cs i h :
  nested_of (EBranch cs i h)
  = (id_of (EBranch cs i h),
     NPair (nested_of <$> cs) (NHeight (height_of (EBranch cs i h)))).
Proof. simpl. do 2 f_equal. Qed.

Lemma view_S fuel items v :
  view (S fuel) items v
  = match v with
    | VNum h => Some (NHeight h)
    | VTuple ref old =>
        d ← items !! Id ref;
        d' ← mapM (fun kv : Z * value =>
                     n ← view fuel items kv.2; Some (kv.1, n)) d;
        o ← view fuel items old;
        Some (NPair d' o)
    end.
Proof. done. Qed.

Lemma view_linked items fuel : forall cs,
  (forest_depth cs < fuel)%nat ->
  (forall b, b ∈ cs ≫= entries_of -> is_group b = true ->
             items !! Id (id_of b) = Some (linked_dict (subs b))) ->
  mapM (fun kv : Z * value => n ← view fuel items kv.2; Some (kv.1, n))
       (linked_dict cs)
  = Some (nested_of <$> cs).
Proof.
  induction fuel as [|fuel IH]; intros cs Hfd Hlook; [lia|].
  induction cs as [|c cs IHcs]; [done|].
  unfold linked_dict. rewrite !fmap_cons, mapM_cons.
  fold (linked_dict cs).
  rewrite IHcs.
  2:{ rewrite forest_depth_cons in Hfd. lia. }
  2:{ intros b Hb. apply Hlook. rewrite bind_cons. apply elem_of_app. by right. }
  assert (view (S fuel) items (linked_entry c).2 = Some (nested_of c).2
          /\ (linked_entry c).1 = (nested_of c).1) as [Hv Hk].
  { rewrite forest_depth_cons in Hfd.
    destruct c as [i h|sub i h]; [done|].
    rewrite nested_of_branch. unfold linked_entry. cbn [is_group fst snd].
    split; [|done]. rewrite view_S.
    rewrite (Hlook (EBranch sub i h)); [|rewrite bind_cons; apply elem_of_app; left;
                                         apply entry_in_entries|done].
    cbn [subs]. simpl mbind.
    rewrite depth_branch in Hfd.
    rewrite IH.
    - destruct fuel as [|fuel]; [lia|]. done.
    - lia.
    - intros b Hb. apply Hlook. rewrite bind_cons. apply elem_of_app. left.
      rewrite entries_of_unfold. by apply list_elem_of_further. }
  rewrite Hv. simpl. do 2 f_equal. simpl in Hk. rewrite Hk.
  by destruct (nested_of c).
Qed.

Section Parsing.

Variable iter_order : list Z -> list Z.
Variable limit : nat.
Hypothesis iter_order_perm : forall ks, NoDup ks -> iter_order ks ≡ₚ ks.

Lemma flat_table_linking roots table :
  flat_table roots table -> linking table Trunk roots [] table.
Proof.
  intros [Htrunk Hgroup Hleaf]. split; [by rewrite partial_dict_nil| |done].
  intros c b Hc Hb.
  assert (b ∈ roots ≫= entries_of) as Hin by (apply list_elem_of_bind; eauto).
  assert (bool_decide (id_of c ∈ @nil Z) = false) as ->
    by apply bool_decide_eq_false_2, not_elem_of_nil.
  destruct (is_group b) eqn:Hg; [by apply Hgroup|by apply Hleaf].
Qed.

(** The parser on a well-formed document. *)
Lemma parse_document roots term :
  well_formed roots term -> (forest_depth roots < limit)%nat ->
  exists table st items,
    phase1 (print_document roots term) = Ret (term, table, st)
    /\ flat_table roots table
    /\ _parse_newick iter_order limit (print_document roots term) = Ret items
    /\ items !! Trunk = Some (linked_dict roots)
    /\ (forall b, b ∈ roots ≫= entries_of -> is_group b = true ->
                  items !! Id (id_of b) = Some (linked_dict (subs b)))
    /\ view_dict (S (forest_depth roots)) items Trunk
       = Some (nested_of <$> roots).
Proof.
  intros [Hlit Hnd Hshort Hplain] Hlimit.
  assert (tidy roots) as Ht by done.
  destruct (phase1_document roots term Ht Hplain Hshort) as (M & st & HM & Hph).
  pose proof (flat_table_bindings M roots Ht HM) as Hflat.
  set (table := ins ∅ (all_bindings M roots)) in *.
  destruct (collect_links_all iter_order iter_order_perm limit Trunk roots table
              Hlimit Ht ltac:(done) (flat_table_linking _ _ Hflat))
    as (items & Hrun & [Hhere Hbelow _]).
  assert (forall b, b ∈ roots ≫= entries_of -> is_group b = true ->
                    items !! Id (id_of b) = Some (linked_dict (subs b))) as Hlook.
  { intros b (c & Hb & Hc)%list_elem_of_bind Hg.
    rewrite (Hbelow c b Hc Hb), Hg.
    assert (bool_decide (id_of c ∈ id_of <$> roots) = true) as ->
      by (by apply bool_decide_eq_true_2, list_elem_of_fmap_2).
    done. }
  assert (items !! Trunk = Some (linked_dict roots)) as Htrunk.
  { rewrite Hhere. f_equal. apply partial_dict_all.
    intros c Hc. by apply list_elem_of_fmap_2. }
  exists table, st, items. split; [done|]. split; [done|].
  split; [|split; [done|split; [done|]]].
  - unfold _parse_newick. rewrite Hph, ret_bind. cbn [fst snd].
    by rewrite (flat_trunk _ _ Hflat).
  - unfold view_dict. rewrite Htrunk. cbn [mbind option_bind].
    apply view_linked; [lia|done].
Qed.

End Parsing.

(** ** The aggregation loop stays inside the model *)

Lemma for_each_not_beyond {A S} (body : S -> A -> outcome S) xs :
  (forall st x, body st x ≠ Beyond) -> forall st, for_each body xs st ≠ Beyond.
Proof.
  intros Hbody. induction xs as [|x xs IH]; intros st; simpl; [done|].
  specialize (Hbody st x). destruct (body st x); simpl; auto.
Qed.

Lemma nd_item_not_beyond {A} sh (fl : list A) c : nd_item sh fl c ≠ Beyond.
Proof.
  revert sh fl. induction c as [|i c IH]; intros [|n sh] fl; simpl; try done.
  - by destruct fl.
  - destruct (i <? n)%nat; [apply IH|done].
Qed.

Lemma element_not_beyond {A} (a : ndarray A) c : element a c ≠ Beyond.
Proof.
  unfold element, getitem.
  pose proof (nd_item_not_beyond (shape a) (flat a) c) as H.
  destruct (nd_item (shape a) (flat a) c) as [[x|l]| |]; simpl; done.
Qed.

Lemma truth_not_beyond i : truth i ≠ Beyond.
Proof. destruct i as [x|[|x [|y l]]]; done. Qed.

Lemma nd_item_elem {A} sh (fl : list A) c x :
  nd_item sh fl c = Ret (Scalar x) -> x ∈ fl.
Proof.
  revert sh fl. induction c as [|i c IH]; intros [|n sh] fl; simpl; try done.
  - destruct fl; [done|]. intros [= ->]. apply list_elem_of_here.
  - destruct (i <? n)%nat; [|done]. intros H%IH.
    apply elem_of_take in H as (j & H & _). rewrite lookup_drop in H.
    by eapply list_elem_of_lookup_2.
Qed.

Lemma truth_hashable i x :
  truth i = Ret true -> hashable i = Ret x -> i = Scalar x /\ x ≠ 0.
Proof.
  destruct i as [y|l]; simpl; [|done].
  intros [= H] [= ->]. split; [done|]. intros ->. done.
Qed.

(** ** Row-major indexing *)

Lemma size_of_cons n sh : size_of (n :: sh) = (n * size_of sh)%nat.
Proof. done. Qed.

Lemma all_coords_cons n sh :
  all_coords (n :: sh) = i ← seq 0 n; (fun c => i :: c) <$> all_coords sh.
Proof.
  simpl. induction (seq 0 n) as [|i l IH]; [done|].
  rewrite !bind_cons, IH. f_equal.
Qed.

(** The [i]-th coordinate of the traversal selects the [i]-th element of
    the buffer. *)
Lemma nd_item_row_major {A} sh : forall fl : list A,
  length fl = size_of sh ->
  Forall2 (fun c x => nd_item sh fl c = Ret (Scalar x)) (all_coords sh) fl.
Proof.
  induction sh as [|n sh IH]; intros fl Hlen.
  - destruct fl as [|x [|y fl]]; try done. by repeat constructor.
  - rewrite all_coords_cons. rewrite size_of_cons in Hlen.
    set (sz := size_of sh) in *.
    enough (forall k j, (j + k = n)%nat ->
              Forall2 (fun c x => nd_item (n :: sh) fl c = Ret (Scalar x))
                (i ← seq j k; (fun c => i :: c) <$> all_coords sh)
                (drop (j * sz) fl)) as H.
    { specialize (H n 0%nat eq_refl). by rewrite drop_0 in H. }
    induction k as [|k IHk]; intros j Hj.
    + simpl. rewrite drop_ge; [constructor|]. rewrite Hlen. nia.
    + rewrite <- cons_seq, bind_cons.
      rewrite <- (take_drop sz (drop (j * sz) fl)), drop_drop.
      apply Forall2_app.
      * apply Forall2_fmap_l.
        assert (length (take sz (drop (j * sz) fl)) = sz) as Hchunk.
        { rewrite length_take, length_drop, Hlen. nia. }
        eapply Forall2_impl; [apply (IH _ Hchunk)|].
        intros c x Hcx. simpl.
        destruct (Nat.ltb_spec j n) as [_|?]; [|lia]. done.
      * replace (j * sz + sz)%nat with (S j * sz)%nat by lia.
        apply IHk. lia.
Qed.

Lemma getitem_row_major {A} (a : ndarray A) :
  well_shaped a ->
  Forall2 (fun c x => getitem a c = Ret (Scalar x)) (all_coords (shape a)) (flat a).
Proof. apply nd_item_row_major. Qed.

Lemma Forall2_zip3 {A B C} (P : A -> B -> Prop) (Q : A -> C -> Prop) l k m :
  Forall2 P l k -> Forall2 Q l m ->
  Forall (fun p => P p.1 p.2.1 /\ Q p.1 p.2.2) (zip l (zip k m)).
Proof.
  intros H. revert m. induction H as [|x y l k Hxy H IH]; intros m Hm.
  - constructor.
  - inversion Hm; subst. simpl. constructor; [done|]. by apply IH.
Qed.

Section Properties.

Context {D : Type}.
Variable iter_order : list Z -> list Z.
Variable limit : nat.

Lemma aggregate_step_not_beyond (data : ndarray D) index_map st c :
  aggregate_step data index_map st c ≠ Beyond.
Proof.
  unfold aggregate_step. destruct st as [fx ix]. unfold getitem.
  pose proof (nd_item_not_beyond (shape index_map) (flat index_map) c) as H1.
  destruct (nd_item (shape index_map) (flat index_map) c) as [i| |]; simpl; try done.
  pose proof (truth_not_beyond i) as H2.
  destruct (truth i) as [[]| |]; simpl; try done.
  destruct i as [x|l]; simpl; try done.
  pose proof (element_not_beyond data c) as H3.
  destruct (fx !! x); destruct (element data c); simpl; try done.
  destruct (ix !! x); simpl; done.
Qed.

Lemma aggregate_not_beyond (data : ndarray D) index_map :
  aggregate data index_map ≠ Beyond.
Proof. apply for_each_not_beyond, aggregate_step_not_beyond. Qed.

Lemma phase1_no_open s : "("%char ∉ s -> phase1 s = Ret (s, ∅, None).
Proof. intros H. unfold phase1. by rewrite find_max_level_no_open. Qed.

Lemma parse_no_trunk s st :
  phase1 s = Ret st -> st.1.2 = ∅ ->
  _parse_newick iter_order limit s = Raise (KeyError Trunk).
Proof. intros H1 H2. unfold _parse_newick. rewrite H1. simpl. by rewrite H2. Qed.

Lemma import_parse_raises (h5f : h5file D) e :
  _parse_newick iter_order limit (ds_newick h5f) = Raise e ->
  raises (dendro_import_hdf5 iter_order limit h5f).
Proof.
  intros H. unfold dendro_import_hdf5.
  pose proof (aggregate_not_beyond (ds_data h5f) (ds_index_map h5f)) as Hb.
  destruct (aggregate (ds_data h5f) (ds_index_map h5f)) as [ag|e'|];
    simpl; [|by exists e'|done].
  rewrite H. simpl. by exists e.
Qed.



Lemma set_level_all l (tr : list (Structure D)) :
  Forall (fun node => _level node = Some l) (set_level l <$> tr).
Proof. apply Forall_fmap, Forall_true. done. Qed.

(** C7. After a successful import every node of the trunk has its
    [_level] set to 0. *)
Theorem trunk_level_zero (h5f : h5file D) (d : Dendrogram D) :
  dendro_import_hdf5 iter_order limit h5f = Ret d ->
  Forall (fun node => _level node = Some 0) (trunk d).
Proof.
  unfold dendro_import_hdf5. intros H.
  apply bind_Ret in H as (ag & _ & H).
  apply bind_Ret in H as (repr & _ & H).
  apply bind_Ret in H as (tr & _ & H).
  inversion H; subst; simpl.
  apply set_level_all.
Qed.

(** *** What the aggregation loop accumulates *)

(** The two dictionaries have the same keys, every key is a non-zero
    label of the array, and the two lists of a key are non-empty and of
    the same length. *)
Definition parallel (index_map : ndarray Z)
    (st : gmap Z (list D) * gmap Z (list coord)) : Prop :=
  forall k,
    match st.2 !! k, st.1 !! k with
    | Some il, Some fl =>
        il ≠ [] /\ length fl = length il /\ k ≠ 0 /\ k ∈ flat index_map
    | None, None => True
    | _, _ => False
    end.

Lemma aggregate_step_parallel data index_map st c st' :
  parallel index_map st ->
  aggregate_step data index_map st c = Ret st' ->
  parallel index_map st'.
Proof.
  intros Hinv. unfold aggregate_step. destruct st as [fx ix].
  intros H. apply bind_Ret in H as (i & Hi & H).
  apply bind_Ret in H as (b & Hb & H).
  destruct b; [|by inversion H; subst].
  apply bind_Ret in H as (x & Hx & H).
  destruct (truth_hashable _ _ Hb Hx) as [-> Hx0].
  apply nd_item_elem in Hi.
  pose proof (Hinv x) as Hk. simpl in Hk.
  destruct (fx !! x) as [fl|] eqn:Efx.
  - apply bind_Ret in H as (v & Hv & H).
    destruct (ix !! x) as [il|] eqn:Eix; [|done].
    inversion H; subst. intros k. simpl.
    destruct (decide (k = x)) as [->|Hne].
    + rewrite !lookup_insert_eq. destruct Hk as (? & ? & ? & ?).
      repeat split; try done.
      * by destruct il.
      * rewrite !length_app. simpl. lia.
    + rewrite !lookup_insert_ne by done. apply (Hinv k).
  - apply bind_Ret in H as (v & Hv & H).
    inversion H; subst. intros k. simpl.
    destruct (decide (k = x)) as [->|Hne].
    + rewrite !lookup_insert_eq. done.
    + rewrite !lookup_insert_ne by done. apply (Hinv k).
Qed.

Lemma aggregate_parallel data index_map ag :
  aggregate data index_map = Ret ag -> parallel index_map ag.
Proof.
  unfold aggregate.
  apply (for_each_invariant (parallel index_map)).
  - intros st c st' _. apply aggregate_step_parallel.
  - intros k. simpl. by rewrite !lookup_empty.
Qed.

(** The state of the two dictionaries after a pass over the pixels [px]. *)
Definition accumulated (px : list (coord * (Z * D)))
    (st : gmap Z (list D) * gmap Z (list coord)) : Prop :=
  forall v, st.2 !! v = group fst v px /\ st.1 !! v = group (fun p => p.2.2) v px.

Lemma group_snoc_other {A} (f : coord * (Z * D) -> A) v px p :
  p.2.1 ≠ v -> group f v (px ++ [p]) = group f v px.
Proof.
  intros Hne. unfold group, labelled. rewrite filter_app.
  rewrite (filter_cons_False _ p []) by done.
  rewrite filter_nil, app_nil_r. done.
Qed.

Lemma group_snoc_same {A} (f : coord * (Z * D) -> A) px p :
  p.2.1 ≠ 0 ->
  group f p.2.1 (px ++ [p]) = Some (default [] (group f p.2.1 px) ++ [f p]).
Proof.
  intros Hne. unfold group, labelled. rewrite filter_app.
  rewrite (filter_cons_True _ p []) by done. rewrite filter_nil.
  destruct (decide (p.2.1 = 0)); [done|].
  destruct (filter _ px) as [|q l]; simpl; [done|].
  by rewrite fmap_app.
Qed.

Lemma group_zero {A} (f : coord * (Z * D) -> A) px : group f 0 px = None.
Proof. done. Qed.

Lemma aggregate_step_accumulated data index_map px st p :
  getitem index_map p.1 = Ret (Scalar p.2.1) ->
  element data p.1 = Ret p.2.2 ->
  accumulated px st ->
  exists st', aggregate_step data index_map st p.1 = Ret st'
              /\ accumulated (px ++ [p]) st'.
Proof.
  intros Hl Hx Hacc. unfold aggregate_step. destruct st as [fx ix].
  rewrite Hl. simpl.
  destruct (Z.eqb_spec p.2.1 0) as [Hz|Hnz]; simpl.
  - eexists; split; [done|]. intros v.
    destruct (decide (v = 0)) as [->|Hv].
    + rewrite !group_zero. apply (Hacc 0).
    + rewrite !group_snoc_other by congruence. apply Hacc.
  - destruct (Hacc p.2.1) as [Hi Hf]. simpl in Hi, Hf.
    rewrite Hx. simpl.
    assert (forall ix' fx', ix' !! p.2.1 = group fst p.2.1 (px ++ [p]) ->
              fx' !! p.2.1 = group (fun q => q.2.2) p.2.1 (px ++ [p]) ->
              (forall v, v ≠ p.2.1 -> ix' !! v = ix !! v /\ fx' !! v = fx !! v) ->
              accumulated (px ++ [p]) (fx', ix')) as Hdone.
    { intros ix' fx' H1 H2 H3 v. simpl.
      destruct (decide (v = p.2.1)) as [->|Hv]; [done|].
      destruct (H3 v Hv) as [-> ->].
      rewrite !group_snoc_other by congruence. apply Hacc. }
    destruct (fx !! p.2.1) as [fl|] eqn:Efx; simpl.
    + destruct (ix !! p.2.1) as [il|] eqn:Eix.
      2:{ exfalso. unfold group in Hi, Hf. destruct (decide (p.2.1 = 0)); [done|].
          destruct (labelled p.2.1 px); done. }
      eexists; split; [done|]. apply Hdone.
      * rewrite lookup_insert_eq, group_snoc_same by done. by rewrite <- Hi.
      * rewrite lookup_insert_eq, group_snoc_same by done. by rewrite <- Hf.
      * intros v Hv. by rewrite !lookup_insert_ne.
    + eexists; split; [done|]. apply Hdone.
      * rewrite lookup_insert_eq, group_snoc_same by done.
        assert (group fst p.2.1 px = None) as ->; [|done].
        unfold group in *. destruct (decide (p.2.1 = 0)); [done|].
        destruct (labelled p.2.1 px); done.
      * rewrite lookup_insert_eq, group_snoc_same by done. by rewrite <- Hf.
      * intros v Hv. by rewrite !lookup_insert_ne.
Qed.

Lemma aggregate_loop_accumulated data index_map rest : forall px st,
  Forall (fun p => getitem index_map p.1 = Ret (Scalar p.2.1)
                   /\ element data p.1 = Ret p.2.2) rest ->
  accumulated px st ->
  exists st', for_each (aggregate_step data index_map) rest.*1 st = Ret st'
              /\ accumulated (px ++ rest) st'.
Proof.
  induction rest as [|p rest IH]; intros px st Hrest Hacc.
  - exists st. split; [done|]. by rewrite app_nil_r.
  - apply Forall_cons in Hrest as [[Hl Hx] Hrest].
    destruct (aggregate_step_accumulated data index_map px st p Hl Hx Hacc)
      as (st1 & Hstep & Hacc1).
    destruct (IH (px ++ [p]) st1 Hrest Hacc1) as (st' & Hrun & Hacc').
    exists st'. rewrite fmap_cons, for_each_cons, Hstep. simpl.
    split; [done|]. by rewrite <- app_assoc in Hacc'.
Qed.

Lemma element_row_major (a : ndarray D) :
  well_shaped a ->
  Forall2 (fun c x => element a c = Ret x) (all_coords (shape a)) (flat a).
Proof.
  intros H. eapply Forall2_impl; [by apply getitem_row_major|].
  intros c x Hc. unfold element. by rewrite Hc.
Qed.

Lemma aggregate_accumulated data index_map :
  well_shaped data -> well_shaped index_map -> shape index_map = shape data ->
  exists ag, aggregate data index_map = Ret ag
             /\ accumulated (pixels data index_map) ag.
Proof.
  intros Hd Hi Hsh. unfold aggregate.
  pose proof (getitem_row_major index_map Hi) as Hl. rewrite Hsh in Hl.
  pose proof (element_row_major data Hd) as Hx.
  pose proof (Forall2_zip3 _ _ _ _ _ Hl Hx) as Hpx.
  destruct (aggregate_loop_accumulated data index_map _ [] (∅, ∅) Hpx)
    as (ag & Hrun & Hacc).
  { intros v. simpl. rewrite !lookup_empty. unfold group, labelled.
    rewrite filter_nil. by destruct (decide (v = 0)). }
  exists ag. split; [|done].
  unfold pixels in Hrun. rewrite fst_zip in Hrun; [done|].
  rewrite length_zip. apply Forall2_length in Hl, Hx. lia.
Qed.

(** *** What the builder puts into a node *)

Lemma subnodes_unfold (n : Structure D) :
  subnodes n = n :: (children n ≫= subnodes).
Proof.
  destruct n as [i v cs k l]. simpl. f_equal.
Qed.

Lemma subscript_Ret {V} (m : gmap Z V) k v :
  subscript m k = Ret v -> m !! k = Some v.
Proof. unfold subscript. destruct (m !! k); by intros [= ->]. Qed.

(** Every node built is given the two lists recorded under its identity. *)
Definition from_aggregator (fx : gmap Z (list D)) (ix : gmap Z (list coord))
    (m : Structure D) : Prop :=
  ix !! idx m = Some (indices m) /\ fx !! idx m = Some (values m).

Lemma construct_from_aggregator fuel : forall items fx ix k nodes,
  _construct_tree iter_order fuel items fx ix k = Ret nodes ->
  Forall (from_aggregator fx ix) (nodes ≫= subnodes).
Proof.
  induction fuel as [|fuel IH]; intros items fx ix k nodes; simpl; [done|].
  destruct (items !! k) as [repr|]; [|done].
  apply (for_each_invariant
           (fun acc => Forall (from_aggregator fx ix) (acc ≫= subnodes)));
    [|constructor].
  intros acc i acc' _ Hacc Hbody.
  apply bind_Ret in Hbody as (ni & Hni%subscript_Ret & Hbody).
  apply bind_Ret in Hbody as (f & Hf%subscript_Ret & Hbody).
  destruct (dict_get repr i) as [[h|ref old]|]; [| |done].
  - inversion Hbody; subst. rewrite bind_app. apply Forall_app. split; [done|].
    rewrite bind_cons, subnodes_unfold. simpl.
    by repeat constructor.
  - apply bind_Ret in Hbody as (subs & Hsubs%IH & Hbody).
    destruct (items !! Id ref) as [sr|]; [|done].
    apply bind_Ret in Hbody as (fc & _ & Hbody).
    inversion Hbody; subst. rewrite bind_app. apply Forall_app. split; [done|].
    rewrite bind_cons, subnodes_unfold. simpl. rewrite app_nil_r.
    constructor; [done|]. done.
Qed.

Lemma set_level_subnodes l (n : Structure D) :
  subnodes (set_level l n) = set_level l n :: (children n ≫= subnodes).
Proof. by rewrite subnodes_unfold. Qed.

Lemma import_Ret (h5f : h5file D) d :
  dendro_import_hdf5 iter_order limit h5f = Ret d ->
  exists ag items tr,
    aggregate (ds_data h5f) (ds_index_map h5f) = Ret ag
    /\ _parse_newick iter_order limit (ds_newick h5f) = Ret items
    /\ _construct_tree iter_order limit items ag.1 ag.2 Trunk = Ret tr
    /\ d = mk_Dendrogram (attr_n_dim h5f) (ds_data h5f) (ds_index_map h5f)
                         (set_level 0 <$> tr).
Proof.
  unfold dendro_import_hdf5. intros H.
  apply bind_Ret in H as (ag & Hag & H).
  apply bind_Ret in H as (items & Hit & H).
  apply bind_Ret in H as (tr & Htr & H).
  inversion H; subst. eauto 10.
Qed.

Lemma import_from_aggregator (h5f : h5file D) d :
  dendro_import_hdf5 iter_order limit h5f = Ret d ->
  exists ag, aggregate (ds_data h5f) (ds_index_map h5f) = Ret ag
             /\ Forall (from_aggregator ag.1 ag.2) (nodes_of d).
Proof.
  intros (ag & items & tr & Hag & _ & Htr & ->)%import_Ret.
  exists ag. split; [done|].
  apply construct_from_aggregator in Htr.
  unfold nodes_of. simpl. clear -Htr.
  induction tr as [|n tr IH]; [constructor|].
  rewrite bind_cons in Htr. apply Forall_app in Htr as [Hn Htr].
  rewrite fmap_cons, bind_cons. apply Forall_app. split; [|by apply IH].
  rewrite subnodes_unfold in Hn. rewrite set_level_subnodes.
  apply Forall_cons in Hn as [Hn Hc]. by constructor.
Qed.

(** Every coordinate recorded under a key carries that key in the label
    array, and the value recorded beside it is the data value there. *)
Definition read_back (data : ndarray D) (index_map : ndarray Z)
    (st : gmap Z (list D) * gmap Z (list coord)) : Prop :=
  forall k il fl, st.2 !! k = Some il -> st.1 !! k = Some fl ->
    Forall2 (fun c v => getitem index_map c = Ret (Scalar k)
                        /\ element data c = Ret v) il fl.

Lemma aggregate_step_read_back data index_map st c st' :
  read_back data index_map st ->
  aggregate_step data index_map st c = Ret st' ->
  read_back data index_map st'.
Proof.
  intros Hinv. unfold aggregate_step. destruct st as [fx ix].
  intros H. apply bind_Ret in H as (i & Hi & H).
  apply bind_Ret in H as (b & Hb & H).
  destruct b; [|by inversion H; subst].
  apply bind_Ret in H as (x & Hx & H).
  destruct (truth_hashable _ _ Hb Hx) as [-> Hx0].
  assert (forall v, element data c = Ret v ->
            Forall2 (fun c v => getitem index_map c = Ret (Scalar x)
                                /\ element data c = Ret v) [c] [v]) as Hone.
  { intros v Hv. by repeat constructor. }
  destruct (fx !! x) as [fl|] eqn:Efx.
  - apply bind_Ret in H as (v & Hv & H).
    destruct (ix !! x) as [il|] eqn:Eix.
    + inversion H; subst. intros k il' fl'. simpl.
      destruct (decide (k = x)) as [->|Hne].
      * rewrite !lookup_insert_eq. intros [= <-] [= <-].
        apply Forall2_app; [by apply (Hinv x)|by apply Hone].
      * rewrite !lookup_insert_ne by done. apply (Hinv k).
    + apply bind_Ret in H as (v' & Hv' & H).
      inversion H; subst. intros k il' fl'. simpl.
      destruct (decide (k = x)) as [->|Hne].
      * rewrite !lookup_insert_eq. intros [= <-] [= <-]. by apply Hone.
      * rewrite !lookup_insert_ne by done. apply (Hinv k).
  - apply bind_Ret in H as (v & Hv & H).
    inversion H; subst. intros k il' fl'. simpl.
    destruct (decide (k = x)) as [->|Hne].
    + rewrite !lookup_insert_eq. intros [= <-] [= <-]. by apply Hone.
    + rewrite !lookup_insert_ne by done. apply (Hinv k).
Qed.

Lemma aggregate_read_back data index_map ag :
  aggregate data index_map = Ret ag -> read_back data index_map ag.
Proof.
  unfold aggregate.
  apply (for_each_invariant (read_back data index_map)).
  - intros st c st' _. apply aggregate_step_read_back.
  - intros k il fl. simpl. by rewrite lookup_empty.
Qed.

(** C2 (amended). The builder hands every node, branch or leaf alike, the
    two lists that the aggregation loop recorded under the identity of
    the node: [indices_by_node[idx]] and [flux_by_node[idx]].  So in a
    returned dendrogram every node owns at least one coordinate, with as
    many values as coordinates; every coordinate it owns carries the
    identity of the node in the label array, and the value beside it is
    the data value at that coordinate.  A branch owns pixels labelled with
    its own identity. *)
Theorem every_node_owns_pixels (h5f : h5file D) (d : Dendrogram D) :
  dendro_import_hdf5 iter_order limit h5f = Ret d ->
  exists flux_by_node indices_by_node,
    aggregate (ds_data h5f) (ds_index_map h5f)
    = Ret (flux_by_node, indices_by_node)
    /\ forall n, n ∈ nodes_of d ->
         indices_by_node !! idx n = Some (indices n)
         /\ flux_by_node !! idx n = Some (values n)
         /\ indices n ≠ [] /\ values n ≠ []
         /\ length (values n) = length (indices n)
         /\ Forall2 (fun c v =>
                       getitem (ds_index_map h5f) c = Ret (Scalar (idx n))
                       /\ element (ds_data h5f) c = Ret v)
                    (indices n) (values n).
Proof.
  intros (ag & Hag & Hall)%import_from_aggregator.
  destruct ag as [fx ix]. exists fx, ix. split; [done|]. intros n Hn.
  rewrite Forall_forall in Hall. destruct (Hall n Hn) as [Hi Hf].
  simpl in Hi, Hf.
  pose proof (aggregate_parallel _ _ _ Hag (idx n)) as Hp.
  simpl in Hp. rewrite Hi, Hf in Hp. destruct Hp as (Hne & Hlen & _).
  pose proof (aggregate_read_back _ _ _ Hag (idx n) _ _ Hi Hf) as Hrb.
  repeat split; try done.
  intros Hv. rewrite Hv in Hlen. by destruct (indices n).
Qed.


(** C5. The aggregation loop visits the coordinates of the arrays once,
    first axis slowest, and leaves under each non-zero label the
    coordinates that carry it and their data values, both in the order of
    the traversal; the format with two leaves listed by the trunk decodes
    to these two leaves. *)
Theorem aggregation_in_traversal_order :
  (forall (data : ndarray D) (index_map : ndarray Z),
      well_shaped data -> well_shaped index_map ->
      shape index_map = shape data ->
      exists flux_by_node indices_by_node,
        aggregate data index_map = Ret (flux_by_node, indices_by_node)
        /\ forall v,
            indices_by_node !! v = group fst v (pixels data index_map)
            /\ flux_by_node !! v
               = group (fun p => p.2.2) v (pixels data index_map))
  /\ (forall (d0 d1 d2 d3 d4 d5 : D) n,
        dendro_import_hdf5 insertion_order (S n)
          (mk_h5file 1 (arr1 [d0; d1; d2; d3; d4; d5])
                     (arr1 [1; 1; 0; 2; 2; 2]) two_leaves)
        = Ret (mk_Dendrogram 1 (arr1 [d0; d1; d2; d3; d4; d5])
                 (arr1 [1; 1; 0; 2; 2; 2])
                 [mk_Structure [[0]; [1]]%nat [d0; d1] [] 1 (Some 0);
                  mk_Structure [[3]; [4]; [5]]%nat [d3; d4; d5] [] 2 (Some 0)])).
Proof.
  split.
  - intros data index_map Hd Hi Hsh.
    destruct (aggregate_accumulated _ _ Hd Hi Hsh) as ([fx ix] & Hag & Hacc).
    exists fx, ix. split; [done|]. apply Hacc.
  - intros. vm_compute. reflexivity.
Qed.

(** C1 (amended). With the identity written right after the closing
    parenthesis and one pixel labelled 3, the scenario decodes: the parsed
    mapping carries the height 4.0 beside the mapping of branch 3, and the
    tree has one root, the branch 3, which owns its own pixel and has the
    leaves 1 and 2 as children.  The node is not given the height. *)
Theorem branch_scenario_decodes (d0 d1 d2 d3 d4 : D) (n : nat) :
  (exists items,
      _parse_newick insertion_order (S (S n)) branch_id = Ret items
      /\ view_dict 2 items Trunk
         = Some [(3, NPair [(1, NHeight 1); (2, NHeight (3 # 2))] (NHeight 4))])
  /\ dendro_import_hdf5 insertion_order (S (S n))
       (mk_h5file 1 (arr1 [d0; d1; d2; d3; d4]) (arr1 [1; 1; 2; 2; 3]) branch_id)
     = Ret (mk_Dendrogram 1 (arr1 [d0; d1; d2; d3; d4]) (arr1 [1; 1; 2; 2; 3])
              [mk_Structure [[4]]%nat [d4]
                 [mk_Structure [[0]; [1]]%nat [d0; d1] [] 1 None;
                  mk_Structure [[2]; [3]]%nat [d2; d3] [] 2 None]
                 3 (Some 0)]).
Proof.
  split.
  - eexists. split; [vm_compute; reflexivity|]. vm_compute. reflexivity.
  - vm_compute. reflexivity.
Qed.

(** C4 (amended). The parser on a document of the format it accepts:
    a branch is its parenthesised entries followed at once by
    [identity:height], the group of the roots is followed by at most one
    character, the literals are decimal, the identities are pairwise
    distinct and the nesting is below the recursion limit.  Phase 1 cuts
    out every group, deepest level first and from right to left within a
    level, leaves the terminator alone and binds the flat dictionary of
    every group to its identity; phase 2 returns the nested mapping of the
    document, in which a leaf has a height and a branch has the pair of
    the mapping of its children and its height. *)
Theorem parse_well_formed (roots : list entry) (term : pystr) :
  well_formed roots term ->
  (forest_depth roots < limit)%nat ->
  (forall ks, NoDup ks -> iter_order ks ≡ₚ ks) ->
  exists table st items,
    phase1 (print_document roots term) = Ret (term, table, st)
    /\ flat_table roots table
    /\ _parse_newick iter_order limit (print_document roots term) = Ret items
    /\ view_dict (S (forest_depth roots)) items Trunk
       = Some (nested_of <$> roots).
Proof.
  intros Hwf Hlimit Hperm.
  destruct (parse_document iter_order limit Hperm roots term Hwf Hlimit)
    as (table & st & items & H1 & H2 & H3 & _ & _ & H4).
  by exists table, st, items.
Qed.

(** *** The loop of the builder *)

(** Body of the loop of [_construct_tree]. *)
Definition construct_body (fuel : nat) (items : gmap key dict)
    (fx : gmap Z (list D)) (ix : gmap Z (list coord)) (repr : dict)
    (nodes : list (Structure D)) (i : Z) : outcome (list (Structure D)) :=
  node_indices ← subscript ix i;
  f ← subscript fx i;
  match dict_get repr i with
  | None => Raise (KeyError (Id i))
  | Some (VTuple ref _) =>
      sub_nodes ← _construct_tree iter_order fuel items fx ix (Id ref);
      match items !! Id ref with
      | None => Raise (KeyError (Id ref))
      | Some sub_nodes_repr =>
          first_child_repr ← first_value iter_order sub_nodes_repr;
          Ret (nodes ++ [mk_Structure node_indices f sub_nodes i None])
      end
  | Some (VNum _) => Ret (nodes ++ [mk_Structure node_indices f [] i None])
  end.

Lemma construct_S fuel items fx ix k :
  _construct_tree iter_order (S fuel) items fx ix k
  = match items !! k with
    | None => Raise (KeyError k)
    | Some repr =>
        for_each (construct_body fuel items fx ix repr)
                 (iter_order (dict_keys repr)) []
    end.
Proof. done. Qed.

End Properties.


(** * The statements at concrete files *)

Lemma import_branch :
  dendro_import_hdf5 insertion_order 1000 file_branch = Ret dendrogram_branch.
Proof. vm_compute. reflexivity. Qed.

Lemma import_two_leaves :
  dendro_import_hdf5 insertion_order 1000 file_two_leaves
  = Ret dendrogram_two_leaves.
Proof. vm_compute. reflexivity. Qed.

Lemma import_stray_label :
  dendro_import_hdf5 insertion_order 1000 file_stray_label
  = Ret dendrogram_stray_label.
Proof. vm_compute. reflexivity. Qed.

Ltac not_in_string :=
  let H := fresh in
  intros H; vm_compute in H;
  repeat (apply elem_of_cons in H as [H|H]; [discriminate H|]);
  by apply elem_of_nil in H.

(** C1, as stated: the string with a colon before the identity of the
    branch is rejected.  The first span cut out leaves ["(:3:4.0):"], whose
    content [":3:4.0"] is not a dictionary display.  With the identity
    right after the parenthesis and the labels of the scenario, branch 3
    has no pixel and the builder raises. *)
Lemma colon_before_identity_is_rejected :
  dendro_import_hdf5 insertion_order 1000 file_branch_colon_id = Raise SyntaxError
  /\ dendro_import_hdf5 insertion_order 1000 file_branch_unlabelled
     = Raise (KeyError (Id 3)).
Proof. split; vm_compute; reflexivity. Qed.

(** C2, as stated: a branch of a returned dendrogram owns a pixel. *)
Lemma branch_owns_pixels :
  dendro_import_hdf5 insertion_order 1000 file_branch = Ret dendrogram_branch
  /\ branch_3 ∈ nodes_of dendrogram_branch
  /\ is_branch branch_3
  /\ indices branch_3 = [[4%nat]] /\ values branch_3 = [14].
Proof.
  split; [apply import_branch|].
  split; [vm_compute; constructor|].
  split; [|done]. vm_compute. discriminate.
Qed.



Lemma every_node_owns_pixels_witness :
  dendro_import_hdf5 insertion_order 1000 file_branch = Ret dendrogram_branch
  /\ branch_3 ∈ nodes_of dendrogram_branch
  /\ exists flux_by_node indices_by_node,
       aggregate (ds_data file_branch) (ds_index_map file_branch)
       = Ret (flux_by_node, indices_by_node)
       /\ indices_by_node !! 3 = Some [[4%nat]]
       /\ flux_by_node !! 3 = Some [14]
       /\ indices branch_3 ≠ [] /\ values branch_3 ≠ []
       /\ length (values branch_3) = length (indices branch_3)
       /\ Forall2 (fun c v =>
                     getitem (ds_index_map file_branch) c = Ret (Scalar 3)
                     /\ element (ds_data file_branch) c = Ret v)
                  (indices branch_3) (values branch_3).
Proof.
  split; [vm_compute; reflexivity|].
  split; [vm_compute; constructor|].
  destruct (every_node_owns_pixels insertion_order 1000 file_branch
              dendrogram_branch) as (fx & ix & Hag & Hn).
  { vm_compute. reflexivity. }
  exists fx, ix. split; [exact Hag|].
  apply (Hn branch_3). vm_compute. constructor.
Defined.


Lemma aggregation_in_traversal_order_witness :
  well_shaped (ds_data file_two_leaves)
  /\ well_shaped (ds_index_map file_two_leaves)
  /\ shape (ds_index_map file_two_leaves) = shape (ds_data file_two_leaves)
  /\ exists flux_by_node indices_by_node,
       aggregate (ds_data file_two_leaves) (ds_index_map file_two_leaves)
       = Ret (flux_by_node, indices_by_node)
       /\ indices_by_node !! 2 = Some [[3]; [4]; [5]]%nat
       /\ flux_by_node !! 2 = Some [13; 14; 15].
Proof.
  split; [reflexivity|]. split; [reflexivity|]. split; [reflexivity|].
  destruct (proj1 (@aggregation_in_traversal_order Z)
              (ds_data file_two_leaves) (ds_index_map file_two_leaves)
              eq_refl eq_refl eq_refl) as (fx & ix & Hag & Hv).
  exists fx, ix. split; [exact Hag|]. exact (Hv 2).
Defined.



Lemma trunk_level_zero_witness :
  dendro_import_hdf5 insertion_order 1000 file_two_leaves
  = Ret dendrogram_two_leaves
  /\ Forall (fun node => _level node = Some 0) (trunk dendrogram_two_leaves).
Proof.
  split; [vm_compute; reflexivity|].
  apply (trunk_level_zero insertion_order 1000 file_two_leaves
           dendrogram_two_leaves).
  vm_compute. reflexivity.
Defined.

Lemma nested_document_well_formed : well_formed nested_document (py ";").
Proof.
  split.
  - repeat constructor; eexists; vm_compute; reflexivity.
  - apply (bool_decide_unpack _). vm_compute. exact I.
  - simpl. lia.
  - split; not_in_string.
Qed.

(** C4, as stated: the scenario string follows the grammar with a colon
    before the identity of the branch, and the parser rejects it. *)
Lemma colon_grammar_is_rejected :
  _parse_newick insertion_order 1000 branch_colon_id = Raise SyntaxError.
Proof. vm_compute. reflexivity. Qed.

Lemma parse_well_formed_witness :
  well_formed nested_document (py ";")
  /\ (forest_depth nested_document < 1000)%nat
  /\ (forall ks, NoDup ks -> insertion_order ks ≡ₚ ks)
  /\ exists table st items,
       phase1 (print_document nested_document (py ";"))
       = Ret (py ";", table, st)
       /\ flat_table nested_document table
       /\ _parse_newick insertion_order 1000
            (print_document nested_document (py ";")) = Ret items
       /\ view_dict (S (forest_depth nested_document)) items Trunk
          = Some (nested_of <$> nested_document).
Proof.
  split; [apply nested_document_well_formed|].
  split; [vm_compute; lia|].
  split; [reflexivity|].
  apply (parse_well_formed insertion_order 1000 nested_document (py ";")).
  - apply nested_document_well_formed.
  - vm_compute. lia.
  - reflexivity.
Defined.


(** * Further properties of the decoder

    What the parser and the importer do on whole classes of inputs: the
    table and the tree of a well-formed document, the exceptions, arrays
    of different shapes, the recursion limit. *)

(** ** The table that the parser returns *)

(** The entries of a document that are groups. *)
Definition groups_of (roots : list entry) : list entry :=
  filter (fun b => is_group b = true) (roots ≫= entries_of).

(** The dictionary of the roots under ['trunk'] and the dictionary of
    every group under its identity, each with its groups linked. *)
Definition linked_table (roots : list entry) : gmap key dict :=
  <[Trunk := linked_dict roots]>
    (list_to_map ((fun b => (Id (id_of b), linked_dict (subs b)))
                    <$> groups_of roots)).

Lemma linked_table_group roots b :
  tidy roots -> b ∈ roots ≫= entries_of -> is_group b = true ->
  linked_table roots !! Id (id_of b) = Some (linked_dict (subs b)).
Proof.
  intros [_ Hnd] Hb Hg. unfold linked_table.
  rewrite lookup_insert_ne by done.
  apply list_to_map_unique.
  - apply (list_elem_of_fmap_2 (fun b => (Id (id_of b), linked_dict (subs b)))).
    unfold groups_of. by apply list_elem_of_filter.
  - intros d' (b' & [= Hid ->] & [_ Hb']%list_elem_of_filter)%list_elem_of_fmap.
    by rewrite (NoDup_fmap_same id_of _ b b' Hnd Hb Hb' Hid).
Qed.

Lemma linked_table_other roots i :
  (forall b, b ∈ roots ≫= entries_of -> is_group b = true -> id_of b ≠ i) ->
  linked_table roots !! Id i = None.
Proof.
  intros Hno. unfold linked_table. rewrite lookup_insert_ne by done.
  apply not_elem_of_list_to_map_1.
  rewrite <- list_fmap_compose.
  intros (b & [= Hid] & [Hg Hb]%list_elem_of_filter)%list_elem_of_fmap.
  by apply (Hno b).
Qed.

Lemma parse_linked_table iter_order limit roots term :
  (forall ks, NoDup ks -> iter_order ks ≡ₚ ks) ->
  well_formed roots term -> (forest_depth roots < limit)%nat ->
  _parse_newick iter_order limit (print_document roots term)
  = Ret (linked_table roots).
Proof.
  intros Hperm [Hlit Hnd Hshort Hplain] Hlimit.
  assert (tidy roots) as Ht by done.
  destruct (phase1_document roots term Ht Hplain Hshort) as (M & st & HM & Hph).
  pose proof (flat_table_bindings M roots Ht HM) as Hflat.
  set (table := ins ∅ (all_bindings M roots)) in *.
  destruct (collect_links_all iter_order Hperm limit Trunk roots table
              Hlimit Ht ltac:(done) (flat_table_linking _ _ Hflat))
    as (items & Hrun & [Hhere Hbelow Hframe]).
  unfold _parse_newick. rewrite Hph, ret_bind. cbn [fst snd].
  rewrite (flat_trunk _ _ Hflat), Hrun. f_equal.
  apply map_eq. intros [|i].
  - rewrite Hhere. unfold linked_table. rewrite lookup_insert_eq. f_equal.
    apply partial_dict_all. intros c Hc. by apply list_elem_of_fmap_2.
  - destruct (decide (i ∈ id_of <$> (roots ≫= entries_of))) as [Hin|Hout].
    + apply list_elem_of_fmap in Hin as (b & -> & Hb).
      pose proof Hb as (c & Hbc & Hc)%list_elem_of_bind.
      rewrite (Hbelow c b Hc Hbc).
      assert (bool_decide (id_of c ∈ id_of <$> roots) = true) as ->
        by (by apply bool_decide_eq_true_2, list_elem_of_fmap_2).
      destruct (is_group b) eqn:Hg.
      * by rewrite linked_table_group.
      * symmetry. apply linked_table_other. intros b' Hb' Hg' Hid.
        rewrite (NoDup_fmap_same id_of _ b' b Hnd Hb' Hb Hid) in Hg'. congruence.
    + rewrite Hframe; [|done|].
      2:{ intros x Hx [= ->]. apply Hout. by apply list_elem_of_fmap_2. }
      rewrite linked_table_other.
      2:{ intros b Hb _ <-. apply Hout. by apply list_elem_of_fmap_2. }
      unfold table. rewrite ins_empty. apply not_elem_of_list_to_map_1.
      intros ([k d] & Hk & Hin)%list_elem_of_fmap. simpl in Hk. subst k.
      apply all_bindings_sound in Hin as [[[=] _]|(b & Hb & _ & [= ->] & _)].
      apply Hout. by apply list_elem_of_fmap_2.
Qed.

(** X1. On a well-formed document the parser returns exactly one table:
    the dictionary of the roots under ['trunk'] and the dictionary of
    every group under its identity, each group entry replaced by the
    pair of the dictionary of the group and its height, and nothing
    else.  The table depends neither on the terminator, nor on the order
    of iteration, nor on the recursion limit once it exceeds the depth of
    the document. *)
Theorem parser_returns_linked_table (iter_order : list Z -> list Z)
    (limit : nat) (roots : list entry) (term : pystr) :
  (forall ks, NoDup ks -> iter_order ks ≡ₚ ks) ->
  well_formed roots term -> (forest_depth roots < limit)%nat ->
  _parse_newick iter_order limit (print_document roots term)
  = Ret (linked_table roots).
Proof. apply parse_linked_table. Qed.

Lemma parser_returns_linked_table_witness :
  _parse_newick insertion_order 1000 (print_document nested_document (py ";"))
  = Ret (linked_table nested_document).
Proof.
  apply (parser_returns_linked_table insertion_order 1000 nested_document
           (py ";")).
  - reflexivity.
  - apply nested_document_well_formed.
  - vm_compute. lia.
Defined.

(** ** The tree that the builder makes of a document *)

(** The first element of [l] with the key [i]. *)
Fixpoint with_key {A} (key : A -> Z) (i : Z) (l : list A) : option A :=
  match l with
  | [] => None
  | x :: l' => if decide (key x = i) then Some x else with_key key i l'
  end.

(** The elements of [l] in the order in which the interpreter iterates
    over a dictionary that has their keys. *)
Definition in_order {A} (iter_order : list Z -> list Z) (key : A -> Z)
    (l : list A) : list A :=
  omap (fun i => with_key key i l) (iter_order (key <$> l)).

(** The node of an entry: the pixels and values of its identity, and the
    nodes of its children in iteration order. *)
Fixpoint tree_of {D} (iter_order : list Z -> list Z)
    (pix : Z -> list coord) (val : Z -> list D) (e : entry) : Structure D :=
  mk_Structure (pix (id_of e)) (val (id_of e))
    match e with
    | ELeaf _ _ => []
    | EBranch cs _ _ =>
        in_order iter_order idx
          ((fix go (l : list entry) : list (Structure D) :=
              match l with
              | [] => []
              | c :: l' => tree_of iter_order pix val c :: go l'
              end) cs)
    end
    (id_of e) None.

Lemma with_key_Some {A} (key : A -> Z) i l x :
  with_key key i l = Some x -> x ∈ l /\ key x = i.
Proof.
  induction l as [|y l IH]; simpl; [done|].
  destruct (decide (key y = i)) as [Hy|Hy].
  - intros [= ->]. split; [apply list_elem_of_here|done].
  - intros [Hx Hk]%IH. split; [by apply list_elem_of_further|done].
Qed.

Lemma with_key_elem {A} (key : A -> Z) l x :
  NoDup (key <$> l) -> x ∈ l -> with_key key (key x) l = Some x.
Proof.
  induction l as [|y l IH]; [by intros _ ?%elem_of_nil|].
  rewrite fmap_cons. intros [Hy Hnd]%NoDup_cons Hx. simpl.
  destruct (decide (key y = key x)) as [Heq|Hne].
  - apply elem_of_cons in Hx as [->|Hx]; [done|].
    exfalso. apply Hy. rewrite Heq. by apply list_elem_of_fmap_2.
  - apply elem_of_cons in Hx as [->|Hx]; [done|]. by apply IH.
Qed.

Lemma with_key_fmap {A B} (key : A -> Z) (key' : B -> Z) (f : A -> B) i l :
  (forall x, key' (f x) = key x) ->
  with_key key' i (f <$> l) = f <$> with_key key i l.
Proof.
  intros Hf. induction l as [|x l IH]; [done|].
  rewrite fmap_cons. simpl. rewrite Hf.
  by destruct (decide (key x = i)).
Qed.

Lemma omap_pointwise {A B} (f g : A -> option B) (l : list A) :
  (forall x, f x = g x) -> omap f l = omap g l.
Proof.
  intros H. induction l as [|x l IH]; [done|].
  change (omap f (x :: l))
    with (match f x with Some y => y :: omap f l | None => omap f l end).
  change (omap g (x :: l))
    with (match g x with Some y => y :: omap g l | None => omap g l end).
  by rewrite H, IH.
Qed.

Lemma in_order_fmap {A B} iter_order (key : A -> Z) (key' : B -> Z)
    (f : A -> B) l :
  (forall x, key' (f x) = key x) ->
  in_order iter_order key' (f <$> l) = f <$> in_order iter_order key l.
Proof.
  intros Hf. unfold in_order. rewrite list_fmap_omap, <- list_fmap_compose.
  rewrite (list_fmap_ext (key' ∘ f) key l) by (intros; apply Hf).
  apply omap_pointwise. intros i. by apply with_key_fmap.
Qed.

Lemma omap_with_key {A} (key : A -> Z) (L l : list A) :
  NoDup (key <$> L) -> (forall x, x ∈ l -> x ∈ L) ->
  omap (fun i => with_key key i L) (key <$> l) = l.
Proof.
  intros Hnd. induction l as [|x l IH]; intros Hl; [done|].
  rewrite fmap_cons. simpl.
  rewrite with_key_elem by (done || apply Hl, list_elem_of_here).
  f_equal. apply IH. intros y Hy. by apply Hl, list_elem_of_further.
Qed.

Lemma bind_one {A B} (f : A -> list B) x : [x] ≫= f = f x.
Proof. rewrite bind_cons. apply app_nil_r. Qed.

Section Order.

Context {A : Type}.
Variable iter_order : list Z -> list Z.
Hypothesis iter_order_perm : forall ks, NoDup ks -> iter_order ks ≡ₚ ks.
Variable key : A -> Z.

Lemma in_order_perm l : NoDup (key <$> l) -> in_order iter_order key l ≡ₚ l.
Proof.
  intros Hnd. unfold in_order. rewrite (iter_order_perm _ Hnd).
  by rewrite omap_with_key.
Qed.

Lemma in_order_elem l x :
  NoDup (key <$> l) -> x ∈ in_order iter_order key l <-> x ∈ l.
Proof. intros Hnd. by rewrite in_order_perm. Qed.

Lemma in_order_keys l :
  NoDup (key <$> l) ->
  key <$> in_order iter_order key l = iter_order (key <$> l).
Proof.
  intros Hnd. unfold in_order.
  assert (forall i, i ∈ iter_order (key <$> l) -> i ∈ key <$> l) as Hin.
  { intros i. by rewrite (iter_order_perm _ Hnd). }
  induction (iter_order (key <$> l)) as [|j js IH]; [done|]. simpl.
  pose proof (Hin j (list_elem_of_here _ _)) as (x & -> & Hx)%list_elem_of_fmap.
  rewrite with_key_elem by done. rewrite fmap_cons. f_equal.
  apply IH. intros i Hi. by apply Hin, list_elem_of_further.
Qed.

Lemma in_order_nil : in_order iter_order key [] = [].
Proof.
  unfold in_order. simpl.
  pose proof (iter_order_perm [] (NoDup_nil_2)) as H.
  apply Permutation_nil_r in H. by rewrite H.
Qed.

End Order.

Section Builder.

Context {D : Type}.
Variable iter_order : list Z -> list Z.
Hypothesis iter_order_perm : forall ks, NoDup ks -> iter_order ks ≡ₚ ks.

(** The two dictionaries of the aggregation loop, and the lists they hold
    under an identity. *)
Variable fx : gmap Z (list D).
Variable ix : gmap Z (list coord).
Variable pix : Z -> list coord.
Variable val : Z -> list D.
Hypothesis pix_ix : forall i l, ix !! i = Some l -> pix i = l.
Hypothesis val_fx : forall i l, fx !! i = Some l -> val i = l.

(** What stops the builder at an entry: an identity without pixels is a
    [KeyError]; a group without entries has no first child. *)
Definition fault (e : entry) : option exn :=
  match ix !! id_of e, fx !! id_of e with
  | Some _, Some _ =>
      match e with
      | EBranch [] _ _ => Some StopIteration
      | _ => None
      end
  | _, _ => Some (KeyError (Id (id_of e)))
  end.

Abbreviation node_of := (tree_of iter_order pix val).

(** The builder has appended the nodes of [es] to [acc], or has stopped
    at an entry below [es]. *)
Definition built (es : list entry) (acc : list (Structure D))
    (r : outcome (list (Structure D))) : Prop :=
  (Forall (fun b => fault b = None) (es ≫= entries_of)
   /\ r = Ret (acc ++ (node_of <$> es)))
  \/ (exists b e, b ∈ es ≫= entries_of /\ fault b = Some e /\ r = Raise e).

Lemma tree_of_unfold e :
  node_of e
  = mk_Structure (pix (id_of e)) (val (id_of e))
      match e with
      | ELeaf _ _ => []
      | EBranch cs _ _ => in_order iter_order idx (node_of <$> cs)
      end
      (id_of e) None.
Proof. destruct e as [i h|cs i h]; simpl; [done|]. do 2 f_equal. Qed.

Lemma idx_tree_of e : idx (node_of e) = id_of e.
Proof. by destruct e. Qed.

Definition construct_spec (fuel : nat) : Prop :=
  forall cs k items,
    (forest_depth cs < fuel)%nat -> tidy cs ->
    items !! k = Some (linked_dict cs) ->
    (forall b, b ∈ cs ≫= entries_of -> is_group b = true ->
               items !! Id (id_of b) = Some (linked_dict (subs b))) ->
    built (in_order iter_order id_of cs) []
          (_construct_tree iter_order fuel items fx ix k).

Lemma in_order_below cs b :
  tidy cs ->
  b ∈ in_order iter_order id_of cs ≫= entries_of <-> b ∈ cs ≫= entries_of.
Proof.
  intros Ht%tidy_distinct. rewrite !list_elem_of_bind.
  split; intros (c & Hb & Hc); exists c; split; try done;
    by apply (in_order_elem iter_order iter_order_perm id_of cs c Ht).
Qed.

Lemma construct_body_entry fuel cs items nodes c :
  construct_spec fuel ->
  (forest_depth cs < S fuel)%nat -> tidy cs ->
  (forall b, b ∈ cs ≫= entries_of -> is_group b = true ->
             items !! Id (id_of b) = Some (linked_dict (subs b))) ->
  c ∈ cs ->
  built [c] nodes
    (construct_body iter_order fuel items fx ix (linked_dict cs) nodes (id_of c)).
Proof.
  intros IH Hfd Ht Hgroups Hc. unfold built. rewrite bind_one.
  unfold construct_body, subscript.
  destruct (ix !! id_of c) as [ni|] eqn:Eix.
  2:{ right. exists c, (KeyError (Id (id_of c))).
      split; [apply entry_in_entries|]. split; [|done].
      unfold fault. by rewrite Eix. }
  destruct (fx !! id_of c) as [f|] eqn:Efx.
  2:{ right. exists c, (KeyError (Id (id_of c))).
      split; [apply entry_in_entries|]. split; [|done].
      unfold fault. by rewrite Eix, Efx. }
  rewrite !ret_bind. unfold linked_dict.
  rewrite (dict_get_fmap linked_entry cs c) by (done || by apply tidy_distinct).
  change (node_of <$> [c]) with [node_of c].
  rewrite tree_of_unfold, (pix_ix _ _ Eix), (val_fx _ _ Efx).
  destruct c as [i h|sub i h].
  - left. split; [|done]. simpl. repeat constructor.
    unfold fault. by rewrite Eix, Efx.
  - cbn [linked_entry snd is_group].
    assert (tidy sub) as Hts.
    { pose proof (tidy_each _ Ht) as He. rewrite Forall_forall in He.
      by destruct (tidy_subs _ (He _ Hc)). }
    assert (forall b, b ∈ sub ≫= entries_of -> b ∈ cs ≫= entries_of) as Hsub.
    { intros b Hb. apply list_elem_of_bind. exists (EBranch sub i h).
      split; [|done]. rewrite entries_of_unfold. by apply list_elem_of_further. }
    assert (items !! Id (id_of (EBranch sub i h)) = Some (linked_dict sub))
      as Hlook.
    { apply (Hgroups (EBranch sub i h)); [by apply child_in_entries|done]. }
    destruct (IH sub (Id (id_of (EBranch sub i h))) items)
      as [[Hok ->]|(b & e & Hb & He & ->)].
    + pose proof (forest_depth_elem _ cs Hc) as Hd.
      rewrite depth_branch in Hd. lia.
    + done.
    + done.
    + intros b Hb. apply Hgroups. by apply Hsub.
    + rewrite ret_bind, Hlook. cbn [app].
      unfold first_value, linked_dict.
      rewrite (dict_keys_fmap linked_entry sub) by done.
      pose proof (iter_order_perm _ (tidy_distinct _ Hts)) as Hperm.
      destruct (iter_order (id_of <$> sub)) as [|k ks] eqn:Eks.
      * symmetry in Hperm. apply Permutation_nil_r, fmap_nil_inv in Hperm.
        subst sub.
        right. exists (EBranch [] i h), StopIteration.
        split; [apply entry_in_entries|]. split; [|done].
        unfold fault. by rewrite Eix, Efx.
      * assert (k ∈ id_of <$> sub) as (c' & -> & Hc')%list_elem_of_fmap.
        { rewrite <- Hperm. apply list_elem_of_here. }
        rewrite (dict_get_fmap linked_entry sub c')
          by (done || by apply tidy_distinct).
        rewrite ret_bind. left. split.
        -- rewrite entries_of_unfold. cbn [subs]. constructor.
           ++ unfold fault. rewrite Eix, Efx.
              destruct sub; [by apply elem_of_nil in Hc'|done].
           ++ apply Forall_forall. intros b Hb. rewrite Forall_forall in Hok.
              apply Hok. by apply (proj2 (in_order_below sub b Hts)).
        -- by rewrite (in_order_fmap iter_order id_of idx node_of sub idx_tree_of).
    + right. exists b, e. split; [|done].
      rewrite entries_of_unfold. apply list_elem_of_further.
      by apply (proj1 (in_order_below sub b Hts)).
Qed.

Lemma construct_loop fuel cs items :
  construct_spec fuel ->
  (forest_depth cs < S fuel)%nat -> tidy cs ->
  (forall b, b ∈ cs ≫= entries_of -> is_group b = true ->
             items !! Id (id_of b) = Some (linked_dict (subs b))) ->
  forall es acc, (forall c, c ∈ es -> c ∈ cs) ->
    built es acc
      (for_each (construct_body iter_order fuel items fx ix (linked_dict cs))
                (id_of <$> es) acc).
Proof.
  intros IH Hfd Ht Hgroups. induction es as [|c es IHes]; intros acc Hes.
  - left. split; [constructor|]. simpl. by rewrite app_nil_r.
  - rewrite fmap_cons, for_each_cons.
    destruct (construct_body_entry fuel cs items acc c IH Hfd Ht Hgroups)
      as [[Hok ->]|(b & e & Hb & He & ->)].
    + apply Hes, list_elem_of_here.
    + rewrite ret_bind. change (node_of <$> [c]) with [node_of c].
      destruct (IHes (acc ++ [node_of c])) as [[Hok' ->]|(b & e & Hb & He & ->)].
      * intros x Hx. by apply Hes, list_elem_of_further.
      * left. split.
        -- rewrite bind_cons. apply Forall_app. split; [|done].
           by rewrite bind_one in Hok.
        -- by rewrite fmap_cons, <- app_assoc.
      * right. exists b, e. split; [|done].
        rewrite bind_cons. apply elem_of_app. by right.
    + right. exists b, e. split; [|done].
      rewrite bind_cons. apply elem_of_app. left.
      by rewrite bind_one in Hb.
Qed.

Lemma construct_linked fuel : construct_spec fuel.
Proof.
  induction fuel as [|fuel IH]; intros cs k items Hfd Ht Hk Hgroups; [lia|].
  rewrite construct_S, Hk. unfold linked_dict.
  rewrite (dict_keys_fmap linked_entry cs) by done.
  rewrite <- (in_order_keys iter_order iter_order_perm id_of cs)
    by (by apply tidy_distinct).
  apply (construct_loop fuel cs items IH Hfd Ht Hgroups).
  intros c. by apply in_order_elem, tidy_distinct.
Qed.

End Builder.

(** The coordinates and the values of the pixels labelled [i], in
    traversal order. *)
Definition owned_coords {D} (data : ndarray D) (index_map : ndarray Z) (i : Z)
  : list coord :=
  (labelled i (pixels data index_map)).*1.

Definition owned_values {D} (data : ndarray D) (index_map : ndarray Z) (i : Z)
  : list D :=
  (fun p => p.2.2) <$> labelled i (pixels data index_map).

Definition file_nested : h5file Z :=
  mk_h5file 1 (arr1 [10; 11; 12; 13; 14; 15]) (arr1 [1; 7; 2; 3; 9; 0])
    (print_document nested_document (py ";")).

Section Decoding.

Context {D : Type}.
Variable iter_order : list Z -> list Z.
Variable limit : nat.
Hypothesis iter_order_perm : forall ks, NoDup ks -> iter_order ks ≡ₚ ks.

Lemma pixels_labels (data : ndarray D) index_map :
  well_shaped data -> well_shaped index_map -> shape index_map = shape data ->
  (fun p => p.2.1) <$> pixels data index_map = flat index_map.
Proof.
  intros Hd Hi Hsh.
  pose proof (Forall2_length _ _ _ (getitem_row_major index_map Hi)) as H1.
  pose proof (Forall2_length _ _ _ (getitem_row_major data Hd)) as H2.
  rewrite Hsh in H1. unfold pixels.
  rewrite (list_fmap_ext _ (fst ∘ snd) _) by done.
  rewrite (list_fmap_compose snd fst), snd_zip by (rewrite length_zip; lia).
  apply fst_zip. lia.
Qed.

Lemma labelled_elem (data : ndarray D) index_map v :
  well_shaped data -> well_shaped index_map -> shape index_map = shape data ->
  labelled v (pixels data index_map) ≠ [] <-> v ∈ flat index_map.
Proof.
  intros Hd Hi Hsh. rewrite <- (pixels_labels data index_map Hd Hi Hsh).
  unfold labelled. split.
  - intros Hne. destruct (filter _ _) as [|p l] eqn:E; [done|].
    assert (p ∈ filter (fun p => p.2.1 = v) (pixels data index_map)) as Hp.
    { rewrite E. apply list_elem_of_here. }
    apply list_elem_of_filter in Hp as [<- Hp].
    by apply (list_elem_of_fmap_2 (fun p => p.2.1)).
  - intros (p & -> & Hp)%list_elem_of_fmap Hnil.
    assert (p ∈ filter (fun q => q.2.1 = p.2.1) (pixels data index_map)) as Hin.
    { by apply list_elem_of_filter. }
    rewrite Hnil in Hin. by apply elem_of_nil in Hin.
Qed.

Lemma accumulated_lookup (px : list (coord * (Z * D))) ag v :
  accumulated px ag ->
  (v ≠ 0 -> labelled v px ≠ [] ->
   ag.2 !! v = Some (labelled v px).*1
   /\ ag.1 !! v = Some ((fun p => p.2.2) <$> labelled v px))
  /\ (v = 0 \/ labelled v px = [] -> ag.2 !! v = None).
Proof.
  intros Hacc. destruct (Hacc v) as [-> ->]. unfold group.
  destruct (decide (v = 0)) as [Hz|Hz].
  - split; [done|]. done.
  - destruct (labelled v px) as [|p l] eqn:E.
    + split; [done|]. done.
    + split; [done|]. intros [?|?]; done.
Qed.

Lemma accumulated_owned (px : list (coord * (Z * D))) ag :
  accumulated px ag ->
  (forall i l, ag.2 !! i = Some l -> (labelled i px).*1 = l)
  /\ (forall i l, ag.1 !! i = Some l -> (fun p => p.2.2) <$> labelled i px = l).
Proof.
  intros Hacc. split; intros i l; destruct (Hacc i) as [H1 H2];
    [rewrite H1|rewrite H2]; unfold group;
    destruct (decide (i = 0)); try done;
    destruct (labelled i px); try done; by intros [= <-].
Qed.

(** What the importer does with a well-formed document on arrays of one
    shape: the nodes of the roots, or the first fault it meets. *)
Lemma import_document (h5f : h5file D) roots term :
  ds_newick h5f = print_document roots term ->
  well_formed roots term -> (forest_depth roots < limit)%nat ->
  well_shaped (ds_data h5f) -> well_shaped (ds_index_map h5f) ->
  shape (ds_index_map h5f) = shape (ds_data h5f) ->
  exists ag,
    accumulated (pixels (ds_data h5f) (ds_index_map h5f)) ag
    /\ ((Forall (fun b => fault ag.1 ag.2 b = None) (roots ≫= entries_of)
         /\ dendro_import_hdf5 iter_order limit h5f
            = Ret (mk_Dendrogram (attr_n_dim h5f) (ds_data h5f)
                     (ds_index_map h5f)
                     (set_level 0 <$>
                        in_order iter_order idx
                          (tree_of iter_order
                             (owned_coords (ds_data h5f) (ds_index_map h5f))
                             (owned_values (ds_data h5f) (ds_index_map h5f))
                           <$> roots))))
        \/ (exists b e, b ∈ roots ≫= entries_of
                        /\ fault ag.1 ag.2 b = Some e
                        /\ dendro_import_hdf5 iter_order limit h5f = Raise e)).
Proof.
  intros Hs Hwf Hlimit Hd Hi Hsh.
  destruct (aggregate_accumulated _ _ Hd Hi Hsh) as (ag & Hag & Hacc).
  exists ag. split; [done|].
  destruct (accumulated_owned _ _ Hacc) as [Hpix Hval].
  assert (tidy roots) as Ht by (by destruct Hwf).
  unfold dendro_import_hdf5. rewrite Hag, ret_bind, Hs.
  rewrite (parse_linked_table iter_order limit roots term) by done.
  rewrite ret_bind.
  destruct (construct_linked iter_order iter_order_perm ag.1 ag.2
              (owned_coords (ds_data h5f) (ds_index_map h5f))
              (owned_values (ds_data h5f) (ds_index_map h5f))
              Hpix Hval limit roots Trunk (linked_table roots) Hlimit Ht)
    as [[Hok ->]|(b & e & Hb & He & ->)].
  - unfold linked_table. by rewrite lookup_insert_eq.
  - intros b Hb Hg. by apply linked_table_group.
  - left. split.
    + apply Forall_forall. intros b Hb. rewrite Forall_forall in Hok.
      apply Hok. by apply (proj2 (in_order_below iter_order iter_order_perm roots b Ht)).
    + rewrite ret_bind. cbn [app]. do 2 f_equal.
      by rewrite (in_order_fmap iter_order id_of idx _ roots (idx_tree_of _ _ _)).
  - right. exists b, e. split; [|done].
    by apply (proj1 (in_order_below iter_order iter_order_perm roots b Ht)).
Qed.

Lemma fault_labelled (px : list (coord * (Z * D))) ag b :
  accumulated px ag -> id_of b ≠ 0 -> labelled (id_of b) px ≠ [] ->
  fault ag.1 ag.2 b
  = match b with EBranch [] _ _ => Some StopIteration | _ => None end.
Proof.
  intros Hacc Hz Hl.
  destruct (proj1 (accumulated_lookup px ag (id_of b) Hacc) Hz Hl) as [H1 H2].
  unfold fault. by rewrite H1, H2.
Qed.

Lemma fault_unlabelled (px : list (coord * (Z * D))) ag b :
  accumulated px ag -> id_of b = 0 \/ labelled (id_of b) px = [] ->
  fault ag.1 ag.2 b = Some (KeyError (Id (id_of b))).
Proof.
  intros Hacc Hl.
  pose proof (proj2 (accumulated_lookup px ag (id_of b) Hacc) Hl) as H1.
  unfold fault. by rewrite H1.
Qed.

(** The importer on a document without faults. *)
Lemma import_success (h5f : h5file D) (roots : list entry) (term : pystr) :
  ds_newick h5f = print_document roots term ->
  well_formed roots term -> (forest_depth roots < limit)%nat ->
  well_shaped (ds_data h5f) -> well_shaped (ds_index_map h5f) ->
  shape (ds_index_map h5f) = shape (ds_data h5f) ->
  Forall (fun b => id_of b ≠ 0 /\ id_of b ∈ flat (ds_index_map h5f))
         (roots ≫= entries_of) ->
  Forall (fun b => is_group b = true -> subs b ≠ []) (roots ≫= entries_of) ->
  dendro_import_hdf5 iter_order limit h5f
  = Ret (mk_Dendrogram (attr_n_dim h5f) (ds_data h5f) (ds_index_map h5f)
           (set_level 0 <$>
              in_order iter_order idx
                (tree_of iter_order
                   (owned_coords (ds_data h5f) (ds_index_map h5f))
                   (owned_values (ds_data h5f) (ds_index_map h5f))
                 <$> roots))).
Proof.
  intros Hs Hwf Hlimit Hd Hi Hsh Hlab Hne.
  destruct (import_document h5f roots term Hs Hwf Hlimit Hd Hi Hsh)
    as (ag & Hacc & [[_ H]|(b & e & Hb & He & _)]); [done|].
  exfalso. rewrite Forall_forall in Hlab. rewrite Forall_forall in Hne.
  destruct (Hlab b Hb) as [Hz Hin]. specialize (Hne b Hb).
  rewrite (fault_labelled _ ag b Hacc Hz) in He
    by (by apply labelled_elem).
  destruct b as [|[|c cs] i h]; try done. by apply Hne.
Qed.

(** X2. A well-formed document in which every group has an entry, read
    with arrays of one shape in which every identity of the document
    labels a pixel, decodes to the tree of the document: one node per
    entry, with the pixels that carry its identity and their values in
    traversal order, the children in the order in which the interpreter
    iterates over the dictionary of the group, and [_level] set to 0 on
    the roots. *)
Theorem decode_document (h5f : h5file D) (roots : list entry) (term : pystr) :
  ds_newick h5f = print_document roots term ->
  well_formed roots term -> (forest_depth roots < limit)%nat ->
  well_shaped (ds_data h5f) -> well_shaped (ds_index_map h5f) ->
  shape (ds_index_map h5f) = shape (ds_data h5f) ->
  Forall (fun b => id_of b ≠ 0 /\ id_of b ∈ flat (ds_index_map h5f))
         (roots ≫= entries_of) ->
  Forall (fun b => is_group b = true -> subs b ≠ []) (roots ≫= entries_of) ->
  dendro_import_hdf5 iter_order limit h5f
  = Ret (mk_Dendrogram (attr_n_dim h5f) (ds_data h5f) (ds_index_map h5f)
           (set_level 0 <$>
              in_order iter_order idx
                (tree_of iter_order
                   (owned_coords (ds_data h5f) (ds_index_map h5f))
                   (owned_values (ds_data h5f) (ds_index_map h5f))
                 <$> roots))).
Proof. apply import_success. Qed.

(** X3. If some identity of the document labels no pixel, the importer
    raises [KeyError] on such an identity and returns no dendrogram. *)
Theorem decode_unlabelled_identity (h5f : h5file D) (roots : list entry)
    (term : pystr) :
  ds_newick h5f = print_document roots term ->
  well_formed roots term -> (forest_depth roots < limit)%nat ->
  well_shaped (ds_data h5f) -> well_shaped (ds_index_map h5f) ->
  shape (ds_index_map h5f) = shape (ds_data h5f) ->
  Forall (fun b => is_group b = true -> subs b ≠ []) (roots ≫= entries_of) ->
  Exists (fun b => id_of b = 0 \/ id_of b ∉ flat (ds_index_map h5f))
         (roots ≫= entries_of) ->
  exists b, b ∈ roots ≫= entries_of
    /\ (id_of b = 0 \/ id_of b ∉ flat (ds_index_map h5f))
    /\ dendro_import_hdf5 iter_order limit h5f
       = Raise (KeyError (Id (id_of b))).
Proof.
  intros Hs Hwf Hlimit Hd Hi Hsh Hne Hex.
  assert (forall b, id_of b = 0 \/ id_of b ∉ flat (ds_index_map h5f) ->
            id_of b = 0
            \/ labelled (id_of b) (pixels (ds_data h5f) (ds_index_map h5f)) = [])
    as Hun.
  { intros b [?|Hout]; [by left|right].
    destruct (labelled _ _) eqn:E; [done|]. exfalso. apply Hout.
    apply (labelled_elem (ds_data h5f)); [done..|]. by rewrite E. }
  destruct (import_document h5f roots term Hs Hwf Hlimit Hd Hi Hsh)
    as (ag & Hacc & [[Hok _]|(b & e & Hb & He & Hr)]).
  - exfalso. apply Exists_exists in Hex as (b & Hb & Hbad).
    rewrite Forall_forall in Hok. specialize (Hok b Hb).
    by rewrite (fault_unlabelled _ ag b Hacc (Hun b Hbad)) in Hok.
  - exists b. split; [done|].
    destruct (decide (id_of b = 0)) as [Hz|Hz].
    { rewrite (fault_unlabelled _ ag b Hacc) in He by (by left).
      inversion He; subst e. split; [by left|done]. }
    destruct (decide (id_of b ∈ flat (ds_index_map h5f))) as [Hin|Hout].
    + exfalso. rewrite Forall_forall in Hne. specialize (Hne b Hb).
      rewrite (fault_labelled _ ag b Hacc Hz) in He
        by (by apply labelled_elem).
      destruct b as [|[|c cs] i h]; try done. by apply Hne.
    + rewrite (fault_unlabelled _ ag b Hacc) in He by (apply Hun; by right).
      inversion He; subst e. split; [by right|done].
Qed.

(** X4. A group without entries cannot be built: when every identity of
    the document labels a pixel and some group is empty, the importer
    raises [StopIteration] where it asks for the first child of the
    group. *)
Theorem decode_empty_group (h5f : h5file D) (roots : list entry)
    (term : pystr) :
  ds_newick h5f = print_document roots term ->
  well_formed roots term -> (forest_depth roots < limit)%nat ->
  well_shaped (ds_data h5f) -> well_shaped (ds_index_map h5f) ->
  shape (ds_index_map h5f) = shape (ds_data h5f) ->
  Forall (fun b => id_of b ≠ 0 /\ id_of b ∈ flat (ds_index_map h5f))
         (roots ≫= entries_of) ->
  Exists (fun b => is_group b = true /\ subs b = []) (roots ≫= entries_of) ->
  dendro_import_hdf5 iter_order limit h5f = Raise StopIteration.
Proof.
  intros Hs Hwf Hlimit Hd Hi Hsh Hlab Hex.
  rewrite Forall_forall in Hlab.
  destruct (import_document h5f roots term Hs Hwf Hlimit Hd Hi Hsh)
    as (ag & Hacc & [[Hok _]|(b & e & Hb & He & Hr)]).
  - exfalso. apply Exists_exists in Hex as (b & Hb & Hg & Hnil).
    rewrite Forall_forall in Hok. specialize (Hok b Hb).
    destruct (Hlab b Hb) as [Hz Hin].
    rewrite (fault_labelled _ ag b Hacc Hz) in Hok
      by (by apply labelled_elem).
    destruct b as [|cs i h]; [done|]. simpl in Hnil. by subst cs.
  - destruct (Hlab b Hb) as [Hz Hin].
    rewrite (fault_labelled _ ag b Hacc Hz) in He
      by (by apply labelled_elem).
    destruct b as [|[|c cs] i h]; try done. by inversion He; subst e.
Qed.

End Decoding.

Definition branch_document : list entry :=
  [EBranch [ELeaf (py "1") (py "1.0"); ELeaf (py "2") (py "1.5")]
           (py "3") (py "4.0")].

(** A branch with an empty group: ["(()3:4.0);"]. *)
Definition empty_group_document : list entry :=
  [EBranch [] (py "3") (py "4.0")].

Definition file_empty_group : h5file Z :=
  mk_h5file 1 (arr1 [10]) (arr1 [3])
    (print_document empty_group_document (py ";")).

Ltac document_well_formed :=
  split;
  [ repeat constructor; eexists; vm_compute; reflexivity
  | apply (bool_decide_unpack _); vm_compute; exact I
  | simpl; lia
  | split; not_in_string ].

Ltac label_in_array := apply (bool_decide_unpack _); vm_compute; exact I.

Ltac each_entry tac :=
  simpl; repeat (apply Forall_cons; split; [tac|]); constructor.

Ltac group_not_empty :=
  let H := fresh in intros H; first [discriminate H | discriminate].

Lemma decode_document_witness :
  dendro_import_hdf5 insertion_order 1000 file_nested
  = Ret (mk_Dendrogram 1 (ds_data file_nested) (ds_index_map file_nested)
           [mk_Structure [[3]]%nat [13]
              [mk_Structure [[0]]%nat [10] [] 1 None;
               mk_Structure [[2]]%nat [12]
                 [mk_Structure [[1]]%nat [11] [] 7 None] 2 None]
              3 (Some 0);
            mk_Structure [[4]]%nat [14] [] 9 (Some 0)]).
Proof.
  apply (decode_document insertion_order 1000 (fun ks _ => Permutation_refl ks)
           file_nested nested_document (py ";")).
  - reflexivity.
  - document_well_formed.
  - vm_compute. lia.
  - reflexivity.
  - reflexivity.
  - reflexivity.
  - each_entry ltac:(split; [vm_compute; discriminate|label_in_array]).
  - each_entry group_not_empty.
Defined.

Lemma decode_unlabelled_identity_witness :
  exists b, b ∈ branch_document ≫= entries_of
    /\ (id_of b = 0 \/ id_of b ∉ flat (ds_index_map file_branch_unlabelled))
    /\ dendro_import_hdf5 insertion_order 1000 file_branch_unlabelled
       = Raise (KeyError (Id (id_of b))).
Proof.
  apply (decode_unlabelled_identity insertion_order 1000
           (fun ks _ => Permutation_refl ks)
           file_branch_unlabelled branch_document (py ";")).
  - reflexivity.
  - document_well_formed.
  - vm_compute. lia.
  - reflexivity.
  - reflexivity.
  - reflexivity.
  - each_entry group_not_empty.
  - apply Exists_cons_hd. right. intros H. vm_compute in H.
    repeat (apply elem_of_cons in H as [H|H]; [discriminate H|]).
    by apply elem_of_nil in H.
Defined.

Lemma decode_empty_group_witness :
  dendro_import_hdf5 insertion_order 1000 file_empty_group
  = Raise StopIteration.
Proof.
  apply (decode_empty_group insertion_order 1000
           (fun ks _ => Permutation_refl ks)
           file_empty_group empty_group_document (py ";")).
  - reflexivity.
  - document_well_formed.
  - vm_compute. lia.
  - reflexivity.
  - reflexivity.
  - reflexivity.
  - each_entry ltac:(split; [vm_compute; discriminate|label_in_array]).
  - apply Exists_cons_hd. split; reflexivity.
Defined.

(** ** The exceptions of the parser *)

(** A loop whose body keeps [P] and raises only exceptions in [Q]. *)
Definition outcome_in {S} (P : S -> Prop) (Q : exn -> Prop) (m : outcome S)
  : Prop :=
  match m with
  | Ret st => P st
  | Raise e => Q e
  | Beyond => True
  end.

Lemma for_each_outcome {A S} (P : S -> Prop) (Q : exn -> Prop)
    (body : S -> A -> outcome S) xs :
  (forall st x, x ∈ xs -> P st -> outcome_in P Q (body st x)) ->
  forall st, P st -> outcome_in P Q (for_each body xs st).
Proof.
  induction xs as [|x xs IH]; intros Hbody st Hst; [done|].
  rewrite for_each_cons.
  pose proof (Hbody st x (list_elem_of_here _ _) Hst) as Hx.
  destruct (body st x) as [st'|e|]; simpl; [|done|done].
  apply IH; [|done]. intros st1 y Hy. apply Hbody. by apply list_elem_of_further.
Qed.

Lemma outcome_in_bind {S T} (P : S -> Prop) (P' : T -> Prop) (Q : exn -> Prop)
    (m : outcome S) (f : S -> outcome T) :
  outcome_in P Q m -> (forall a, P a -> outcome_in P' Q (f a)) ->
  outcome_in P' Q (m ≫= f).
Proof. destruct m; simpl; auto. Qed.

(** *** The scan for the spans of a level *)

(** From the first opening parenthesis at the level on, [start] is
    bound. *)
Definition start_bound (level : Z) (sc : scan) : Prop :=
  level <= current_level sc -> is_Some (start sc).

Lemma scan_step_bound level sc ic :
  start_bound level sc ->
  exists sc', scan_step level sc ic = Ret sc' /\ start_bound level sc'.
Proof.
  unfold start_bound. intros Hsc. destruct ic as [i c], sc as [cl st ps].
  unfold scan_step. simpl in *.
  destruct (is_open c) eqn:Eo.
  - rewrite (open_not_close c Eo). eexists. split; [done|]. simpl.
    destruct (Z.eqb_spec (cl + 1) level); [done|].
    intros H. apply Hsc. lia.
  - destruct (is_close c); [|by eauto]. simpl.
    destruct (Z.eqb_spec cl level) as [->|Hne].
    + destruct Hsc as [s ->]; [lia|]. simpl. eexists. split; [done|]. simpl. eauto.
    + simpl. eexists. split; [done|]. simpl. intros H. apply Hsc. lia.
Qed.

Lemma scan_returns level xs : forall sc,
  start_bound level sc ->
  exists sc', for_each (scan_step level) xs sc = Ret sc'.
Proof.
  induction xs as [|x xs IH]; intros sc Hsc; [by eexists|].
  rewrite for_each_cons.
  destruct (scan_step_bound level sc x Hsc) as (sc1 & -> & Hsc1).
  rewrite ret_bind. by apply IH.
Qed.

(** *** The spans of a level *)

Definition parse_error (e : exn) : Prop := e = ValueError \/ e = SyntaxError.

Lemma unsigned_int_raises s e : unsigned_int s = Raise e -> e = ValueError.
Proof.
  unfold unsigned_int. destruct s; [by intros [= <-]|].
  destruct (all_digits _); [done|by intros [= <-]].
Qed.

Lemma py_int_raises s e : py_int s = Raise e -> e = ValueError.
Proof.
  unfold py_int. destruct (strip s) as [|c ds]; [by intros [= <-]|].
  destruct (Ascii.eqb c "-").
  - destruct (unsigned_int ds) eqn:E; simpl; try done.
    intros [= <-]. by apply unsigned_int_raises in E.
  - destruct (Ascii.eqb c "+"); apply unsigned_int_raises.
Qed.

Lemma eval_dict_raises text e : eval_dict text = Raise e -> e = SyntaxError.
Proof.
  unfold eval_dict. destruct text as [|c t]; [done|].
  destruct (Ascii.eqb c ":"); [by intros [= <-]|].
  by destruct (mapM _ _).
Qed.

Lemma excise_outcome st pair :
  outcome_in (fun _ => True) parse_error (excise st pair).
Proof.
  destruct st as [s items], pair as [a b]. unfold excise.
  set (bid := slice s (b + 1) (find s ":" b)).
  apply (outcome_in_bind (fun _ => True)).
  - destruct bid as [|x bid]; [done|].
    destruct (py_int (x :: bid)) as [z|e|] eqn:E; simpl; [done| |done].
    left. by apply py_int_raises in E.
  - intros k _. destruct (eval_dict _) as [d|e|] eqn:E; simpl; [done| |done].
    right. by apply eval_dict_raises in E.
Qed.

Lemma level_body_outcome st level :
  1 <= level -> outcome_in (fun _ => True) parse_error (level_body st level).
Proof.
  intros Hl. destruct st as [[s items] st0]. unfold level_body.
  destruct (scan_returns level (enumerate s) (mk_scan 0 st0 [])) as (sc & ->).
  { unfold start_bound. simpl. lia. }
  rewrite ret_bind.
  apply (outcome_in_bind (fun _ => True)); [|done].
  apply for_each_outcome; [|done]. intros. apply excise_outcome.
Qed.

Lemma levels_positive m level : level ∈ levels m -> 1 <= level.
Proof.
  unfold levels. rewrite list_elem_of_In, <- in_rev, <- list_elem_of_In.
  intros H%elem_of_seqZ. lia.
Qed.

Lemma phase1_outcome s : outcome_in (fun _ => True) parse_error (phase1 s).
Proof.
  unfold phase1. apply for_each_outcome; [|done].
  intros st level Hl _. apply level_body_outcome. by eapply levels_positive.
Qed.

(** *** The links of phase 2 *)

Lemma dict_get_key (d : dict) i : i ∈ dict_keys d -> is_Some (dict_get d i).
Proof.
  induction d as [|[k v] d IH]; [by intros ?%elem_of_nil|].
  unfold dict_keys. rewrite fmap_cons. simpl.
  destruct (decide (k = i)); [by eauto|].
  intros [?|?]%elem_of_cons; [done|by apply IH].
Qed.

Lemma dict_set_keys (d : dict) i v :
  i ∈ dict_keys d -> dict_keys (dict_set d i v) = dict_keys d.
Proof.
  induction d as [|[k w] d IH]; [by intros ?%elem_of_nil|].
  unfold dict_keys. rewrite fmap_cons. simpl.
  destruct (decide (k = i)) as [->|Hne]; [done|].
  intros [?|Hi]%elem_of_cons; [done|].
  rewrite fmap_cons. simpl. f_equal. by apply IH.
Qed.

(** [collect] rebinds values and never adds or removes a key. *)
Definition same_keys (st st' : gmap key dict) : Prop :=
  forall k, dict_keys <$> st' !! k = dict_keys <$> st !! k.

Section Exceptions.

Variable iter_order : list Z -> list Z.

(** The interpreter iterates over keys of the dictionary. *)
Hypothesis iter_order_keys : forall ks i, i ∈ iter_order ks -> i ∈ ks.

Lemma collect_outcome fuel : forall k items,
  is_Some (items !! k) ->
  outcome_in (same_keys items) (fun e => e = RuntimeError)
             (collect iter_order fuel k items).
Proof.
  induction fuel as [|fuel IH]; intros k items [d Hd]; [done|].
  rewrite collect_S, Hd.
  apply (for_each_outcome (same_keys items)); [|done].
  intros st item Hitem%iter_order_keys Hst.
  unfold collect_body.
  destruct (st !! Id item) as [di|] eqn:Ei; [|done].
  eapply outcome_in_bind; [apply IH; by rewrite Ei|].
  intros r Hr. cbv beta.
  pose proof (Hr k) as Hrk. rewrite (Hst k), Hd in Hrk. simpl in Hrk.
  destruct (r !! k) as [d'|] eqn:Er; [|done].
  simpl in Hrk. injection Hrk as Hkeys.
  destruct (dict_get_key d' item) as [old ->]; [by rewrite Hkeys|].
  simpl. intros k'. destruct (decide (k' = k)) as [->|Hne].
  - rewrite lookup_insert_eq, Hd. simpl.
    rewrite dict_set_keys by (by rewrite Hkeys). by rewrite Hkeys.
  - rewrite lookup_insert_ne by done. by rewrite (Hr k'), (Hst k').
Qed.

Lemma collect_body_outcome fuel k items d st item :
  items !! k = Some d -> item ∈ dict_keys d -> same_keys items st ->
  outcome_in (same_keys items) (fun e => e = RuntimeError)
             (collect_body iter_order fuel k st item).
Proof.
  intros Hd Hitem Hst. unfold collect_body.
  destruct (st !! Id item) as [di|] eqn:Ei; [|done].
  eapply outcome_in_bind; [apply collect_outcome; by rewrite Ei|].
  intros r Hr. cbv beta.
  pose proof (Hr k) as Hrk. rewrite (Hst k), Hd in Hrk. simpl in Hrk.
  destruct (r !! k) as [d'|] eqn:Er; [|done].
  simpl in Hrk. injection Hrk as Hkeys.
  destruct (dict_get_key d' item) as [old ->]; [by rewrite Hkeys|].
  simpl. intros k'. destruct (decide (k' = k)) as [->|Hne].
  - rewrite lookup_insert_eq, Hd. simpl.
    rewrite dict_set_keys by (by rewrite Hkeys). by rewrite Hkeys.
  - rewrite lookup_insert_ne by done. by rewrite (Hr k'), (Hst k').
Qed.

(** X5. Whatever the string, [_parse_newick] raises only four
    exceptions: [KeyError] on ['trunk'], [ValueError] from [int],
    [SyntaxError] from [eval], and [RuntimeError] from the recursion
    limit.  In particular [start] is never read before it is assigned,
    and [collect] never misses a key. *)
Theorem parse_raises_only (limit : nat) (s : pystr) (e : exn) :
  _parse_newick iter_order limit s = Raise e ->
  e = KeyError Trunk \/ e = ValueError \/ e = SyntaxError \/ e = RuntimeError.
Proof.
  unfold _parse_newick. intros H.
  pose proof (phase1_outcome s) as Hp.
  destruct (phase1 s) as [[[s' items] st]|e'|]; simpl in *.
  - destruct (items !! Trunk) as [d|] eqn:Et; [|inversion H; auto].
    pose proof (collect_outcome limit Trunk items ltac:(by rewrite Et)) as Hc.
    rewrite H in Hc. simpl in Hc. auto.
  - inversion H; subst e'. destruct Hp; auto.
  - done.
Qed.

(** X16. Phase 2 only replaces values by pairs.  When the parser
    returns, the table it returns has the same keys as the table that
    phase 1 left, and under every key a dictionary with the same
    identities in the same order. *)
Theorem linking_keeps_identities (limit : nat) (s s' : pystr)
    (items r : gmap key dict) (st : option Z) :
  phase1 s = Ret (s', items, st) ->
  _parse_newick iter_order limit s = Ret r ->
  forall k, dict_keys <$> r !! k = dict_keys <$> items !! k.
Proof.
  unfold _parse_newick. intros -> H. rewrite ret_bind in H. cbn [fst snd] in H.
  destruct (items !! Trunk) as [d|] eqn:Et; [|done].
  pose proof (collect_outcome limit Trunk items ltac:(by rewrite Et)) as Hc.
  rewrite H in Hc. exact Hc.
Qed.

End Exceptions.

Lemma parse_raises_only_witness :
  _parse_newick insertion_order 1000 branch_colon_id = Raise SyntaxError
  /\ (SyntaxError = KeyError Trunk \/ SyntaxError = ValueError
      \/ SyntaxError = SyntaxError \/ SyntaxError = RuntimeError).
Proof.
  split; [vm_compute; reflexivity|].
  apply (parse_raises_only insertion_order (fun ks i H => H) 1000
           branch_colon_id SyntaxError).
  vm_compute. reflexivity.
Defined.

Lemma linking_keeps_identities_witness :
  exists s' items st r,
    phase1 branch_id = Ret (s', items, st)
    /\ _parse_newick insertion_order 1000 branch_id = Ret r
    /\ forall k, dict_keys <$> r !! k = dict_keys <$> items !! k.
Proof.
  eexists _, _, _, _. split; [vm_compute; reflexivity|].
  split; [vm_compute; reflexivity|].
  eapply (linking_keeps_identities insertion_order (fun ks i H => H) 1000
            branch_id).
  - vm_compute. reflexivity.
  - vm_compute. reflexivity.
Defined.

(** ** The pixels of a node *)

Lemma NoDup_all_coords sh : NoDup (all_coords sh).
Proof.
  induction sh as [|n sh IH]; [apply NoDup_singleton|].
  rewrite all_coords_cons. apply NoDup_bind.
  - intros x1 x2 y _ _ (c1 & -> & _)%list_elem_of_fmap
      (c2 & [= -> _] & _)%list_elem_of_fmap. done.
  - intros x _. apply NoDup_fmap_2; [|done]. by intros ?? [=].
  - apply NoDup_seq.
Qed.

Section Pixels.

Context {D : Type}.
Variable iter_order : list Z -> list Z.
Variable limit : nat.

Lemma pixels_coords (data : ndarray D) index_map :
  well_shaped data -> well_shaped index_map -> shape index_map = shape data ->
  (pixels data index_map).*1 = all_coords (shape data).
Proof.
  intros Hd Hi Hsh.
  pose proof (Forall2_length _ _ _ (getitem_row_major index_map Hi)) as H1.
  pose proof (Forall2_length _ _ _ (getitem_row_major data Hd)) as H2.
  rewrite Hsh in H1. unfold pixels. apply fst_zip. rewrite length_zip. lia.
Qed.

Lemma pixels_reads (data : ndarray D) index_map :
  well_shaped data -> well_shaped index_map -> shape index_map = shape data ->
  Forall (fun p => getitem index_map p.1 = Ret (Scalar p.2.1)
                   /\ element data p.1 = Ret p.2.2)
         (pixels data index_map).
Proof.
  intros Hd Hi Hsh.
  pose proof (getitem_row_major index_map Hi) as Hl. rewrite Hsh in Hl.
  pose proof (element_row_major data Hd) as Hx.
  exact (Forall2_zip3 _ _ _ _ _ Hl Hx).
Qed.

(** The lists of a node are those of the pixels that carry its
    identity. *)
Lemma node_pixels (h5f : h5file D) d n :
  well_shaped (ds_data h5f) -> well_shaped (ds_index_map h5f) ->
  shape (ds_index_map h5f) = shape (ds_data h5f) ->
  dendro_import_hdf5 iter_order limit h5f = Ret d ->
  n ∈ nodes_of d ->
  indices n = owned_coords (ds_data h5f) (ds_index_map h5f) (idx n)
  /\ values n = owned_values (ds_data h5f) (ds_index_map h5f) (idx n).
Proof.
  intros Hd Hi Hsh (ag & Hag & Hall)%import_from_aggregator Hn.
  rewrite Forall_forall in Hall. destruct (Hall n Hn) as [Hix Hfx].
  destruct (aggregate_accumulated _ _ Hd Hi Hsh) as (ag' & Hag' & Hacc).
  rewrite Hag in Hag'. inversion Hag'; subst ag'.
  destruct (accumulated_owned _ _ Hacc) as [H1 H2].
  unfold owned_coords, owned_values.
  by rewrite (H1 _ _ Hix), (H2 _ _ Hfx).
Qed.

(** X6. In a dendrogram returned on arrays of one shape, a node owns
    exactly the coordinates at which the label array holds its identity,
    each of them once. *)
Theorem node_owns_its_label (h5f : h5file D) (d : Dendrogram D)
    (n : Structure D) :
  well_shaped (ds_data h5f) -> well_shaped (ds_index_map h5f) ->
  shape (ds_index_map h5f) = shape (ds_data h5f) ->
  dendro_import_hdf5 iter_order limit h5f = Ret d ->
  n ∈ nodes_of d ->
  NoDup (indices n)
  /\ forall c, c ∈ indices n
       <-> c ∈ all_coords (shape (ds_data h5f))
           /\ getitem (ds_index_map h5f) c = Ret (Scalar (idx n)).
Proof.
  intros Hd Hi Hsh Himp Hn.
  destruct (node_pixels h5f d n Hd Hi Hsh Himp Hn) as [-> _].
  pose proof (pixels_coords _ _ Hd Hi Hsh) as Hc.
  pose proof (pixels_reads _ _ Hd Hi Hsh) as Hr. rewrite Forall_forall in Hr.
  unfold owned_coords, labelled. split.
  - apply (sublist_NoDup _ (pixels (ds_data h5f) (ds_index_map h5f)).*1).
    + rewrite Hc. apply NoDup_all_coords.
    + apply fmap_sublist, sublist_filter.
  - intros c. rewrite <- Hc. split.
    + intros (p & -> & [Hl Hp]%list_elem_of_filter)%list_elem_of_fmap.
      split; [by apply list_elem_of_fmap_2|].
      destruct (Hr p Hp) as [H _]. by rewrite H, Hl.
    + intros [(p & -> & Hp)%list_elem_of_fmap Hread].
      destruct (Hr p Hp) as [H _]. rewrite H in Hread.
      injection Hread as Hl.
      apply list_elem_of_fmap_2. by apply list_elem_of_filter.
Qed.

(** X7. The values of a node are the data at its coordinates, position
    by position. *)
Theorem node_values_at_coords (h5f : h5file D) (d : Dendrogram D)
    (n : Structure D) :
  well_shaped (ds_data h5f) -> well_shaped (ds_index_map h5f) ->
  shape (ds_index_map h5f) = shape (ds_data h5f) ->
  dendro_import_hdf5 iter_order limit h5f = Ret d ->
  n ∈ nodes_of d ->
  Forall2 (fun c v => element (ds_data h5f) c = Ret v) (indices n) (values n).
Proof.
  intros Hd Hi Hsh Himp Hn.
  destruct (node_pixels h5f d n Hd Hi Hsh Himp Hn) as [-> ->].
  pose proof (pixels_reads _ _ Hd Hi Hsh) as Hr. rewrite Forall_forall in Hr.
  unfold owned_coords, owned_values, labelled.
  apply Forall2_fmap, Forall_Forall2_diag, Forall_forall.
  intros p [_ Hp]%list_elem_of_filter. by destruct (Hr p Hp).
Qed.

(** X8. Nodes with different identities share no pixel. *)
Theorem nodes_share_no_pixel (h5f : h5file D) (d : Dendrogram D)
    (n m : Structure D) :
  well_shaped (ds_data h5f) -> well_shaped (ds_index_map h5f) ->
  shape (ds_index_map h5f) = shape (ds_data h5f) ->
  dendro_import_hdf5 iter_order limit h5f = Ret d ->
  n ∈ nodes_of d -> m ∈ nodes_of d -> idx n ≠ idx m ->
  forall c, c ∈ indices n -> c ∉ indices m.
Proof.
  intros Hd Hi Hsh Himp Hn Hm Hne c.
  destruct (node_pixels h5f d n Hd Hi Hsh Himp Hn) as [-> _].
  destruct (node_pixels h5f d m Hd Hi Hsh Himp Hm) as [-> _].
  pose proof (pixels_coords _ _ Hd Hi Hsh) as Hc.
  pose proof (NoDup_all_coords (shape (ds_data h5f))) as Hnd.
  rewrite <- Hc in Hnd. unfold owned_coords, labelled.
  intros (p & -> & [Hl Hp]%list_elem_of_filter)%list_elem_of_fmap
         (q & Hpq & [Hl' Hq]%list_elem_of_filter)%list_elem_of_fmap.
  apply Hne. rewrite <- Hl, <- Hl'.
  by rewrite (NoDup_fmap_same fst _ p q Hnd Hp Hq Hpq).
Qed.

End Pixels.

(** ** Arrays of different shapes *)

Lemma all_coords_first sh :
  size_of sh ≠ O -> exists c rest, all_coords sh = c :: rest.
Proof.
  induction sh as [|n sh IH]; intros Hs; [by eexists _, _|].
  rewrite size_of_cons in Hs.
  destruct IH as (c & rest & Hc); [lia|].
  destruct n as [|n]; [lia|].
  rewrite all_coords_cons, Hc. cbn [seq]. rewrite bind_cons, fmap_cons.
  by eexists _, _.
Qed.

Lemma all_coords_axes sh c : c ∈ all_coords sh -> length c = length sh.
Proof.
  revert c. induction sh as [|n sh IH]; intros c.
  - by intros ->%list_elem_of_singleton.
  - rewrite all_coords_cons.
    intros (i & (c' & -> & Hc')%list_elem_of_fmap & _)%list_elem_of_bind.
    simpl. f_equal. by apply IH.
Qed.

(** More indices than axes. *)
Lemma nd_item_too_many {A} (c : coord) : forall sh (fl : list A),
  (length sh < length c)%nat -> nd_item sh fl c = Raise IndexError.
Proof.
  induction c as [|i c IH]; intros sh fl Hlen; [simpl in Hlen; lia|].
  destruct sh as [|n sh]; [done|]. simpl in *.
  destruct (i <? n)%nat; [|done]. apply IH. lia.
Qed.

Section Shapes.

Context {D : Type}.
Variable iter_order : list Z -> list Z.
Variable limit : nat.

(** X9. When the label array has fewer axes than the data array and the
    data array is not empty, the first subscript [d.index_map[coord]] has
    too many indices: the importer raises [IndexError], whatever the
    topology string is. *)
Theorem fewer_axes_raises (h5f : h5file D) :
  (length (shape (ds_index_map h5f)) < length (shape (ds_data h5f)))%nat ->
  size_of (shape (ds_data h5f)) ≠ O ->
  dendro_import_hdf5 iter_order limit h5f = Raise IndexError.
Proof.
  intros Hlen Hsize. unfold dendro_import_hdf5, aggregate.
  destruct (all_coords_first _ Hsize) as (c & rest & Hc).
  assert (length c = length (shape (ds_data h5f))) as Hcl.
  { apply all_coords_axes. rewrite Hc. apply list_elem_of_here. }
  assert (forall st, aggregate_step (ds_data h5f) (ds_index_map h5f) st c
                     = Raise IndexError) as Hstep.
  { intros [fx ix]. unfold aggregate_step, getitem.
    by rewrite nd_item_too_many by lia. }
  by rewrite Hc, for_each_cons, Hstep.
Qed.

End Shapes.

Lemma fewer_axes_raises_witness :
  dendro_import_hdf5 insertion_order 1000
    (mk_h5file 2 (mk_ndarray [2; 2]%nat [10; 11; 12; 13]) (arr1 [1; 1; 2; 2])
               two_leaves)
  = Raise IndexError.
Proof.
  apply (fewer_axes_raises insertion_order 1000
           (mk_h5file 2 (mk_ndarray [2; 2]%nat [10; 11; 12; 13])
                      (arr1 [1; 1; 2; 2]) two_leaves)).
  - simpl. lia.
  - simpl. lia.
Defined.

(** ** The recursion limit *)

(** [m2] is [m1] unless [m1] ran into the recursion limit. *)
Definition unless_limit {A} (m1 m2 : outcome A) : Prop :=
  m1 = Raise RuntimeError \/ m2 = m1.

Lemma unless_limit_refl {A} (m : outcome A) : unless_limit m m.
Proof. by right. Qed.

Lemma unless_limit_trans {A} (m1 m2 m3 : outcome A) :
  unless_limit m1 m2 -> unless_limit m2 m3 -> unless_limit m1 m3.
Proof.
  intros [->| ->]; [by left|]. intros [->| ->]; [by left|by right].
Qed.

Lemma unless_limit_bind {A B} (m1 m2 : outcome A) (f1 f2 : A -> outcome B) :
  unless_limit m1 m2 -> (forall a, unless_limit (f1 a) (f2 a)) ->
  unless_limit (m1 ≫= f1) (m2 ≫= f2).
Proof.
  intros [->| ->] Hf; [by left|].
  destruct m1 as [a|e|]; simpl; [apply Hf|by right|by right].
Qed.

Lemma unless_limit_for_each {A S} (b1 b2 : S -> A -> outcome S) xs :
  (forall st x, unless_limit (b1 st x) (b2 st x)) ->
  forall st, unless_limit (for_each b1 xs st) (for_each b2 xs st).
Proof.
  intros Hb. induction xs as [|x xs IH]; intros st; [by right|].
  rewrite !for_each_cons. by apply unless_limit_bind.
Qed.

Section Limit.

Context {D : Type}.
Variable iter_order : list Z -> list Z.

Lemma collect_limit_S fuel : forall k items,
  unless_limit (collect iter_order fuel k items)
               (collect iter_order (S fuel) k items).
Proof.
  induction fuel as [|fuel IH]; intros k items; [by left|].
  rewrite (collect_S iter_order (S fuel)), (collect_S iter_order fuel).
  destruct (items !! k) as [d|]; [|by right].
  apply unless_limit_for_each. intros st item. unfold collect_body.
  destruct (st !! Id item); [|by right].
  apply unless_limit_bind; [apply IH|]. intros; by right.
Qed.

Lemma construct_limit_S (fx : gmap Z (list D)) ix items fuel : forall k,
  unless_limit (_construct_tree iter_order fuel items fx ix k)
               (_construct_tree iter_order (S fuel) items fx ix k).
Proof.
  induction fuel as [|fuel IH]; intros k; [by left|].
  rewrite (construct_S iter_order (S fuel)), (construct_S iter_order fuel).
  destruct (items !! k) as [repr|]; [|by right].
  apply unless_limit_for_each. intros nodes i. unfold construct_body.
  apply unless_limit_bind; [by right|]. intros ni.
  apply unless_limit_bind; [by right|]. intros f.
  destruct (dict_get repr i) as [[h|ref old]|]; try by right.
  apply unless_limit_bind; [apply IH|]. intros; by right.
Qed.

Lemma import_limit_S (h5f : h5file D) limit :
  unless_limit (dendro_import_hdf5 iter_order limit h5f)
               (dendro_import_hdf5 iter_order (S limit) h5f).
Proof.
  unfold dendro_import_hdf5.
  apply unless_limit_bind; [by right|]. intros ag.
  apply unless_limit_bind.
  - unfold _parse_newick. apply unless_limit_bind; [by right|]. intros st.
    destruct (st.1.2 !! Trunk); [|by right]. apply collect_limit_S.
  - intros items. apply unless_limit_bind; [|intros; by right].
    apply construct_limit_S.
Qed.

(** X10. The recursion limit shows only through [RuntimeError]: a run
    of the importer that ends in any other way, with a dendrogram or with
    another exception, ends in the same way under every larger limit. *)
Theorem import_limit_monotone (h5f : h5file D) (limit limit' : nat) :
  (limit <= limit')%nat ->
  dendro_import_hdf5 iter_order limit h5f ≠ Raise RuntimeError ->
  dendro_import_hdf5 iter_order limit' h5f
  = dendro_import_hdf5 iter_order limit h5f.
Proof.
  intros Hle Hne.
  assert (unless_limit (dendro_import_hdf5 iter_order limit h5f)
                       (dendro_import_hdf5 iter_order limit' h5f)) as [H|H];
    [|done|done].
  induction Hle as [|m Hle IH]; [apply unless_limit_refl|].
  eapply unless_limit_trans; [exact IH|apply import_limit_S].
Qed.

End Limit.

Lemma import_limit_monotone_witness :
  dendro_import_hdf5 insertion_order 1000 file_branch
  = dendro_import_hdf5 insertion_order 2 file_branch.
Proof.
  apply (import_limit_monotone insertion_order file_branch 2 1000).
  - lia.
  - vm_compute. discriminate.
Defined.

(** ** A string with one group *)

Lemma for_each_idle {A S} (body : S -> A -> outcome S) xs st :
  (forall x, body st x = Ret st) -> for_each body xs st = Ret st.
Proof.
  intros H. induction xs as [|x xs IH]; [done|].
  by rewrite for_each_cons, H, ret_bind.
Qed.

Lemma peak_one_group body after :
  plain body -> plain after ->
  peak 0 ("("%char :: body ++ ")"%char :: after) = 1.
Proof.
  intros Hb Ha. cbn [peak]. change (step_level 0 "(") with 1.
  rewrite peak_app, net_plain, peak_plain by done.
  cbn [peak]. change (step_level 1 ")") with 0.
  rewrite peak_plain by done. lia.
Qed.

Lemma level_body_one_group body after items st :
  plain body -> plain after ->
  exists st',
    level_body ("("%char :: body ++ ")"%char :: after, items, st) 1
    = k ← key_after after; d ← eval_dict body;
      Ret (after, <[k := d]> items, st').
Proof.
  intros Hb Ha.
  destruct (level_body_seg 1 [([], body)] after items st) as (st' & Hrun).
  { cbn [seg_ok]. rewrite !peak_plain by (done || apply plain_nil).
    change (net 0 []) with 0.
    split; [lia|]. split; [lia|]. split; [done|lia]. }
  cbn [seg_text seg_cut seg_table app] in Hrun. rewrite ret_bind in Hrun.
  rewrite app_nil_r in Hrun.
  exists st'. rewrite Hrun.
  destruct (key_after after) as [k| |]; [|done|done]. rewrite !ret_bind.
  destruct (eval_dict body) as [d| |]; [|done|done]. by rewrite !ret_bind.
Qed.

Lemma phase1_one_group body after :
  plain body -> plain after ->
  exists st,
    phase1 ("("%char :: body ++ ")"%char :: after)
    = k ← key_after after; d ← eval_dict body;
      Ret (after, <[k := d]> ∅, st).
Proof.
  intros Hb Ha. unfold phase1.
  rewrite find_max_level_peak, peak_one_group by done.
  change (levels 1) with [1]. rewrite for_each_cons.
  destruct (level_body_one_group body after ∅ None Hb Ha) as (st & ->).
  exists st.
  destruct (key_after after) as [k| |]; [|done|done]. rewrite !ret_bind.
  destruct (eval_dict body) as [d| |]; [|done|done]. by rewrite !ret_bind.
Qed.

Section OneGroup.

Variable iter_order : list Z -> list Z.

(** X11. A string with a single group and no other parenthesis, whatever
    stands inside the group and after it.  The text after the closing
    parenthesis up to the first colon (all but the last character when
    there is no colon) is read as the identity, before the group itself
    is evaluated.  With an empty identity the dictionary of the group is
    the result; with an integer identity nothing is bound to ['trunk']
    and the parser raises [KeyError]; any other text is a [ValueError]
    of [int]. *)
Theorem parse_one_group (limit : nat) (body after : pystr) :
  plain body -> plain after ->
  _parse_newick iter_order (S limit) ("("%char :: body ++ ")"%char :: after)
  = k ← key_after after; d ← eval_dict body;
    match k with
    | Trunk => Ret (<[Trunk := d]> ∅)
    | Id _ => Raise (KeyError Trunk)
    end.
Proof.
  intros Hb Ha. unfold _parse_newick.
  destruct (phase1_one_group body after Hb Ha) as (st & ->).
  destruct (key_after after) as [k| |]; [|done|done]. rewrite !ret_bind.
  destruct (eval_dict body) as [d| |]; [|done|done]. rewrite !ret_bind.
  cbn [fst snd]. destruct k as [|i].
  - rewrite lookup_insert_eq, collect_S, lookup_insert_eq.
    apply for_each_idle. intros item. unfold collect_body.
    by rewrite lookup_insert_ne, lookup_empty.
  - by rewrite lookup_insert_ne, lookup_empty.
Qed.

End OneGroup.

Lemma parse_one_group_witness :
  _parse_newick insertion_order 1000 (py "(1:2.0,2:3.0);" ++ [" "%char])
  = Raise ValueError.
Proof.
  apply (parse_one_group insertion_order 999 (py "1:2.0,2:3.0")
           [";"%char; " "%char]).
  - split; not_in_string.
  - split; not_in_string.
Defined.

(** ** A group that lists its own identity *)

Lemma for_each_must_raise {A S} `{EqDecision A} (P : S -> Prop) (e : exn)
    (body : S -> A -> outcome S) x xs :
  x ∈ xs ->
  (forall st y, y ∈ xs -> P st ->
     (exists st', body st y = Ret st' /\ P st') \/ body st y = Raise e) ->
  (forall st, P st -> body st x = Raise e) ->
  forall st, P st -> for_each body xs st = Raise e.
Proof.
  induction xs as [|y xs IH]; intros Hx Hbody Hraise st Hst;
    [by apply elem_of_nil in Hx|].
  rewrite for_each_cons.
  destruct (decide (x = y)) as [->|Hne]; [by rewrite (Hraise st Hst)|].
  apply elem_of_cons in Hx as [?|Hx]; [done|].
  destruct (Hbody st y (list_elem_of_here _ _) Hst) as [(st' & -> & Hst')| ->];
    [|done].
  rewrite ret_bind. apply IH; [done| |done|done].
  intros st1 z Hz. apply Hbody. by apply list_elem_of_further.
Qed.

Section SelfReference.

Variable iter_order : list Z -> list Z.
Hypothesis iter_order_keys : forall ks i, i ∈ iter_order ks <-> i ∈ ks.

Lemma collect_body_not_beyond fuel :
  (forall k items, collect iter_order fuel k items ≠ Beyond) ->
  forall k st item, collect_body iter_order fuel k st item ≠ Beyond.
Proof.
  intros IH k st item. unfold collect_body.
  destruct (st !! Id item); [|done].
  pose proof (IH (Id item) st) as Hc.
  destruct (collect iter_order fuel (Id item) st) as [r| |]; simpl; try done.
  destruct (r !! k) as [d'|]; [|done]. by destruct (dict_get d' item).
Qed.

Lemma collect_not_beyond fuel : forall k items,
  collect iter_order fuel k items ≠ Beyond.
Proof.
  induction fuel as [|fuel IH]; intros k items; [done|].
  rewrite collect_S. destruct (items !! k) as [d|]; [|done].
  apply for_each_not_beyond. intros st item.
  by apply collect_body_not_beyond.
Qed.

Lemma collect_body_returns_or_limit fuel k items d st item :
  items !! k = Some d -> item ∈ dict_keys d -> same_keys items st ->
  (exists st', collect_body iter_order fuel k st item = Ret st'
               /\ same_keys items st')
  \/ collect_body iter_order fuel k st item = Raise RuntimeError.
Proof.
  intros Hd Hitem Hst.
  pose proof (collect_body_outcome iter_order
                (fun ks i => proj1 (iter_order_keys ks i))
                fuel k items d st item Hd Hitem Hst) as H.
  pose proof (collect_body_not_beyond fuel (collect_not_beyond fuel) k st item)
    as Hb.
  destruct (collect_body iter_order fuel k st item) as [r|e|]; simpl in H;
    [left; eauto|right; by subst|done].
Qed.

Lemma collect_self fuel : forall items i d,
  items !! Id i = Some d -> i ∈ dict_keys d ->
  collect iter_order fuel (Id i) items = Raise RuntimeError.
Proof.
  induction fuel as [|fuel IH]; intros items i d Hd Hi; [done|].
  rewrite collect_S, Hd.
  apply (for_each_must_raise (same_keys items) RuntimeError _ i).
  - by apply iter_order_keys.
  - intros st y Hy Hst. apply (proj1 (iter_order_keys _ _)) in Hy.
    by apply (collect_body_returns_or_limit fuel (Id i) items d).
  - intros st Hst. unfold collect_body.
    pose proof (Hst (Id i)) as Hk. rewrite Hd in Hk. simpl in Hk.
    destruct (st !! Id i) as [d'|] eqn:Ed; [|done].
    simpl in Hk. injection Hk as Hk.
    rewrite (IH st i d') by (done || by rewrite Hk). done.
  - done.
Qed.

(** X12. If the dictionary under ['trunk'] lists an identity whose own
    dictionary lists that identity again, [collect] never comes back:
    [_parse_newick] raises [RuntimeError] whatever the recursion limit
    is. *)
Theorem parse_self_reference (limit : nat) (s s' : pystr)
    (items : gmap key dict) (st : option Z) (t d : dict) (i : Z) :
  phase1 s = Ret (s', items, st) ->
  items !! Trunk = Some t -> i ∈ dict_keys t ->
  items !! Id i = Some d -> i ∈ dict_keys d ->
  _parse_newick iter_order limit s = Raise RuntimeError.
Proof.
  intros Hph Ht Hit Hd Hid. unfold _parse_newick.
  rewrite Hph, ret_bind. cbn [fst snd]. rewrite Ht.
  destruct limit as [|fuel]; [done|].
  rewrite collect_S, Ht.
  apply (for_each_must_raise (same_keys items) RuntimeError _ i).
  - by apply iter_order_keys.
  - intros st1 y Hy Hst. apply (proj1 (iter_order_keys _ _)) in Hy.
    by apply (collect_body_returns_or_limit fuel Trunk items t).
  - intros st1 Hst. unfold collect_body.
    pose proof (Hst (Id i)) as Hk. rewrite Hd in Hk. simpl in Hk.
    destruct (st1 !! Id i) as [d'|] eqn:Ed; [|done].
    simpl in Hk. injection Hk as Hk.
    rewrite (collect_self fuel st1 i d') by (done || by rewrite Hk). done.
  - done.
Qed.

End SelfReference.

Lemma parse_self_reference_witness :
  _parse_newick insertion_order 1000 (py "((1:1.0)1:2.0);")
  = Raise RuntimeError.
Proof.
  eapply (parse_self_reference insertion_order (fun ks i => reflexivity _)
            1000 (py "((1:1.0)1:2.0);") _ _ _ _ _ 1).
  - vm_compute. reflexivity.
  - vm_compute. reflexivity.
  - apply list_elem_of_here.
  - vm_compute. reflexivity.
  - apply list_elem_of_here.
Defined.

(** ** Text after the group of the roots *)

(** The bindings of the levels 2 to [S m]. *)
Fixpoint upper_bindings (m : nat) (roots : list entry) : list (key * dict) :=
  match m with
  | O => []
  | S m' => upper_bindings m' roots ++ doc_bindings (S (S m')) roots
  end.

Lemma upper_bindings_keys m roots k d :
  (k, d) ∈ upper_bindings m roots -> k ≠ Trunk.
Proof.
  induction m as [|m IH]; [by intros ?%elem_of_nil|].
  cbn [upper_bindings doc_bindings].
  intros [H|(c & Hin & Hc)%list_elem_of_bind]%elem_of_app; [by apply IH|].
  by destruct (bindings_sound _ _ _ _ Hin) as (b & _ & _ & -> & _).
Qed.

Lemma level_body_upper m roots term items st :
  tidy roots -> plain term ->
  exists st',
    level_body (pr_doc (S (S m)) roots term, items, st) (Z.of_nat (S (S m)))
    = Ret (pr_doc (S m) roots term,
           ins items (doc_bindings (S (S m)) roots), st').
Proof.
  intros Ht Hp.
  pose proof (ok_sg_doc (S (S m)) roots term Ht Hp ltac:(lia)) as Hok.
  destruct (level_body_seg _ _ _ items st Hok) as (st' & Hrun).
  exists st'.
  change (seg_text (sg_doc (S (S m)) roots term).1 (sg_doc (S (S m)) roots term).2)
    with (text_of (sg_doc (S (S m)) roots term)) in Hrun.
  change (seg_cut (sg_doc (S (S m)) roots term).1 (sg_doc (S (S m)) roots term).2)
    with (cut_of (sg_doc (S (S m)) roots term)) in Hrun.
  rewrite text_sg_doc, cut_sg_doc in Hrun.
  assert (seg_table (sg_doc (S (S m)) roots term).1
                    (sg_doc (S (S m)) roots term).2 [] items
          = Ret (ins items (doc_bindings (S (S m)) roots))) as Htab.
  { cbn [sg_doc doc_bindings]. apply table_sgrp_inside. apply table_join.
    eapply Forall_impl; [apply (tidy_each _ Ht)|].
    intros c Hc rest' items'. apply table_sg; [done|lia]. }
  by rewrite Htab in Hrun.
Qed.

Lemma levels_upper roots term m : forall items st,
  tidy roots -> plain term ->
  exists st',
    for_each level_body (levels (Z.of_nat (S m)))
             (pr_doc (S m) roots term, items, st)
    = for_each level_body [1]
        (pr_doc 1 roots term, ins items (upper_bindings m roots), st').
Proof.
  induction m as [|m IH]; intros items st Ht Hp.
  - exists st. done.
  - rewrite levels_S, for_each_cons.
    destruct (level_body_upper m roots term items st Ht Hp) as (st1 & ->).
    rewrite ret_bind.
    destruct (IH (ins items (doc_bindings (S (S m)) roots)) st1 Ht Hp)
      as (st' & ->).
    exists st'. cbn [upper_bindings]. by rewrite ins_app.
Qed.

Section Terminator.

Variable iter_order : list Z -> list Z.
Variable limit : nat.

(** X13. More than one character after the group of the roots, none of
    them a colon: the parser takes all but the last of them for the
    identity of the group.  If [int] rejects that text the parser raises
    its [ValueError]; otherwise the group is bound to an integer, nothing
    is bound to ['trunk'], and the parser raises [KeyError]. *)
Theorem long_terminator_raises (roots : list entry) (term : pystr) :
  Forall literals_ok (roots ≫= entries_of) ->
  NoDup (id_of <$> (roots ≫= entries_of)) ->
  plain term -> ":"%char ∉ term -> (2 <= length term)%nat ->
  _parse_newick iter_order limit (print_document roots term)
  = py_int (take (length term - 1) term) ≫= fun _ => Raise (KeyError Trunk).
Proof.
  intros Hlit Hnd Hp Hcolon Hlen.
  assert (tidy roots) as Ht by done.
  unfold _parse_newick, phase1. rewrite find_max_level_peak.
  pose proof (peak_document roots term Ht) as Hpeak.
  set (P := peak 0 (print_document roots term)) in *.
  destruct (levels_upper roots term (Z.to_nat P - 1) ∅ None Ht Hp)
    as (st & Hrun).
  replace (Z.of_nat (S (Z.to_nat P - 1))) with P in Hrun by lia.
  rewrite pr_doc_full in Hrun by lia. rewrite Hrun.
  cbn [pr_doc]. unfold grp. rewrite for_each_cons.
  rewrite (list_fmap_ext (pr 0) header roots) by (intros; apply pr_0).
  destruct (level_body_one_group (join (header <$> roots)) term
              (ins ∅ (upper_bindings (Z.to_nat P - 1) roots)) st)
    as (st' & ->); [by apply plain_flat, tidy_literals|done|].
  rewrite eval_dict_flat by (by apply tidy_literals || by apply tidy_distinct).
  unfold key_after, key_text.
  assert (index_of ":" term = None) as ->.
  { clear -Hcolon. induction term as [|x t IH]; [done|].
    apply not_elem_of_cons in Hcolon as [Hx Ht]. simpl.
    destruct (Ascii.eqb_spec x ":"); [congruence|]. by rewrite IH. }
  destruct (take (length term - 1) term) as [|x bid] eqn:E.
  { exfalso. apply (f_equal length) in E. rewrite length_take in E.
    simpl in E. lia. }
  destruct (py_int (x :: bid)) as [z|e|]; simpl; [|done|done].
  rewrite lookup_insert_ne by done. rewrite ins_empty.
  rewrite (proj1 (not_elem_of_list_to_map _ Trunk)); [done|].
  intros ([k d] & Hk & Hin)%list_elem_of_fmap. simpl in Hk. subst k.
  by apply upper_bindings_keys in Hin.
Qed.

End Terminator.

Lemma long_terminator_raises_witness :
  _parse_newick insertion_order 1000
    (print_document nested_document [";"%char; "010"%char])
  = Raise ValueError.
Proof.
  apply (long_terminator_raises insertion_order 1000 nested_document
           [";"%char; "010"%char]).
  - apply nested_document_well_formed.
  - apply nested_document_well_formed.
  - split; not_in_string.
  - not_in_string.
  - simpl. lia.
Defined.

(** ** A label array that is too short along an axis *)

(** Every component of the coordinate is below the extent of its axis. *)
Definition inside (c : coord) (sh : list nat) : Prop := Forall2 lt c sh.

#[global] Instance inside_dec c sh : Decision (inside c sh).
Proof. unfold inside. apply _. Defined.

Lemma elem_of_all_coords sh c : c ∈ all_coords sh <-> inside c sh.
Proof.
  unfold inside. revert c. induction sh as [|n sh IH]; intros c.
  - change (all_coords []) with [[] : coord]. rewrite list_elem_of_singleton.
    split; [by intros ->|by intros ->%Forall2_nil_inv_r].
  - rewrite all_coords_cons, list_elem_of_bind. split.
    + intros (i & (c' & -> & Hc')%list_elem_of_fmap & Hi%elem_of_seq).
      constructor; [lia|]. by apply IH.
    + intros (i & c' & Hi & Hc' & ->)%Forall2_cons_inv_r.
      exists i. split; [|apply elem_of_seq; lia].
      apply list_elem_of_fmap_2. by apply IH.
Qed.

Lemma nd_item_inside {A} sh : forall (fl : list A) c,
  length fl = size_of sh -> inside c sh ->
  exists x, nd_item sh fl c = Ret (Scalar x).
Proof.
  unfold inside. induction sh as [|n sh IH]; intros fl c Hfl Hc.
  - apply Forall2_nil_inv_r in Hc as ->.
    destruct fl as [|x fl]; [done|]. by exists x.
  - apply Forall2_cons_inv_r in Hc as (i & c' & Hi & Hc' & ->).
    rewrite size_of_cons in Hfl. cbn [nd_item].
    destruct (Nat.ltb_spec i n); [|lia].
    apply IH; [|done]. rewrite length_take, length_drop. nia.
Qed.

Lemma nd_item_outside {A} sh : forall (fl : list A) c,
  length fl = size_of sh -> length c = length sh -> ~ inside c sh ->
  nd_item sh fl c = Raise IndexError.
Proof.
  unfold inside. induction sh as [|n sh IH]; intros fl c Hfl Hlen Hout.
  - destruct c; [|done]. exfalso. apply Hout. constructor.
  - destruct c as [|i c]; [done|]. simpl in Hlen. cbn [nd_item].
    rewrite size_of_cons in Hfl.
    destruct (Nat.ltb_spec i n) as [Hi|Hi]; [|done].
    apply IH; [rewrite length_take, length_drop; nia|lia|].
    intros Hc. apply Hout. by constructor.
Qed.

Section Extent.

Context {D : Type}.
Variable iter_order : list Z -> list Z.
Variable limit : nat.

Lemma aggregate_step_inside (data : ndarray D) index_map st c :
  well_shaped data -> well_shaped index_map ->
  inside c (shape data) -> inside c (shape index_map) ->
  exists st', aggregate_step data index_map st c = Ret st'.
Proof.
  intros Hd Hi Hcd Hci. destruct st as [fx ix].
  destruct (nd_item_inside _ _ c Hi Hci) as (x & Hx).
  destruct (nd_item_inside _ _ c Hd Hcd) as (v & Hv).
  unfold aggregate_step, element, getitem. rewrite Hx, Hv. simpl.
  destruct (negb (x =? 0)); [|by eexists]. simpl.
  destruct (fx !! x); simpl; [|by eexists].
  destruct (ix !! x); by eexists.
Qed.

Lemma aggregate_step_outside (data : ndarray D) index_map st c :
  well_shaped index_map -> length c = length (shape index_map) ->
  ~ inside c (shape index_map) ->
  aggregate_step data index_map st c = Raise IndexError.
Proof.
  intros Hi Hlen Hout. destruct st as [fx ix].
  unfold aggregate_step, getitem.
  by rewrite (nd_item_outside _ _ c Hi Hlen Hout).
Qed.

Lemma aggregate_loop_outside (data : ndarray D) index_map cs : forall st,
  well_shaped data -> well_shaped index_map ->
  length (shape index_map) = length (shape data) ->
  Forall (fun c => inside c (shape data)) cs ->
  Exists (fun c => ~ inside c (shape index_map)) cs ->
  for_each (aggregate_step data index_map) cs st = Raise IndexError.
Proof.
  intros st Hd Hi Hax Hcs Hex. revert st.
  induction cs as [|c cs IH]; intros st; [by apply Exists_nil in Hex|].
  apply Forall_cons in Hcs as [Hc Hcs]. rewrite for_each_cons.
  destruct (decide (inside c (shape index_map))) as [Hin|Hout].
  - destruct (aggregate_step_inside data index_map st c Hd Hi Hc Hin)
      as (st' & ->).
    rewrite ret_bind. apply IH; [done|].
    by apply Exists_cons in Hex as [?|?].
  - rewrite aggregate_step_outside; [done|done| |done].
    rewrite Hax. by apply Forall2_length in Hc.
Qed.

(** X14. When the two arrays have the same number of axes and the label
    array is shorter than the data array along some axis, the data array
    not being empty, the aggregation loop reaches a coordinate outside
    the label array and the importer raises [IndexError]. *)
Theorem short_axis_raises (h5f : h5file D) (k a b : nat) :
  well_shaped (ds_data h5f) -> well_shaped (ds_index_map h5f) ->
  length (shape (ds_index_map h5f)) = length (shape (ds_data h5f)) ->
  size_of (shape (ds_data h5f)) ≠ O ->
  shape (ds_index_map h5f) !! k = Some a ->
  shape (ds_data h5f) !! k = Some b ->
  (a < b)%nat ->
  dendro_import_hdf5 iter_order limit h5f = Raise IndexError.
Proof.
  intros Hd Hi Hax Hsize Ha Hb Hab.
  unfold dendro_import_hdf5, aggregate.
  rewrite aggregate_loop_outside; try done.
  - apply Forall_forall. intros c. apply elem_of_all_coords.
  - apply Exists_exists. exists (Nat.pred <$> shape (ds_data h5f)). split.
    + apply elem_of_all_coords. unfold inside.
      apply Forall2_fmap_l, Forall_Forall2_diag, Forall_forall.
      intros n Hn. clear -Hsize Hn.
      induction (shape (ds_data h5f)) as [|m sh IH];
        [by apply elem_of_nil in Hn|].
      rewrite size_of_cons in Hsize.
      destruct m as [|m]; [simpl in Hsize; lia|].
      apply elem_of_cons in Hn as [->|Hn]; [simpl; lia|]. apply IH; [|done].
      intros E. rewrite E in Hsize. lia.
    + intros Hin.
      assert ((Nat.pred <$> shape (ds_data h5f)) !! k = Some (Nat.pred b)) as Hc.
      { by rewrite list_lookup_fmap, Hb. }
      pose proof (Forall2_lookup_lr _ _ _ _ _ _ Hin Hc Ha). lia.
Qed.

End Extent.

Lemma short_axis_raises_witness :
  dendro_import_hdf5 insertion_order 1000
    (mk_h5file 1 (arr1 [10; 11; 12; 13]) (arr1 [1; 1; 2]) two_leaves)
  = Raise IndexError.
Proof.
  apply (short_axis_raises insertion_order 1000
           (mk_h5file 1 (arr1 [10; 11; 12; 13]) (arr1 [1; 1; 2]) two_leaves)
           0 3 4).
  - reflexivity.
  - reflexivity.
  - reflexivity.
  - simpl. lia.
  - reflexivity.
  - reflexivity.
  - lia.
Defined.

(** ** The heights of the topology string *)

(** An entry without its heights. *)
Fixpoint erase_heights (e : entry) : entry :=
  match e with
  | ELeaf i _ => ELeaf i []
  | EBranch cs i _ =>
      EBranch ((fix go (l : list entry) : list entry :=
                  match l with
                  | [] => []
                  | c :: l' => erase_heights c :: go l'
                  end) cs) i []
  end.

Lemma erase_heights_branch cs i h :
  erase_heights (EBranch cs i h) = EBranch (erase_heights <$> cs) i [].
Proof. simpl. f_equal. Qed.

Section Heights.

Context {D : Type}.
Variable iter_order : list Z -> list Z.
Variable limit : nat.
Hypothesis iter_order_perm : forall ks, NoDup ks -> iter_order ks ≡ₚ ks.

Lemma tree_of_erase_heights pix (val : Z -> list D) m : forall e,
  (depth e <= m)%nat ->
  tree_of iter_order pix val (erase_heights e) = tree_of iter_order pix val e.
Proof.
  induction m as [|m IH]; intros [i h|cs i h] Hd; try done.
  - rewrite depth_branch in Hd. lia.
  - rewrite depth_branch in Hd.
    rewrite erase_heights_branch, !tree_of_unfold. f_equal.
    rewrite <- list_fmap_compose. f_equal.
    apply list_fmap_ext. intros k c Hc. apply IH.
    apply list_elem_of_lookup_2, forest_depth_elem in Hc. lia.
Qed.

Lemma trees_of_erase_heights pix (val : Z -> list D) (roots : list entry) :
  tree_of iter_order pix val <$> (erase_heights <$> roots)
  = tree_of iter_order pix val <$> roots.
Proof.
  rewrite <- list_fmap_compose. apply list_fmap_ext. intros k c Hc.
  by apply (tree_of_erase_heights pix val (depth c)).
Qed.

(** X15. The heights written in the topology string have no effect on
    the dendrogram: two well-formed documents that differ only in their
    heights and terminators decode, with the same arrays, to the same
    dendrogram. *)
Theorem heights_are_ignored (n : Z) (data : ndarray D) (index_map : ndarray Z)
    (roots1 roots2 : list entry) (term1 term2 : pystr) :
  erase_heights <$> roots1 = erase_heights <$> roots2 ->
  well_formed roots1 term1 -> well_formed roots2 term2 ->
  (forest_depth roots1 < limit)%nat -> (forest_depth roots2 < limit)%nat ->
  well_shaped data -> well_shaped index_map -> shape index_map = shape data ->
  Forall (fun b => id_of b ≠ 0 /\ id_of b ∈ flat index_map)
         ((roots1 ++ roots2) ≫= entries_of) ->
  Forall (fun b => is_group b = true -> subs b ≠ [])
         ((roots1 ++ roots2) ≫= entries_of) ->
  dendro_import_hdf5 iter_order limit
    (mk_h5file n data index_map (print_document roots1 term1))
  = dendro_import_hdf5 iter_order limit
      (mk_h5file n data index_map (print_document roots2 term2)).
Proof.
  intros Heq Hwf1 Hwf2 Hl1 Hl2 Hd Hi Hsh Hlab Hne.
  rewrite bind_app in Hlab, Hne.
  apply Forall_app in Hlab as [Hlab1 Hlab2].
  apply Forall_app in Hne as [Hne1 Hne2].
  rewrite (import_success iter_order limit iter_order_perm
             (mk_h5file n data index_map (print_document roots1 term1))
             roots1 term1) by done.
  rewrite (import_success iter_order limit iter_order_perm
             (mk_h5file n data index_map (print_document roots2 term2))
             roots2 term2) by done.
  cbn [attr_n_dim ds_data ds_index_map].
  by rewrite <- (trees_of_erase_heights _ _ roots1), Heq,
       trees_of_erase_heights.
Qed.

End Heights.

Lemma leaf_1_in_branch : leaf_1 ∈ nodes_of dendrogram_branch.
Proof. apply list_elem_of_further, list_elem_of_here. Qed.

Lemma leaf_2_in_branch : leaf_2 ∈ nodes_of dendrogram_branch.
Proof. do 2 apply list_elem_of_further. apply list_elem_of_here. Qed.

Lemma node_owns_its_label_witness :
  NoDup (indices leaf_1)
  /\ forall c, c ∈ indices leaf_1
       <-> c ∈ all_coords (shape (ds_data file_branch))
           /\ getitem (ds_index_map file_branch) c = Ret (Scalar (idx leaf_1)).
Proof.
  apply (node_owns_its_label insertion_order 1000 file_branch
           dendrogram_branch leaf_1).
  - reflexivity.
  - reflexivity.
  - reflexivity.
  - vm_compute. reflexivity.
  - apply leaf_1_in_branch.
Defined.

Lemma node_values_at_coords_witness :
  Forall2 (fun c v => element (ds_data file_branch) c = Ret v)
          (indices leaf_2) (values leaf_2).
Proof.
  apply (node_values_at_coords insertion_order 1000 file_branch
           dendrogram_branch leaf_2).
  - reflexivity.
  - reflexivity.
  - reflexivity.
  - vm_compute. reflexivity.
  - apply leaf_2_in_branch.
Defined.

Lemma nodes_share_no_pixel_witness :
  idx leaf_1 ≠ idx leaf_2
  /\ forall c, c ∈ indices leaf_1 -> c ∉ indices leaf_2.
Proof.
  split; [vm_compute; discriminate|].
  apply (nodes_share_no_pixel insertion_order 1000 file_branch
           dendrogram_branch leaf_1 leaf_2).
  - reflexivity.
  - reflexivity.
  - reflexivity.
  - vm_compute. reflexivity.
  - apply leaf_1_in_branch.
  - apply leaf_2_in_branch.
  - vm_compute. discriminate.
Defined.

(** [nested_document] with other heights:
    ["((1:3,(7:3)2:3)3:3,9:3);"]. *)
Definition nested_document_level : list entry :=
  [EBranch [ELeaf (py "1") (py "3");
            EBranch [ELeaf (py "7") (py "3")] (py "2") (py "3")]
           (py "3") (py "3");
   ELeaf (py "9") (py "3")].

Lemma heights_are_ignored_witness :
  dendro_import_hdf5 insertion_order 1000
    (mk_h5file 1 (arr1 [10; 11; 12; 13; 14; 15]) (arr1 [1; 7; 2; 3; 9; 0])
       (print_document nested_document (py ";")))
  = dendro_import_hdf5 insertion_order 1000
      (mk_h5file 1 (arr1 [10; 11; 12; 13; 14; 15]) (arr1 [1; 7; 2; 3; 9; 0])
         (print_document nested_document_level [])).
Proof.
  apply (heights_are_ignored insertion_order 1000
           (fun ks _ => Permutation_refl ks)).
  - reflexivity.
  - document_well_formed.
  - document_well_formed.
  - vm_compute. lia.
  - vm_compute. lia.
  - reflexivity.
  - reflexivity.
  - reflexivity.
  - each_entry ltac:(split; [vm_compute; discriminate|label_in_array]).
  - each_entry group_not_empty.
Defined.


(** * Two runs on one file *)

Lemma for_each_alike {A S} (P : S -> Prop) (body1 body2 : S -> A -> outcome S) xs :
  (forall st x, P st -> body1 st x = body2 st x) ->
  (forall st x st', P st -> body1 st x = Ret st' -> P st') ->
  forall st, P st -> for_each body1 xs st = for_each body2 xs st.
Proof.
  intros Hsame Hkeep. induction xs as [|x xs IH]; intros st HP; [done|].
  rewrite !for_each_cons, <- (Hsame st x HP).
  destruct (body1 st x) as [st'| |] eqn:E; simpl; [|done|done].
  apply IH. by eapply Hkeep.
Qed.

Lemma dict_get_elem (d : dict) i v : dict_get d i = Some v -> i ∈ dict_keys d.
Proof.
  induction d as [|[k w] d IH]; [done|].
  unfold dict_keys. rewrite fmap_cons. simpl.
  destruct (decide (k = i)) as [->|Hne]; [intros _; apply list_elem_of_here|].
  intros H. apply list_elem_of_further. by apply IH.
Qed.

Lemma same_keys_trans st1 st2 st3 :
  same_keys st1 st2 -> same_keys st2 st3 -> same_keys st1 st3.
Proof. intros H1 H2 k. by rewrite (H2 k), (H1 k). Qed.

(** [collect] rebinds values in place: whatever the order of iteration, the
    table it returns has the keys of the table it was given, in the same
    order. *)
Lemma collect_same_keys iter fuel : forall k items r,
  collect iter fuel k items = Ret r -> same_keys items r.
Proof.
  induction fuel as [|fuel IH]; intros k items r; [done|].
  rewrite collect_S. destruct (items !! k) as [d|] eqn:Hd; [|done].
  apply (for_each_invariant (same_keys items)); [|done].
  intros st item st' _ Hst. unfold collect_body.
  destruct (st !! Id item) as [di|] eqn:Ei; [|by intros [= <-]].
  intros (r1 & Hr1%IH & H)%bind_Ret.
  destruct (r1 !! k) as [d'|] eqn:Er; [|done].
  destruct (dict_get d' item) as [old|] eqn:Eg; [|done].
  inversion H; subst st'. apply (same_keys_trans _ st); [done|].
  apply (same_keys_trans _ r1); [done|].
  intros k'. destruct (decide (k' = k)) as [->|Hne].
  - rewrite lookup_insert_eq, Er. simpl. f_equal.
    apply dict_set_keys. by eapply dict_get_elem.
  - by rewrite lookup_insert_ne.
Qed.

Section Runs.

Context {D : Type}.

(** The orders in which two runs iterate over a dictionary. *)
Variables iter1 iter2 : list Z -> list Z.

(** Both runs iterate alike over every dictionary of the table. *)
Definition alike (items : gmap key dict) : Prop :=
  forall k d, items !! k = Some d -> iter1 (dict_keys d) = iter2 (dict_keys d).

Lemma alike_same_keys items r : alike items -> same_keys items r -> alike r.
Proof.
  intros Ha Hs k d' Hk. specialize (Hs k). rewrite Hk in Hs. simpl in Hs.
  destruct (items !! k) as [d|] eqn:Ed; [|done].
  injection Hs as ->. by apply (Ha k d).
Qed.

Lemma collect_alike fuel : forall k items,
  alike items -> collect iter1 fuel k items = collect iter2 fuel k items.
Proof.
  induction fuel as [|fuel IH]; intros k items Ha; [done|].
  rewrite !collect_S. destruct (items !! k) as [d|] eqn:Hd; [|done].
  rewrite <- (Ha k d Hd).
  apply (for_each_alike alike); [| |done].
  - intros st item Hst. unfold collect_body.
    destruct (st !! Id item); [|done]. by rewrite (IH _ _ Hst).
  - intros st item st' Hst. unfold collect_body.
    destruct (st !! Id item) as [di|] eqn:Ei; [|by intros [= <-]].
    intros (r1 & Hr1%collect_same_keys & H)%bind_Ret.
    destruct (r1 !! k) as [d'|] eqn:Er; [|done].
    destruct (dict_get d' item) as [old|] eqn:Eg; [|done].
    inversion H; subst st'.
    apply (alike_same_keys r1); [by apply (alike_same_keys st)|].
    intros k'. destruct (decide (k' = k)) as [->|Hne].
    + rewrite lookup_insert_eq, Er. simpl. f_equal.
      apply dict_set_keys. by eapply dict_get_elem.
    + by rewrite lookup_insert_ne.
Qed.

Lemma construct_alike (fx : gmap Z (list D)) ix items fuel : forall k,
  alike items ->
  _construct_tree iter1 fuel items fx ix k
  = _construct_tree iter2 fuel items fx ix k.
Proof.
  induction fuel as [|fuel IH]; intros k Ha; [done|].
  rewrite !construct_S. destruct (items !! k) as [repr|] eqn:Hk; [|done].
  rewrite <- (Ha k repr Hk).
  apply (for_each_alike (fun _ => True)); [|done|done].
  intros nodes i _. unfold construct_body.
  destruct (subscript ix i); [|done|done]. rewrite !ret_bind.
  destruct (subscript fx i); [|done|done]. rewrite !ret_bind.
  destruct (dict_get repr i) as [[h|ref old]|]; [done| |done].
  rewrite (IH (Id ref) Ha).
  destruct (_construct_tree iter2 fuel items fx ix (Id ref)); [|done|done].
  rewrite !ret_bind.
  destruct (items !! Id ref) as [sr|] eqn:Hr; [|done].
  unfold first_value. by rewrite (Ha _ _ Hr).
Qed.

Variable limit : nat.

(** C9. Two runs of the importer on one file can differ in one thing
    only: the order in which the interpreter iterates over a dictionary.
    Phase 1 iterates over none, and [collect] rebinds values without
    moving a key.  So if the two runs iterate alike over the dictionaries
    that phase 1 evaluates from the topology string, they end alike: with
    the same exception, or with the same dendrogram, the children of
    every node in the same order. *)
Theorem import_deterministic (h5f : h5file D) :
  (forall s table st k d,
      phase1 (ds_newick h5f) = Ret (s, table, st) ->
      table !! k = Some d -> iter1 (dict_keys d) = iter2 (dict_keys d)) ->
  dendro_import_hdf5 iter1 limit h5f = dendro_import_hdf5 iter2 limit h5f.
Proof.
  intros Hsame. unfold dendro_import_hdf5.
  destruct (aggregate (ds_data h5f) (ds_index_map h5f)) as [ag| |];
    [|done|done].
  rewrite !ret_bind.
  assert (_parse_newick iter1 limit (ds_newick h5f)
          = _parse_newick iter2 limit (ds_newick h5f)
          /\ forall items, _parse_newick iter1 limit (ds_newick h5f) = Ret items ->
                           alike items) as [Hparse Halike].
  { unfold _parse_newick.
    destruct (phase1 (ds_newick h5f)) as [[[s table] st]| |] eqn:Hp;
      [|done|done].
    rewrite !ret_bind. cbn [fst snd].
    assert (alike table) as Ha by (intros k d; by apply (Hsame s table st)).
    destruct (table !! Trunk) as [d|]; [|done].
    split; [by apply collect_alike|].
    intros items Hc%collect_same_keys. by apply (alike_same_keys table). }
  rewrite <- Hparse.
  destruct (_parse_newick iter1 limit (ds_newick h5f)) as [items| |] eqn:Hi;
    [|done|done].
  rewrite !ret_bind. by rewrite (construct_alike _ _ _ _ _ (Halike items eq_refl)).
Qed.

End Runs.

Lemma import_deterministic_witness :
  (forall s table st k d,
      phase1 (ds_newick file_branch) = Ret (s, table, st) ->
      table !! k = Some d ->
      insertion_order (dict_keys d) = ascending_order (dict_keys d))
  /\ dendro_import_hdf5 insertion_order 1000 file_branch
     = dendro_import_hdf5 ascending_order 1000 file_branch.
Proof.
  assert (forall s table st k d,
      phase1 (ds_newick file_branch) = Ret (s, table, st) ->
      table !! k = Some d ->
      insertion_order (dict_keys d) = ascending_order (dict_keys d)) as H.
  { intros s table st k d Hp.
    assert (phase1 (ds_newick file_branch)
            = Ret (py ";",
                   <[Trunk := [(3, VNum 4)]]>
                     (<[Id 3 := [(1, VNum 1); (2, VNum (3 # 2))]]> ∅),
                   Some 0)) as Hq by (vm_compute; reflexivity).
    rewrite Hq in Hp. injection Hp as <- <- <-.
    intros [[<- <-]|[_ [[<- <-]|[_ Hk]]%lookup_insert_Some]]%lookup_insert_Some.
    - vm_compute. reflexivity.
    - vm_compute. reflexivity.
    - by rewrite lookup_empty in Hk. }
  split; [exact H|].
  apply (import_deterministic insertion_order ascending_order 1000 file_branch H).
Defined.

(** The agreement is needed: where two interpreters iterate differently
    over the dictionary of the roots, the roots come in different
    orders. *)
Lemma children_follow_iteration :
  dendro_import_hdf5 insertion_order 1000 file_two_leaves_swapped
  <> dendro_import_hdf5 ascending_order 1000 file_two_leaves_swapped.
Proof. vm_compute. discriminate. Qed.


(** * Encoding a dendrogram and decoding it again *)

(** Induction on a node, with the property at hand for every child. *)
Lemma Structure_forall_ind {D} (P : Structure D -> Prop) :
  (forall i v cs k l, Forall P cs -> P (mk_Structure i v cs k l)) ->
  forall n, P n.
Proof.
  intros H. fix IH 1. intros [i v cs k l]. apply H.
  induction cs as [|c cs IHcs]; constructor; [apply IH|apply IHcs].
Qed.

Lemma fmap_Forall_eq {A B} (f g : A -> B) (l : list A) :
  Forall (fun x => f x = g x) l -> f <$> l = g <$> l.
Proof. induction 1 as [|x l Hx _ IH]; [done|]. by rewrite !fmap_cons, Hx, IH. Qed.

Lemma fmap_Forall_id {A} (f : A -> A) (l : list A) :
  Forall (fun x => f x = x) l -> f <$> l = l.
Proof. intros H. rewrite <- (list_fmap_id l) at 2. by apply fmap_Forall_eq. Qed.

Lemma sublist_bind_elem {A B} (f : A -> list B) (l : list A) x :
  x ∈ l -> f x `sublist_of` l ≫= f.
Proof.
  induction l as [|y l IH]; [by intros ?%elem_of_nil|].
  rewrite bind_cons. intros [->|Hx]%elem_of_cons.
  - by apply sublist_inserts_r.
  - by apply sublist_inserts_l, IH.
Qed.

Section Nodes.

Context {D : Type}.

Lemma children_sublist (cs : list (Structure D)) :
  cs `sublist_of` cs ≫= subnodes.
Proof.
  induction cs as [|c cs IH]; [done|].
  rewrite bind_cons, subnodes_unfold. cbn [app].
  apply sublist_skip. by apply sublist_inserts_l.
Qed.

Lemma node_depth_unfold (n : Structure D) :
  node_depth n
  = match children n with
    | [] => O
    | cs => S (foldr Nat.max O (node_depth <$> cs))
    end.
Proof.
  destruct n as [i v [|c cs] k l]; [reflexivity|]. simpl. do 2 f_equal.
  induction cs as [|x cs IH]; [reflexivity|]. simpl. by rewrite IH.
Qed.

Lemma node_depth_set_level l (n : Structure D) :
  node_depth (set_level l n) = node_depth n.
Proof. by rewrite !node_depth_unfold. Qed.

Lemma node_depth_bound (cs : list (Structure D)) B :
  Forall (fun c => (node_depth c < B)%nat) cs ->
  cs ≠ [] -> (foldr Nat.max O (node_depth <$> cs) < B)%nat.
Proof.
  induction 1 as [|c cs Hc Hcs IH]; [done|]. intros _.
  rewrite fmap_cons. simpl. destruct cs as [|c' cs']; [simpl; lia|].
  specialize (IH ltac:(done)). lia.
Qed.

Variable iter_order : list Z -> list Z.

(** What the builder returns: nodes without [_level], nested less deeply
    than the recursion allows, the identities of a list of children as
    the interpreter iterates over them. *)
Lemma construct_unlevelled fuel : forall items (fx : gmap Z (list D)) ix k nodes,
  _construct_tree iter_order fuel items fx ix k = Ret nodes ->
  Forall (fun m => _level m = None) (nodes ≫= subnodes).
Proof.
  induction fuel as [|fuel IH]; intros items fx ix k nodes; simpl; [done|].
  destruct (items !! k) as [repr|]; [|done].
  apply (for_each_invariant
           (fun acc => Forall (fun m => _level m = None) (acc ≫= subnodes)));
    [|constructor].
  intros acc i acc' _ Hacc Hbody.
  apply bind_Ret in Hbody as (ni & _ & Hbody).
  apply bind_Ret in Hbody as (f & _ & Hbody).
  destruct (dict_get repr i) as [[h|ref old]|]; [| |done].
  - inversion Hbody; subst. rewrite bind_app. apply Forall_app. split; [done|].
    rewrite bind_cons, subnodes_unfold. simpl. by repeat constructor.
  - apply bind_Ret in Hbody as (sub & Hsub%IH & Hbody).
    destruct (items !! Id ref) as [sr|]; [|done].
    apply bind_Ret in Hbody as (fc & _ & Hbody).
    inversion Hbody; subst. rewrite bind_app. apply Forall_app. split; [done|].
    rewrite bind_cons, subnodes_unfold. simpl. rewrite app_nil_r.
    by constructor.
Qed.

Lemma construct_depth fuel : forall items (fx : gmap Z (list D)) ix k nodes,
  _construct_tree iter_order fuel items fx ix k = Ret nodes ->
  Forall (fun n => (node_depth n < fuel)%nat) nodes.
Proof.
  induction fuel as [|fuel IH]; intros items fx ix k nodes; simpl; [done|].
  destruct (items !! k) as [repr|]; [|done].
  apply (for_each_invariant
           (fun acc => Forall (fun n => (node_depth n < S fuel)%nat) acc));
    [|constructor].
  intros acc i acc' _ Hacc Hbody.
  apply bind_Ret in Hbody as (ni & _ & Hbody).
  apply bind_Ret in Hbody as (f & _ & Hbody).
  destruct (dict_get repr i) as [[h|ref old]|]; [| |done].
  - inversion Hbody; subst. apply Forall_app. split; [done|].
    constructor; [|constructor]. simpl. lia.
  - apply bind_Ret in Hbody as (sub & Hsub%IH & Hbody).
    destruct (items !! Id ref) as [sr|]; [|done].
    apply bind_Ret in Hbody as (fc & _ & Hbody).
    inversion Hbody; subst. apply Forall_app. split; [done|].
    constructor; [|constructor]. rewrite node_depth_unfold. cbn [children].
    destruct sub as [|c sub]; [lia|].
    pose proof (node_depth_bound (c :: sub) fuel Hsub ltac:(done)). lia.
Qed.

End Nodes.

Section Writing.

Context {D : Type}.
Variable write_id : Z -> pystr.
Variable write_height : Structure D -> pystr.
Variable terminator : pystr.

Local Abbreviation enc := (entry_of write_id write_height).

Lemma entry_of_unfold (n : Structure D) :
  enc n
  = match children n with
    | [] => ELeaf (write_id (idx n)) (write_height n)
    | cs => EBranch (enc <$> cs) (write_id (idx n)) (write_height n)
    end.
Proof. by destruct n as [i v [|c cs] k l]. Qed.

Lemma to_newick_node_unfold (n : Structure D) :
  to_newick_node write_id write_height n
  = match children n with
    | [] => []
    | cs => "("%char :: join (to_newick_node write_id write_height <$> cs)
              ++ [")"%char]
    end ++ write_id (idx n) ++ ":"%char :: write_height n.
Proof. by destruct n as [i v [|c cs] k l]. Qed.

Lemma id_text_entry_of (n : Structure D) : id_text (enc n) = write_id (idx n).
Proof. rewrite entry_of_unfold. by destruct (children n). Qed.

Lemma height_text_entry_of (n : Structure D) :
  height_text (enc n) = write_height n.
Proof. rewrite entry_of_unfold. by destruct (children n). Qed.

Lemma subs_entry_of (n : Structure D) : subs (enc n) = enc <$> children n.
Proof. rewrite entry_of_unfold. by destruct (children n). Qed.

(** The encoder prints the syntax tree of the node. *)
Lemma print_entry_of : forall n : Structure D,
  print_entry (enc n) = to_newick_node write_id write_height n.
Proof.
  induction n as [i v cs k l IH] using Structure_forall_ind.
  rewrite entry_of_unfold, to_newick_node_unfold. cbn [children idx].
  destruct cs as [|c cs]; [done|].
  assert (print_entry <$> (enc <$> c :: cs)
          = to_newick_node write_id write_height <$> c :: cs) as Hsub.
  { rewrite <- list_fmap_compose. by apply fmap_Forall_eq. }
  rewrite print_entry_branch, Hsub. unfold grp, header.
  cbn [id_text height_text]. simpl. f_equal. by rewrite <- !app_assoc.
Qed.

Lemma to_newick_document (roots : list (Structure D)) :
  to_newick write_id write_height terminator roots
  = print_document (enc <$> roots) terminator.
Proof.
  unfold to_newick, print_document. do 3 f_equal.
  rewrite <- list_fmap_compose. symmetry. apply list_fmap_ext.
  intros j n _. apply print_entry_of.
Qed.

Lemma entries_of_entry_of : forall n : Structure D,
  entries_of (enc n) = enc <$> subnodes n.
Proof.
  induction n as [i v cs k l IH] using Structure_forall_ind.
  rewrite entries_of_unfold, subs_entry_of, subnodes_unfold, fmap_cons.
  cbn [children]. f_equal.
  induction IH as [|c cs Hc _ IHcs]; [done|].
  by rewrite fmap_cons, !bind_cons, fmap_app, Hc, IHcs.
Qed.

Lemma entries_of_forest (ns : list (Structure D)) :
  (enc <$> ns) ≫= entries_of = enc <$> (ns ≫= subnodes).
Proof.
  induction ns as [|n ns IH]; [done|].
  by rewrite fmap_cons, !bind_cons, fmap_app, entries_of_entry_of, IH.
Qed.

Lemma depth_entry_of : forall n : Structure D, depth (enc n) = node_depth n.
Proof.
  induction n as [i v cs k l IH] using Structure_forall_ind.
  rewrite entry_of_unfold, node_depth_unfold. cbn [children].
  destruct cs as [|c cs]; [done|].
  rewrite depth_branch. f_equal. unfold forest_depth. f_equal.
  rewrite <- list_fmap_compose. by apply fmap_Forall_eq.
Qed.

Lemma forest_depth_entry_of (ns : list (Structure D)) B :
  Forall (fun n => (node_depth n < B)%nat) ns -> (0 < B)%nat ->
  (forest_depth (enc <$> ns) < B)%nat.
Proof.
  intros Hns HB. unfold forest_depth.
  rewrite <- list_fmap_compose.
  rewrite (list_fmap_ext _ node_depth ns) by (intros; apply depth_entry_of).
  destruct ns as [|n ns]; [simpl; lia|].
  by apply node_depth_bound.
Qed.

(** Where the identity written for a node is a literal that denotes it. *)
Definition writes_identity (n : Structure D) : Prop :=
  int_literal (write_id (idx n)) = Some (idx n).

Lemma id_of_entry_of (n : Structure D) :
  writes_identity n -> id_of (enc n) = idx n.
Proof. intros H. unfold id_of. by rewrite id_text_entry_of, H. Qed.

Lemma ids_of_entries (ns : list (Structure D)) :
  Forall writes_identity ns -> id_of <$> (enc <$> ns) = idx <$> ns.
Proof.
  intros H. rewrite <- list_fmap_compose. apply fmap_Forall_eq.
  eapply Forall_impl; [exact H|]. intros n. apply id_of_entry_of.
Qed.

(** The nested mapping of the text written is the one of the nodes. *)
Lemma nested_of_entry_of : forall n : Structure D,
  Forall writes_identity (subnodes n) ->
  nested_of (enc n) = written write_height n.
Proof.
  induction n as [i v cs k l IH] using Structure_forall_ind.
  rewrite subnodes_unfold. cbn [children].
  intros [Hn Hcs]%Forall_cons.
  assert (nested_of <$> (enc <$> cs) = written write_height <$> cs) as Hsub.
  { rewrite <- list_fmap_compose. apply fmap_Forall_eq.
    rewrite Forall_forall in IH. apply Forall_forall. intros c Hc.
    apply (IH c Hc). apply Forall_forall. intros m Hm.
    rewrite Forall_forall in Hcs. apply Hcs.
    apply list_elem_of_bind. by exists c. }
  pose proof (id_of_entry_of _ Hn) as Hid.
  rewrite entry_of_unfold in *. cbn [children idx] in *.
  destruct cs as [|c cs].
  - cbn [nested_of written]. by rewrite Hid.
  - rewrite nested_of_branch, Hid, Hsub. cbn [written]. do 2 f_equal.
Qed.

End Writing.

Lemma subnodes_sublist {D} (n : Structure D) : forall m,
  m ∈ subnodes n -> subnodes m `sublist_of` subnodes n.
Proof.
  induction n as [i v cs k l IH] using Structure_forall_ind. intros m.
  rewrite (subnodes_unfold (mk_Structure i v cs k l)). cbn [children].
  intros [->|Hm]%elem_of_cons.
  - by rewrite subnodes_unfold.
  - apply sublist_cons.
    apply list_elem_of_bind in Hm as (c & Hm & Hc).
    rewrite Forall_forall in IH.
    transitivity (subnodes c); [by apply IH|by apply sublist_bind_elem].
Qed.

Section Rebuilding.

Context {D : Type}.
Variable iter_order : list Z -> list Z.
Variable write_id : Z -> pystr.
Variable write_height : Structure D -> pystr.
Variable pix : Z -> list coord.
Variable val : Z -> list D.

Local Abbreviation enc := (entry_of write_id write_height).
Local Abbreviation node_of := (tree_of iter_order pix val).

(** What the decoder needs of a node to build it again from the text
    written for it. *)
Definition rebuilt (m : Structure D) : Prop :=
  pix (idx m) = indices m /\ val (idx m) = values m
  /\ writes_identity write_id m
  /\ iter_order (idx <$> children m) = idx <$> children m
  /\ NoDup (idx <$> children m).

Lemma tree_of_entry_of : forall n : Structure D,
  Forall rebuilt (subnodes n) ->
  Forall (fun m => _level m = None) (children n ≫= subnodes) ->
  node_of (enc n)
  = mk_Structure (indices n) (values n) (children n) (idx n) None.
Proof.
  induction n as [i v cs k l IH] using Structure_forall_ind.
  rewrite subnodes_unfold. cbn [children indices values idx].
  intros [(Hp & Hv & Hid & Hord & Hnd) Hcs]%Forall_cons Hlev.
  cbn [children indices values idx] in *.
  assert (node_of <$> (enc <$> cs) = cs) as Hsub.
  { rewrite <- list_fmap_compose. apply fmap_Forall_id.
    rewrite Forall_forall in IH. apply Forall_forall. intros c Hc.
    rewrite Forall_forall in Hcs. rewrite Forall_forall in Hlev.
    simpl. rewrite (IH c Hc).
    - assert (_level c = None) as Hl.
      { apply Hlev, list_elem_of_bind. exists c. split; [|done].
        rewrite subnodes_unfold. apply list_elem_of_here. }
      destruct c; simpl in *; by subst.
    - apply Forall_forall. intros m Hm. apply Hcs, list_elem_of_bind.
      by exists c.
    - apply Forall_forall. intros m Hm. apply Hlev, list_elem_of_bind.
      exists c. split; [|done]. rewrite subnodes_unfold.
      by apply list_elem_of_further. }
  rewrite (tree_of_unfold iter_order pix val).
  rewrite (id_of_entry_of _ _ _ Hid). cbn [idx]. rewrite Hp, Hv.
  f_equal. rewrite entry_of_unfold. cbn [children].
  destruct cs as [|c cs]; [done|].
  rewrite Hsub. unfold in_order. rewrite Hord. by apply omap_with_key.
Qed.

End Rebuilding.

Lemma bind_perm_pointwise {A B} (f g : A -> list B) (l : list A) :
  Forall (fun x => f x ≡ₚ g x) l -> l ≫= f ≡ₚ l ≫= g.
Proof.
  induction 1 as [|x l Hx _ IH]; [done|]. rewrite !bind_cons. by rewrite Hx, IH.
Qed.

Lemma fmap_bind_list {A B C} (f : B -> C) (g : A -> list B) (l : list A) :
  f <$> (l ≫= g) = l ≫= (fun x => f <$> g x).
Proof.
  induction l as [|x l IH]; [done|]. by rewrite !bind_cons, fmap_app, IH.
Qed.

Section Reordering.

Context {D : Type}.
Variable iter_order : list Z -> list Z.
Hypothesis iter_order_perm : forall ks, NoDup ks -> iter_order ks ≡ₚ ks.
Variable write_id : Z -> pystr.
Variable write_height : Structure D -> pystr.
Variable pix : Z -> list coord.
Variable val : Z -> list D.

(** The node that the builder makes of the text written for a node. *)
Definition decoded (n : Structure D) : Structure D :=
  tree_of iter_order pix val (entry_of write_id write_height n).

(** The decoder finds the identity and the pixels of the node. *)
Definition kept (m : Structure D) : Prop :=
  pix (idx m) = indices m /\ val (idx m) = values m
  /\ writes_identity write_id m.

Lemma decoded_unfold n :
  kept n ->
  decoded n
  = mk_Structure (indices n) (values n)
      match children n with
      | [] => []
      | cs => in_order iter_order idx (decoded <$> cs)
      end
      (idx n) None.
Proof.
  intros (Hp & Hv & Hid). unfold decoded.
  rewrite (tree_of_unfold iter_order pix val), (id_of_entry_of _ _ _ Hid), Hp, Hv.
  f_equal. rewrite entry_of_unfold.
  destruct (children n) as [|c cs]; [done|]. by rewrite <- list_fmap_compose.
Qed.

Lemma decoded_idx n : kept n -> idx (decoded n) = idx n.
Proof. intros H. by rewrite (decoded_unfold n H). Qed.

Lemma decoded_ids (l : list (Structure D)) :
  Forall kept l -> idx <$> (decoded <$> l) = idx <$> l.
Proof.
  intros H. rewrite <- list_fmap_compose. apply fmap_Forall_eq.
  eapply Forall_impl; [exact H|]. intros m Hm. by apply decoded_idx.
Qed.

Lemma decoded_children n :
  kept n -> Forall kept (children n) -> NoDup (idx <$> children n) ->
  children (decoded n) ≡ₚ decoded <$> children n.
Proof.
  intros Hn Hcs Hnd. rewrite (decoded_unfold n Hn). cbn [children].
  destruct (children n) as [|c cs] eqn:E; [done|].
  apply (in_order_perm iter_order iter_order_perm idx).
  by rewrite decoded_ids.
Qed.

Lemma decoded_subnodes : forall n,
  Forall kept (subnodes n) ->
  Forall (fun m => NoDup (idx <$> children m)) (subnodes n) ->
  subnodes (decoded n) ≡ₚ decoded <$> subnodes n.
Proof.
  induction n as [i v cs k l IH] using Structure_forall_ind.
  set (n := mk_Structure i v cs k l).
  rewrite (subnodes_unfold n). cbn [children n].
  intros [Hn Hcs]%Forall_cons [Hnd Hnds]%Forall_cons.
  assert (Forall kept cs) as Hkc.
  { apply Forall_forall. intros c Hc. rewrite Forall_forall in Hcs.
    apply Hcs, list_elem_of_bind. exists c. split; [|done].
    rewrite subnodes_unfold. apply list_elem_of_here. }
  rewrite (subnodes_unfold (decoded n)), fmap_cons. f_equiv.
  rewrite (decoded_children n Hn Hkc Hnd). cbn [children n].
  rewrite list_fmap_bind, fmap_bind_list.
  apply bind_perm_pointwise.
  rewrite Forall_forall in IH. apply Forall_forall. intros c Hc. simpl.
  apply (IH c Hc).
  - apply Forall_forall. intros m Hm. rewrite Forall_forall in Hcs.
    apply Hcs, list_elem_of_bind. by exists c.
  - apply Forall_forall. intros m Hm. rewrite Forall_forall in Hnds.
    apply Hnds, list_elem_of_bind. by exists c.
Qed.

End Reordering.

Section RoundTrip.

Context {D : Type}.
Variable iter_order : list Z -> list Z.
Variable limit : nat.
Variable write_id : Z -> pystr.
Variable write_height : Structure D -> pystr.
Variable terminator : pystr.

Local Abbreviation enc := (entry_of write_id write_height).


End RoundTrip.



(** * The node objects and [nodes_dict]

    The importer builds [Structure] objects, stores references to them in
    [d.nodes_dict] and in the [children] of their parents, and assigns
    [_level] to the objects of the trunk afterwards.  This part models
    the objects and the references: a heap of objects, addressed by
    position, in the order of their construction. *)

Module Objects.

(** A [Structure] object; its children are references. *)
Record object (D : Type) := mk_object {
  o_indices : list coord;
  o_values : list D;
  o_children : list nat;
  o_idx : Z;
  o_level : option Z
}.

Arguments mk_object {D} o_indices o_values o_children o_idx o_level.
Arguments o_indices {D} _.
Arguments o_values {D} _.
Arguments o_children {D} _.
Arguments o_idx {D} _.
Arguments o_level {D} _.

Abbreviation heap D := (list (object D)).

(** [node._level = l] on an object. *)
Definition assign_level {D} (l : Z) (o : object D) : object D :=
  mk_object (o_indices o) (o_values o) (o_children o) (o_idx o) (Some l).

(** The dendrogram object: [trunk] and [nodes_dict] hold references into
    [objects]. *)
Record Dendrogram (D : Type) := mk_Dendrogram {
  n_dim : Z;
  data : ndarray D;
  index_map : ndarray Z;
  nodes_dict : gmap Z nat;
  trunk : list nat;
  objects : heap D
}.

Arguments mk_Dendrogram {D} n_dim data index_map nodes_dict trunk objects.
Arguments n_dim {D} _.
Arguments data {D} _.
Arguments index_map {D} _.
Arguments nodes_dict {D} _.
Arguments trunk {D} _.
Arguments objects {D} _.

Section Importer.

Context {D : Type}.
Variable iter_order : list Z -> list Z.
Variable limit : nat.

(** [for i in sub_nodes: d.nodes_dict[i.idx] = i].  A reference always
    designates an object; the loop skips an address outside the heap, and
    there is none: the references that a call returns lie inside
    the heap ([built_nodes_lt]). *)
Definition index_nodes (h : heap D) (sub_nodes : list nat)
    (nodes_dict : gmap Z nat) : gmap Z nat :=
  fold_left (fun nd i => match h !! i with
                         | Some o => <[o_idx o := i]> nd
                         | None => nd
                         end) sub_nodes nodes_dict.

(** [_construct_tree(repr)] with the objects it creates and the
    assignments to [d.nodes_dict]; the state is the heap and
    [nodes_dict]. *)
Fixpoint _construct_tree (fuel : nat) (items : gmap key dict)
    (flux_by_node : gmap Z (list D)) (indices_by_node : gmap Z (list coord))
    (k : key) (st : heap D * gmap Z nat)
  : outcome (list nat * (heap D * gmap Z nat)) :=
  match fuel with
  | O => Raise RuntimeError
  | S fuel' =>
      match items !! k with
      | None => Raise (KeyError k)
      | Some repr =>
          for_each
            (fun (acc : list nat * (heap D * gmap Z nat)) (idx : Z) =>
               let '(nodes, st) := acc in
               node_indices ← subscript indices_by_node idx;
               f ← subscript flux_by_node idx;
               match dict_get repr idx with
               | None => Raise (KeyError (Id idx))
               | Some (VTuple ref _) =>
                   sub ← _construct_tree fuel' items flux_by_node
                                         indices_by_node (Id ref) st;
                   let '(sub_nodes, (h, nodes_dict)) := sub in
                   let nodes_dict := index_nodes h sub_nodes nodes_dict in
                   let b := length h in
                   let h := h ++ [mk_object node_indices f sub_nodes idx None] in
                   match items !! Id ref with
                   | None => Raise (KeyError (Id ref))
                   | Some sub_nodes_repr =>
                       first_child_repr ← first_value iter_order sub_nodes_repr;
                       Ret (nodes ++ [b], (h, <[idx := b]> nodes_dict))
                   end
               | Some (VNum _) =>
                   let '(h, nodes_dict) := st in
                   let l := length h in
                   let h := h ++ [mk_object node_indices f [] idx None] in
                   Ret (nodes ++ [l], (h, <[idx := l]> nodes_dict))
               end)
            (iter_order (dict_keys repr)) ([], st)
      end
  end.

(** [for node in d.trunk: node._level = 0] *)
Definition cache_levels (trunk : list nat) (h : heap D) : heap D :=
  fold_left (fun h a => alter (assign_level 0) a h) trunk h.

Definition dendro_import_hdf5 (h5f : h5file D) : outcome (Dendrogram D) :=
  let data := ds_data h5f in
  let index_map := ds_index_map h5f in
  ag ← aggregate data index_map;
  repr ← _parse_newick iter_order limit (ds_newick h5f);
  built ← _construct_tree limit repr ag.1 ag.2 Trunk ([], ∅);
  let '(trunk, (h, nodes_dict)) := built in
  Ret (mk_Dendrogram (attr_n_dim h5f) data index_map nodes_dict trunk
                     (cache_levels trunk h)).

End Importer.

(** The node that an object stands for, its children read through their
    references.  The children of an object are older than the object, so
    one pass over the heap reads every node. *)
Definition read_object {D} (nodes : list (Structure D)) (o : object D)
  : option (Structure D) :=
  cs ← mapM (fun c => nodes !! c) (o_children o);
  Some (mk_Structure (o_indices o) (o_values o) cs (o_idx o) (o_level o)).

Definition read_heap {D} (h : heap D) : option (list (Structure D)) :=
  fold_left (fun acc o => nodes ← acc; n ← read_object nodes o; Some (nodes ++ [n]))
            h (Some []).

Section Reading.

Context {D : Type}.

Lemma read_heap_snoc (h : heap D) o :
  read_heap (h ++ [o])
  = nodes ← read_heap h; n ← read_object nodes o; Some (nodes ++ [n]).
Proof. unfold read_heap. by rewrite fold_left_app. Qed.

Lemma read_heap_length (h : heap D) R :
  read_heap h = Some R -> length R = length h.
Proof.
  revert R. induction h as [|o h IH] using rev_ind; intros R.
  - by intros [= <-].
  - rewrite read_heap_snoc. destruct (read_heap h) as [R0|]; [|done]. simpl.
    destruct (read_object R0 o) as [n|]; [|done]. simpl. intros [= <-].
    rewrite !length_app, (IH R0) by done. done.
Qed.

(** Every object is read as a node with its fields, whose children are
    the nodes read at the references of the object. *)
Definition reads (R : list (Structure D)) (o : object D) (n : Structure D)
  : Prop :=
  indices n = o_indices o /\ values n = o_values o /\ idx n = o_idx o
  /\ _level n = o_level o
  /\ Forall2 (fun c m => R !! c = Some m) (o_children o) (children n).

Lemma mapM_lookup (R : list (Structure D)) cs ms :
  mapM (fun c => R !! c) cs = Some ms <-> Forall2 (fun c m => R !! c = Some m) cs ms.
Proof. apply mapM_Some. Qed.

Lemma read_object_reads R o n : read_object R o = Some n <-> reads R o n.
Proof.
  unfold read_object, reads. split.
  - destruct (mapM _ _) as [cs|] eqn:E; [|done]. simpl. intros [= <-]. simpl.
    by apply mapM_lookup in E.
  - intros (H1 & H2 & H3 & H4 & H5%mapM_lookup). rewrite H5. simpl.
    destruct n; simpl in *. by subst.
Qed.

Lemma reads_app R R' o n : reads R o n -> reads (R ++ R') o n.
Proof.
  intros (H1 & H2 & H3 & H4 & H5). repeat split; try done.
  eapply Forall2_impl; [exact H5|]. intros c m Hc.
  by apply lookup_app_l_Some.
Qed.

Lemma read_heap_lookup (h : heap D) R a o :
  read_heap h = Some R -> h !! a = Some o ->
  exists n, R !! a = Some n /\ reads R o n.
Proof.
  revert R. induction h as [|o' h IH] using rev_ind; intros R; [done|].
  rewrite read_heap_snoc. destruct (read_heap h) as [R0|] eqn:E; [|done]. simpl.
  destruct (read_object R0 o') as [n'|] eqn:E'; [|done]. simpl. intros [= <-] Ha.
  pose proof (read_heap_length h R0 E) as Hlen.
  apply lookup_app_Some in Ha as [Ha|[Hge Ha]].
  - destruct (IH R0 eq_refl Ha) as (n & Hn & Hr).
    exists n. split; [by apply lookup_app_l_Some|by apply reads_app].
  - apply list_lookup_singleton_Some in Ha as [Ha ->].
    assert (a = length h) as -> by lia.
    exists n'. split.
    + rewrite <- Hlen. by rewrite lookup_app_r, Nat.sub_diag.
    + apply reads_app. by apply read_object_reads.
Qed.

End Reading.
Section Simulation.

Context {D : Type}.

Lemma read_heap_prefix (h seg : heap D) R' :
  read_heap (h ++ seg) = Some R' ->
  exists R R1, read_heap h = Some R /\ R' = R ++ R1.
Proof.
  revert R'. induction seg as [|o seg IH] using rev_ind; intros R'.
  - rewrite app_nil_r. intros H. exists R', []. by rewrite app_nil_r.
  - rewrite app_assoc, read_heap_snoc.
    destruct (read_heap (h ++ seg)) as [R2|]; [|done]. simpl.
    destruct (read_object R2 o) as [n|]; [|done]. simpl. intros [= <-].
    destruct (IH R2 eq_refl) as (R & R1 & HR & ->).
    exists R, (R1 ++ [n]). by rewrite app_assoc.
Qed.

Lemma index_nodes_snoc (h : heap D) sn a nd :
  index_nodes h (sn ++ [a]) nd
  = match h !! a with
    | Some o => <[o_idx o := a]> (index_nodes h sn nd)
    | None => index_nodes h sn nd
    end.
Proof. unfold index_nodes. by rewrite fold_left_app. Qed.

Lemma index_nodes_sound (h : heap D) sn nd i a :
  index_nodes h sn nd !! i = Some a ->
  nd !! i = Some a \/ (a ∈ sn /\ exists o, h !! a = Some o /\ o_idx o = i).
Proof.
  induction sn as [|x sn IH] using rev_ind; [by left|].
  rewrite index_nodes_snoc.
  assert (index_nodes h sn nd !! i = Some a ->
          nd !! i = Some a
          \/ (a ∈ sn ++ [x] /\ exists o, h !! a = Some o /\ o_idx o = i)) as Hold.
  { intros [?|[Ha Ho]]%IH; [by left|right]. split; [|done].
    apply elem_of_app. by left. }
  destruct (h !! x) as [o|] eqn:Ex; [|done].
  destruct (decide (o_idx o = i)) as [<-|Hne].
  - rewrite lookup_insert_eq. intros [= <-]. right.
    split; [apply elem_of_app; right; apply list_elem_of_here|by eauto].
  - by rewrite lookup_insert_ne.
Qed.

Lemma index_nodes_kept (h : heap D) sn nd i a :
  nd !! i = Some a ->
  exists a', index_nodes h sn nd !! i = Some a' /\ (a' = a \/ a' ∈ sn).
Proof.
  intros Hnd. induction sn as [|x sn IH] using rev_ind; [by eauto|].
  rewrite index_nodes_snoc. destruct IH as (a1 & H1 & Ha1).
  assert (a1 = a \/ a1 ∈ sn ++ [x]) as Ha1'.
  { destruct Ha1; [by left|right]. apply elem_of_app. by left. }
  destruct (h !! x) as [o|]; [|by eauto].
  destruct (decide (o_idx o = i)) as [<-|Hne].
  - rewrite lookup_insert_eq. eexists. split; [done|]. right.
    apply elem_of_app. right. apply list_elem_of_here.
  - rewrite lookup_insert_ne by done. eauto.
Qed.

(** The nodes strictly below a node. *)
Definition below (n : Structure D) : list (Structure D) :=
  children n ≫= subnodes.

Lemma below_subnodes (n m : Structure D) : m ∈ below n -> m ∈ subnodes n.
Proof. rewrite subnodes_unfold. apply list_elem_of_further. Qed.

Lemma subnodes_self (n : Structure D) : n ∈ subnodes n.
Proof. rewrite subnodes_unfold. apply list_elem_of_here. Qed.

(** What a call of [_construct_tree] has done when it returns the
    references [nodes]: [h0] and [nd0] are the heap and [nodes_dict] on
    entry, [R] reads the heap on return, [ns] are the nodes that the
    references stand for. *)
Record built (h0 : heap D) (nd0 : gmap Z nat) (nodes : list nat)
    (h : heap D) (nd : gmap Z nat) (R ns : list (Structure D)) : Prop := {
  b_heap : exists seg, h = h0 ++ seg;
  b_read : read_heap h = Some R;
  b_nodes : Forall2 (fun a n => R !! a = Some n) nodes ns;
  b_fresh : Forall (fun a => (length h0 <= a)%nat) nodes;
  b_children : forall a o c,
    h !! a = Some o -> (length h0 <= a)%nat -> c ∈ o_children o ->
    (length h0 <= c < a)%nat /\ c ∉ nodes;
  b_sound : forall i a, nd !! i = Some a ->
    nd0 !! i = Some a
    \/ ((length h0 <= a)%nat /\ exists n, R !! a = Some n /\ idx n = i);
  b_kept : forall i a, nd0 !! i = Some a ->
    exists a', nd !! i = Some a' /\ (a' = a \/ (length h0 <= a')%nat);
  b_covered : forall a n, (length h0 <= a)%nat -> R !! a = Some n ->
    exists a', nd !! idx n = Some a' /\ (length h0 <= a')%nat;
  b_member : forall a n, (length h0 <= a)%nat -> R !! a = Some n ->
    a ∈ nodes \/ n ∈ ns ≫= below;
  b_complete : forall n, n ∈ ns ≫= subnodes ->
    exists a, (length h0 <= a)%nat /\ R !! a = Some n
}.

Lemma built_init (h0 : heap D) nd0 R0 :
  read_heap h0 = Some R0 -> built h0 nd0 [] h0 nd0 R0 [].
Proof.
  intros HR. pose proof (read_heap_length _ _ HR) as Hlen. split.
  - exists []. by rewrite app_nil_r.
  - done.
  - constructor.
  - constructor.
  - intros a o c Ha Hge Hc. apply lookup_lt_Some in Ha. lia.
  - intros i a H. by left.
  - intros i a H. eauto.
  - intros a n Hge Ha. apply lookup_lt_Some in Ha. lia.
  - intros a n Hge Ha. apply lookup_lt_Some in Ha. lia.
  - intros n Hn. by apply elem_of_nil in Hn.
Qed.

Lemma built_nodes_lt h0 nd0 nodes (h : heap D) nd R ns a :
  built h0 nd0 nodes h nd R ns -> a ∈ nodes -> (a < length h)%nat.
Proof.
  intros B Ha. rewrite <- (read_heap_length _ _ (b_read _ _ _ _ _ _ _ B)).
  apply list_elem_of_lookup in Ha as (k & Hk).
  destruct (Forall2_lookup_l _ _ _ _ _ (b_nodes _ _ _ _ _ _ _ B) Hk)
    as (n & _ & Hn).
  by apply lookup_lt_Some in Hn.
Qed.

Lemma built_node_elem h0 nd0 nodes (h : heap D) nd R ns a n :
  built h0 nd0 nodes h nd R ns -> a ∈ nodes -> R !! a = Some n -> n ∈ ns.
Proof.
  intros B Ha Hn. apply list_elem_of_lookup in Ha as (k & Hk).
  destruct (Forall2_lookup_l _ _ _ _ _ (b_nodes _ _ _ _ _ _ _ B) Hk)
    as (n' & Hn' & Hr).
  rewrite Hn in Hr. injection Hr as <-. by eapply list_elem_of_lookup_2.
Qed.

Lemma built_branch h0 nd0 nodes (h : heap D) nd R ns
    sub_nodes h2 nd2 R2 sub_ns ni f i :
  built h0 nd0 nodes h nd R ns ->
  built h nd sub_nodes h2 nd2 R2 sub_ns ->
  built h0 nd0 (nodes ++ [length h2])
        (h2 ++ [mk_object ni f sub_nodes i None])
        (<[i := length h2]> (index_nodes h2 sub_nodes nd2))
        (R2 ++ [mk_Structure ni f sub_ns i None])
        (ns ++ [mk_Structure ni f sub_ns i None]).
Proof.
  intros B1 B2.
  set (ob := mk_object ni f sub_nodes i None).
  set (nb := mk_Structure ni f sub_ns i None).
  destruct (b_heap _ _ _ _ _ _ _ B1) as (seg1 & Hh).
  destruct (b_heap _ _ _ _ _ _ _ B2) as (seg2 & Hh2).
  pose proof (b_read _ _ _ _ _ _ _ B1) as HR.
  pose proof (b_read _ _ _ _ _ _ _ B2) as HR2.
  pose proof (read_heap_length _ _ HR) as HlenR.
  pose proof (read_heap_length _ _ HR2) as HlenR2.
  assert (exists R1, R2 = R ++ R1) as (R1 & HR12).
  { rewrite Hh2 in HR2. destruct (read_heap_prefix _ _ _ HR2) as (R' & R1 & H1 & H2).
    rewrite HR in H1. injection H1 as <-. eauto. }
  assert (length h0 <= length h)%nat as Hle1 by (rewrite Hh, length_app; lia).
  assert (length h <= length h2)%nat as Hle2 by (rewrite Hh2, length_app; lia).
  assert (forall a n, R !! a = Some n -> (R2 ++ [nb]) !! a = Some n) as Hold.
  { intros a n Ha. rewrite HR12. by do 2 apply lookup_app_l_Some. }
  assert (forall a n, R2 !! a = Some n -> (R2 ++ [nb]) !! a = Some n) as Hsub.
  { intros a n Ha. by apply lookup_app_l_Some. }
  assert ((R2 ++ [nb]) !! length h2 = Some nb) as Hnew.
  { rewrite <- HlenR2. by rewrite lookup_app_r, Nat.sub_diag. }
  assert (forall a n, (R2 ++ [nb]) !! a = Some n ->
            ((a < length h)%nat /\ R !! a = Some n)
            \/ ((length h <= a < length h2)%nat /\ R2 !! a = Some n)
            \/ (a = length h2 /\ n = nb)) as Hcases.
  { intros a n Ha. apply lookup_app_Some in Ha as [Ha|[Hge Ha]].
    - destruct (decide (a < length h)%nat) as [Hlt|Hge].
      + left. split; [done|]. rewrite HR12 in Ha.
        by rewrite lookup_app_l in Ha by lia.
      + right. left. apply lookup_lt_Some in Ha as Hlt. split; [lia|done].
    - right. right. apply list_lookup_singleton_Some in Ha as [Ha ->].
      split; [lia|done]. }
  assert (forall j a, nd !! j = Some a ->
            exists a', <[i := length h2]> (index_nodes h2 sub_nodes nd2) !! j
                       = Some a'
                       /\ (a' = a \/ (length h <= a')%nat)) as Hkept.
  { intros j a Ha.
    destruct (b_kept _ _ _ _ _ _ _ B2 j a Ha) as (a2 & H2 & Ha2).
    destruct (index_nodes_kept h2 sub_nodes nd2 j a2 H2) as (a3 & H3 & Ha3).
    destruct (decide (i = j)) as [->|Hne].
    - rewrite lookup_insert_eq. eexists. split; [done|]. right. lia.
    - rewrite lookup_insert_ne by done. exists a3. split; [done|].
      destruct Ha3 as [->|Hin]; [done|]. right.
      pose proof (b_fresh _ _ _ _ _ _ _ B2) as Hf. rewrite Forall_forall in Hf.
      by apply Hf. }
  split.
  - exists (seg1 ++ seg2 ++ [ob]). rewrite Hh2, Hh. by rewrite <- !app_assoc.
  - rewrite read_heap_snoc, HR2. simpl.
    assert (read_object R2 ob = Some nb) as ->; [|done].
    apply read_object_reads. repeat split; try done.
    apply (b_nodes _ _ _ _ _ _ _ B2).
  - apply Forall2_app; [|by repeat constructor].
    eapply Forall2_impl; [apply (b_nodes _ _ _ _ _ _ _ B1)|]. apply Hold.
  - apply Forall_app. split; [apply (b_fresh _ _ _ _ _ _ _ B1)|].
    repeat constructor. lia.
  - intros a o c Ha Hge Hc.
    assert (forall x, x ∈ nodes -> (x < length h)%nat) as Hnodes.
    { intros x. apply (built_nodes_lt _ _ _ _ _ _ _ _ B1). }
    assert (forall x, (length h <= x < length h2)%nat -> x ∉ nodes ++ [length h2])
      as Hmid.
    { intros x Hx [Hin|Hin%list_elem_of_singleton]%elem_of_app; [|lia].
      apply Hnodes in Hin. lia. }
    apply lookup_app_Some in Ha as [Ha|[Hge2 Ha]].
    + rewrite Hh2 in Ha. apply lookup_app_Some in Ha as [Ha|[Hge1 Ha]].
      * apply lookup_lt_Some in Ha as Hlt.
        destruct (b_children _ _ _ _ _ _ _ B1 a o c Ha Hge Hc) as [Hr Hn].
        split; [done|].
        intros [Hin|Hin%list_elem_of_singleton]%elem_of_app; [done|lia].
      * assert (h2 !! a = Some o) as Ha2.
        { rewrite Hh2. rewrite lookup_app_r by lia. done. }
        apply lookup_lt_Some in Ha2 as Hlt.
        destruct (b_children _ _ _ _ _ _ _ B2 a o c Ha2 Hge1 Hc) as [Hr Hn].
        split; [lia|]. apply Hmid. lia.
    + apply list_lookup_singleton_Some in Ha as [Ha <-]. simpl in Hc.
      assert (a = length h2) as -> by lia.
      pose proof (b_fresh _ _ _ _ _ _ _ B2) as Hf. rewrite Forall_forall in Hf.
      pose proof (built_nodes_lt _ _ _ _ _ _ _ _ B2 Hc) as Hlt.
      specialize (Hf c Hc). split; [lia|]. apply Hmid. lia.
  - intros j a Ha. destruct (decide (i = j)) as [->|Hne].
    + rewrite lookup_insert_eq in Ha. injection Ha as <-. right.
      split; [lia|]. by exists nb.
    + rewrite lookup_insert_ne in Ha by done.
      apply index_nodes_sound in Ha as [Ha|(Hin & o & Ho & Hidx)].
      * destruct (b_sound _ _ _ _ _ _ _ B2 j a Ha) as [Ha1|(Hge & n & Hn & Hi)].
        -- destruct (b_sound _ _ _ _ _ _ _ B1 j a Ha1) as [?|(Hge & n & Hn & Hi)];
             [by left|right].
           split; [done|]. exists n. split; [by apply Hold|done].
        -- right. split; [lia|]. exists n. split; [by apply Hsub|done].
      * right. destruct (read_heap_lookup _ _ _ _ HR2 Ho) as (n & Hn & Hr).
        pose proof (b_fresh _ _ _ _ _ _ _ B2) as Hf. rewrite Forall_forall in Hf.
        specialize (Hf a Hin). split; [lia|].
        exists n. split; [by apply Hsub|]. destruct Hr as (_ & _ & -> & _). done.
  - intros j a Ha.
    destruct (b_kept _ _ _ _ _ _ _ B1 j a Ha) as (a1 & H1 & Ha1).
    destruct (Hkept j a1 H1) as (a' & H' & Ha').
    exists a'. split; [done|]. destruct Ha' as [->|?]; [done|right; lia].
  - intros a n Hge Ha.
    destruct (Hcases a n Ha) as [[Hlt Hn]|[[Hr Hn]|[-> ->]]].
    + destruct (b_covered _ _ _ _ _ _ _ B1 a n Hge Hn) as (a1 & H1 & Ha1).
      destruct (Hkept _ a1 H1) as (a' & H' & Ha').
      exists a'. split; [done|]. destruct Ha' as [->|?]; [done|lia].
    + destruct (b_covered _ _ _ _ _ _ _ B2 a n ltac:(lia) Hn) as (a2 & H2 & Ha2).
      destruct (index_nodes_kept h2 sub_nodes nd2 _ a2 H2) as (a3 & H3 & Ha3).
      destruct (decide (i = idx n)) as [->|Hne].
      * rewrite lookup_insert_eq. eexists. split; [done|]. lia.
      * rewrite lookup_insert_ne by done. exists a3. split; [done|].
        destruct Ha3 as [->|Hin]; [lia|].
        pose proof (b_fresh _ _ _ _ _ _ _ B2) as Hf. rewrite Forall_forall in Hf.
        specialize (Hf a3 Hin). lia.
    + simpl. rewrite lookup_insert_eq. eexists. split; [done|]. lia.
  - intros a n Hge Ha. rewrite bind_app.
    destruct (Hcases a n Ha) as [[Hlt Hn]|[[Hr Hn]|[-> ->]]].
    + destruct (b_member _ _ _ _ _ _ _ B1 a n Hge Hn) as [Hin|Hin].
      * left. apply elem_of_app. by left.
      * right. apply elem_of_app. by left.
    + right. apply elem_of_app. right.
      rewrite bind_cons. apply elem_of_app. left. unfold below at 1. simpl.
      destruct (b_member _ _ _ _ _ _ _ B2 a n ltac:(lia) Hn) as [Hin|Hin].
      * apply list_elem_of_bind. exists n. split; [apply subnodes_self|].
        by apply (built_node_elem _ _ _ _ _ _ _ _ _ B2 Hin).
      * apply list_elem_of_bind in Hin as (m & Hnm & Hm).
        apply list_elem_of_bind. exists m. split; [by apply below_subnodes|done].
    + left. apply elem_of_app. right. apply list_elem_of_here.
  - intros n. rewrite bind_app.
    intros [Hn|Hn]%elem_of_app.
    + destruct (b_complete _ _ _ _ _ _ _ B1 n Hn) as (a & Hge & Ha).
      exists a. split; [done|by apply Hold].
    + rewrite bind_cons in Hn. apply elem_of_app in Hn as [Hn|Hn];
        [|by apply elem_of_nil in Hn].
      rewrite subnodes_unfold in Hn. apply elem_of_cons in Hn as [->|Hn].
      * exists (length h2). split; [lia|done].
      * simpl in Hn.
        destruct (b_complete _ _ _ _ _ _ _ B2 n Hn) as (a & Hge & Ha).
        exists a. split; [lia|by apply Hsub].
Qed.

End Simulation.

End Objects.

(** ** The objects stand for the nodes of the tree *)

(** Two computations end in the same way, with results related by [I]. *)
Definition agrees {S1 S2} (I : S1 -> S2 -> Prop)
    (m1 : outcome S1) (m2 : outcome S2) : Prop :=
  match m1 with
  | Ret s1 => exists s2, m2 = Ret s2 /\ I s1 s2
  | Raise e => m2 = Raise e
  | Beyond => m2 = Beyond
  end.

Lemma agrees_for_each {A S1 S2} (I : S1 -> S2 -> Prop)
    (b1 : S1 -> A -> outcome S1) (b2 : S2 -> A -> outcome S2) xs :
  (forall s1 s2 x, I s1 s2 -> agrees I (b1 s1 x) (b2 s2 x)) ->
  forall s1 s2, I s1 s2 -> agrees I (for_each b1 xs s1) (for_each b2 xs s2).
Proof.
  intros Hb. induction xs as [|x xs IH]; intros s1 s2 Hs; [by exists s2|].
  rewrite !for_each_cons. specialize (Hb s1 s2 x Hs).
  destruct (b1 s1 x) as [s1'|e|]; simpl in Hb.
  - destruct Hb as (s2' & -> & Hs'). rewrite !ret_bind. by apply IH.
  - by rewrite Hb.
  - by rewrite Hb.
Qed.

Section Refinement.

Context {D : Type}.
Variable iter_order : list Z -> list Z.

(** The state of the loop of [_construct_tree]. *)
Definition built_so_far (h0 : list (Objects.object D)) (nd0 : gmap Z nat)
    (acc : list nat * (list (Objects.object D) * gmap Z nat))
    (ns : list (Structure D)) : Prop :=
  exists R, Objects.built h0 nd0 acc.1 acc.2.1 acc.2.2 R ns.

Lemma construct_objects fuel : forall items fx ix k h0 nd0 R0,
  Objects.read_heap h0 = Some R0 ->
  agrees (built_so_far h0 nd0)
         (Objects._construct_tree iter_order fuel items fx ix k (h0, nd0))
         (_construct_tree iter_order fuel items fx ix k).
Proof.
  induction fuel as [|fuel IH]; intros items fx ix k h0 nd0 R0 HR0; [done|].
  simpl. destruct (items !! k) as [repr|]; [|done].
  apply agrees_for_each.
  2:{ exists R0. by apply Objects.built_init. }
  intros [nodes [h nd]] ns i (R & B). simpl in B.
  unfold subscript.
  destruct (ix !! i) as [ni|]; [|done].
  destruct (fx !! i) as [f|]; [|done]. rewrite !ret_bind.
  destruct (dict_get repr i) as [[q|ref old]|]; [| |done].
  - eexists. split; [done|]. eexists. simpl.
    apply (Objects.built_branch h0 nd0 nodes h nd R ns [] h nd R [] ni f i B).
    apply Objects.built_init, (Objects.b_read _ _ _ _ _ _ _ B).
  - pose proof (IH items fx ix (Id ref) h nd R
                  (Objects.b_read _ _ _ _ _ _ _ B)) as Hsub.
    destruct (Objects._construct_tree iter_order fuel items fx ix (Id ref) (h, nd))
      as [[sub_nodes [h2 nd2]]|e|]; simpl in Hsub.
    + destruct Hsub as (sub_ns & -> & R2 & B2). simpl in B2.
      rewrite !ret_bind. cbv beta iota.
      destruct (items !! Id ref) as [sr|]; [|done].
      destruct (first_value iter_order sr) as [fc|e|]; [|done|done].
      rewrite !ret_bind. eexists. split; [done|]. eexists. simpl.
      by apply (Objects.built_branch h0 nd0 nodes h nd R ns
                  sub_nodes h2 nd2 R2 sub_ns).
    + by rewrite Hsub.
    + by rewrite Hsub.
Qed.

End Refinement.

(** ** The levels of the trunk and [nodes_dict] *)

Section Levels.

Context {D : Type}.

(** The nodes read from the heap once [_level] is assigned at the
    references [T]. *)
Definition cached (T : list nat) (R : list (Structure D))
  : list (Structure D) :=
  fold_left (fun R a => alter (set_level 0) a R) T R.

Lemma read_object_alter (R : list (Structure D)) a o :
  a ∉ Objects.o_children o ->
  Objects.read_object (alter (set_level 0) a R) o = Objects.read_object R o.
Proof.
  intros Ha. unfold Objects.read_object. f_equal.
  induction (Objects.o_children o) as [|c cs IH]; [done|].
  apply not_elem_of_cons in Ha as [Hc Hcs].
  rewrite !mapM_cons, list_lookup_alter_ne by done. by rewrite IH.
Qed.

Lemma read_object_assign (R : list (Structure D)) o :
  Objects.read_object R (Objects.assign_level 0 o)
  = set_level 0 <$> Objects.read_object R o.
Proof.
  unfold Objects.read_object. simpl.
  by destruct (mapM _ (Objects.o_children o)).
Qed.

Lemma read_heap_alter (h : list (Objects.object D)) R a :
  Objects.read_heap h = Some R ->
  (forall b o, h !! b = Some o -> a ∉ Objects.o_children o) ->
  Objects.read_heap (alter (Objects.assign_level 0) a h)
  = Some (alter (set_level 0) a R).
Proof.
  revert R. induction h as [|o h IH] using rev_ind; intros R.
  - by intros [= <-].
  - rewrite Objects.read_heap_snoc.
    destruct (Objects.read_heap h) as [R0|] eqn:E; [|done]. simpl.
    destruct (Objects.read_object R0 o) as [n|] eqn:E'; [|done]. simpl.
    intros [= <-] Hch.
    pose proof (Objects.read_heap_length h R0 E) as Hlen.
    assert (forall b o', h !! b = Some o' -> a ∉ Objects.o_children o') as Hch'.
    { intros b o' Hb. apply (Hch b). by apply lookup_app_l_Some. }
    assert (a ∉ Objects.o_children o) as Ho.
    { apply (Hch (length h)). by rewrite lookup_app_r, Nat.sub_diag. }
    specialize (IH R0 eq_refl Hch').
    destruct (decide (a < length h)%nat) as [Hlt|Hge].
    + rewrite !alter_app_l by lia.
      rewrite Objects.read_heap_snoc, IH. simpl.
      by rewrite read_object_alter, E'.
    + rewrite !alter_app_r_alt by lia. rewrite Hlen.
      destruct (a - length h)%nat as [|k].
      * change (alter (Objects.assign_level 0) 0%nat [o])
          with [Objects.assign_level 0 o].
        rewrite Objects.read_heap_snoc, E. simpl.
        by rewrite read_object_assign, E'.
      * change (alter (Objects.assign_level 0) (S k) [o]) with [o].
        rewrite Objects.read_heap_snoc, E. simpl. by rewrite E'.
Qed.

Lemma read_heap_cached T : forall (h : list (Objects.object D)) R,
  Objects.read_heap h = Some R ->
  (forall a b o, a ∈ T -> h !! b = Some o -> a ∉ Objects.o_children o) ->
  Objects.read_heap (Objects.cache_levels T h) = Some (cached T R).
Proof.
  induction T as [|a T IH]; intros h R HR Hch; [done|].
  simpl. apply IH.
  - apply read_heap_alter; [done|]. intros b o. apply Hch, list_elem_of_here.
  - intros a' b o Ha' Hb. destruct (decide (b = a)) as [->|Hne].
    + rewrite list_lookup_alter_eq in Hb.
      destruct (h !! a) as [o'|] eqn:Ho'; [|done]. injection Hb as <-.
      simpl. eapply Hch; [by apply list_elem_of_further|done].
    + rewrite list_lookup_alter_ne in Hb by done.
      eapply Hch; [by apply list_elem_of_further|done].
Qed.

Lemma cached_lookup T : forall (R : list (Structure D)) a,
  cached T R !! a
  = if decide (a ∈ T) then set_level 0 <$> R !! a else R !! a.
Proof.
  induction T as [|b T IH]; intros R a.
  - destruct (decide (a ∈ [])) as [H|]; [by apply elem_of_nil in H|done].
  - change (cached (b :: T) R) with (cached T (alter (set_level 0) b R)).
    rewrite IH.
    destruct (decide (a ∈ b :: T)) as [Hin|Hout];
      destruct (decide (a ∈ T)) as [Hin'|Hout'].
    + destruct (decide (a = b)) as [->|Hne].
      * rewrite list_lookup_alter_eq. by destruct (R !! b).
      * by rewrite list_lookup_alter_ne.
    + apply elem_of_cons in Hin as [->|?]; [|done].
      by rewrite list_lookup_alter_eq.
    + exfalso. apply Hout. by apply list_elem_of_further.
    + rewrite list_lookup_alter_ne; [done|].
      intros ->. apply Hout, list_elem_of_here.
Qed.

End Levels.

Section NodesDict.

Context {D : Type}.
Variable iter_order : list Z -> list Z.
Variable limit : nat.

(** The dendrogram object stands for the dendrogram [d]: the references
    of its trunk read as the trunk of [d], and [nodes_dict] was filled
    while the nodes [ns] of the trunk were built. *)
Definition stands_for (dobj : Objects.Dendrogram D) (d : Dendrogram D)
  : Prop :=
  Objects.n_dim dobj = n_dim d /\ Objects.data dobj = data d
  /\ Objects.index_map dobj = index_map d
  /\ exists h R ns,
       Objects.built [] ∅ (Objects.trunk dobj) h (Objects.nodes_dict dobj) R ns
       /\ Objects.objects dobj = Objects.cache_levels (Objects.trunk dobj) h
       /\ trunk d = set_level 0 <$> ns.

Lemma import_objects (h5f : h5file D) :
  agrees stands_for (Objects.dendro_import_hdf5 iter_order limit h5f)
                    (dendro_import_hdf5 iter_order limit h5f).
Proof.
  unfold Objects.dendro_import_hdf5, dendro_import_hdf5.
  destruct (aggregate (ds_data h5f) (ds_index_map h5f)) as [ag|e|]; [|done|done].
  rewrite !ret_bind.
  destruct (_parse_newick iter_order limit (ds_newick h5f)) as [items|e|];
    [|done|done].
  rewrite !ret_bind.
  pose proof (construct_objects iter_order limit items ag.1 ag.2 Trunk [] ∅ []
                eq_refl) as H.
  destruct (Objects._construct_tree iter_order limit items ag.1 ag.2 Trunk ([], ∅))
    as [[tr [h nd]]|e|]; simpl in H.
  - destruct H as (ns & -> & R & B). simpl in B. rewrite !ret_bind.
    eexists. split; [done|]. repeat split; try done.
    exists h, R, ns. done.
  - by rewrite H.
  - by rewrite H.
Qed.

Lemma stands_for_read dobj d :
  stands_for dobj d ->
  exists R, Objects.read_heap (Objects.objects dobj) = Some R
    /\ Forall2 (fun a n => R !! a = Some n) (Objects.trunk dobj) (trunk d)
    /\ (forall i a, Objects.nodes_dict dobj !! i = Some a ->
          exists n, R !! a = Some n /\ idx n = i /\ n ∈ nodes_of d)
    /\ (forall n, n ∈ nodes_of d ->
          is_Some (Objects.nodes_dict dobj !! idx n)).
Proof.
  intros (_ & _ & _ & h & R & ns & B & Hobj & Htr).
  set (T := Objects.trunk dobj) in *.
  assert (forall m, m ∈ ns -> set_level 0 m ∈ nodes_of d) as Hroot.
  { intros m Hm. unfold nodes_of. rewrite Htr. apply list_elem_of_bind.
    exists (set_level 0 m). split; [apply Objects.subnodes_self|].
    by apply list_elem_of_fmap_2. }
  assert (forall n, n ∈ ns ≫= Objects.below -> n ∈ nodes_of d) as Hbelow.
  { intros n (m & Hn & Hm)%list_elem_of_bind. unfold nodes_of. rewrite Htr.
    apply list_elem_of_bind. exists (set_level 0 m).
    split; [|by apply list_elem_of_fmap_2].
    rewrite set_level_subnodes. by apply list_elem_of_further. }
  assert (forall i a, Objects.nodes_dict dobj !! i = Some a ->
            exists n, cached T R !! a = Some n /\ idx n = i /\ n ∈ nodes_of d)
    as Hsound.
  { intros i a Ha.
    destruct (Objects.b_sound _ _ _ _ _ _ _ B i a Ha) as [?|(_ & n & Hn & Hi)];
      [done|].
    rewrite cached_lookup, Hn. destruct (decide (a ∈ T)) as [Hin|Hout].
    - exists (set_level 0 n). repeat split; [done|].
      apply Hroot. by apply (Objects.built_node_elem _ _ _ _ _ _ _ _ _ B Hin).
    - exists n. repeat split; [done|]. apply Hbelow.
      by destruct (Objects.b_member _ _ _ _ _ _ _ B a n ltac:(simpl; lia) Hn). }
  exists (cached T R). split; [|split; [|split; [done|]]].
  - rewrite Hobj. apply read_heap_cached; [apply (Objects.b_read _ _ _ _ _ _ _ B)|].
    intros a b o Ha Hb Hc.
    by destruct (Objects.b_children _ _ _ _ _ _ _ B b o a Hb ltac:(simpl; lia) Hc).
  - rewrite Htr. apply Forall2_fmap_r.
    pose proof (Objects.b_nodes _ _ _ _ _ _ _ B) as Hn.
    apply Forall2_same_length_lookup. split; [by eapply Forall2_length|].
    intros k a n Ha Hk. rewrite cached_lookup.
    rewrite decide_True by (by eapply list_elem_of_lookup_2).
    by rewrite (Forall2_lookup_lr _ _ _ _ _ _ Hn Ha Hk).
  - intros n Hn.
    assert (exists n0, n0 ∈ ns ≫= subnodes /\ idx n0 = idx n) as (n0 & Hn0 & <-).
    { unfold nodes_of in Hn. rewrite Htr in Hn.
      apply list_elem_of_bind in Hn as (m' & Hn & (m & -> & Hm)%list_elem_of_fmap).
      rewrite set_level_subnodes in Hn. apply elem_of_cons in Hn as [->|Hn].
      - exists m. split; [|done]. apply list_elem_of_bind. exists m.
        split; [apply Objects.subnodes_self|done].
      - exists n. split; [|done]. apply list_elem_of_bind. exists m.
        split; [by apply Objects.below_subnodes|done]. }
    destruct (Objects.b_complete _ _ _ _ _ _ _ B n0 Hn0) as (a & Hge & Ha).
    destruct (Objects.b_covered _ _ _ _ _ _ _ B a n0 Hge Ha) as (a' & Ha' & _).
    by eexists.
Qed.

(** X17. The importer with its objects and the importer of the claims
    end in the same way: the same exception, or a dendrogram object whose
    heap reads, at the references of its trunk, as the trunk of the
    dendrogram.  Assigning [_level] to the objects of the trunk changes
    no other node, because no object has an object of the trunk among
    its children. *)
Theorem objects_stand_for_tree (h5f : h5file D) :
  agrees (fun dobj d =>
            Objects.n_dim dobj = n_dim d /\ Objects.data dobj = data d
            /\ Objects.index_map dobj = index_map d
            /\ exists R,
                 Objects.read_heap (Objects.objects dobj) = Some R
                 /\ Forall2 (fun a n => R !! a = Some n)
                            (Objects.trunk dobj) (trunk d))
         (Objects.dendro_import_hdf5 iter_order limit h5f)
         (dendro_import_hdf5 iter_order limit h5f).
Proof.
  pose proof (import_objects h5f) as H.
  destruct (Objects.dendro_import_hdf5 iter_order limit h5f) as [dobj|e|];
    simpl in *; [|done|done].
  destruct H as (d & Hd & Hs). exists d. split; [done|].
  destruct (stands_for_read dobj d Hs) as (R & HR & Htr & _).
  destruct Hs as (H1 & H2 & H3 & _). eauto 10.
Qed.

(** X18. [d.nodes_dict] indexes the nodes of the tree: every entry
    refers to a node of the tree that has the key as its identity, and
    the identity of every node of the tree is a key. *)
Theorem nodes_dict_holds_nodes (h5f : h5file D) (dobj : Objects.Dendrogram D) :
  Objects.dendro_import_hdf5 iter_order limit h5f = Ret dobj ->
  exists d R,
    dendro_import_hdf5 iter_order limit h5f = Ret d
    /\ Objects.read_heap (Objects.objects dobj) = Some R
    /\ (forall i a, Objects.nodes_dict dobj !! i = Some a ->
          exists n, R !! a = Some n /\ idx n = i /\ n ∈ nodes_of d)
    /\ (forall n, n ∈ nodes_of d ->
          is_Some (Objects.nodes_dict dobj !! idx n)).
Proof.
  intros Himp. pose proof (import_objects h5f) as H. rewrite Himp in H.
  destruct H as (d & Hd & Hs).
  destruct (stands_for_read dobj d Hs) as (R & HR & _ & Hsound & Hcov).
  exists d, R. done.
Qed.

(** X19. When the identities of the nodes are pairwise distinct,
    [d.nodes_dict[idx]] is the node with the identity [idx]. *)
Theorem nodes_dict_finds_node (h5f : h5file D) (dobj : Objects.Dendrogram D) :
  Objects.dendro_import_hdf5 iter_order limit h5f = Ret dobj ->
  exists d R,
    dendro_import_hdf5 iter_order limit h5f = Ret d
    /\ Objects.read_heap (Objects.objects dobj) = Some R
    /\ (NoDup (idx <$> nodes_of d) ->
        forall n, n ∈ nodes_of d ->
          exists a, Objects.nodes_dict dobj !! idx n = Some a
                    /\ R !! a = Some n).
Proof.
  intros Himp. pose proof (import_objects h5f) as H. rewrite Himp in H.
  destruct H as (d & Hd & Hs).
  destruct (stands_for_read dobj d Hs) as (R & HR & _ & Hsound & Hcov).
  exists d, R. split; [done|]. split; [done|].
  intros Hnd n Hn. destruct (Hcov n Hn) as [a Ha]. exists a. split; [done|].
  destruct (Hsound _ _ Ha) as (m & Hm & Hi & Hin).
  by rewrite (NoDup_fmap_same idx _ m n Hnd Hin Hn Hi) in Hm.
Qed.

End NodesDict.

Lemma nodes_dict_holds_nodes_witness :
  exists dobj,
    Objects.dendro_import_hdf5 insertion_order 1000 file_nested = Ret dobj
    /\ exists d R,
         dendro_import_hdf5 insertion_order 1000 file_nested = Ret d
         /\ Objects.read_heap (Objects.objects dobj) = Some R
         /\ (forall i a, Objects.nodes_dict dobj !! i = Some a ->
               exists n, R !! a = Some n /\ idx n = i /\ n ∈ nodes_of d)
         /\ (forall n, n ∈ nodes_of d ->
               is_Some (Objects.nodes_dict dobj !! idx n)).
Proof.
  eexists. split; [vm_compute; reflexivity|].
  apply (nodes_dict_holds_nodes insertion_order 1000 file_nested).
  vm_compute. reflexivity.
Defined.

Lemma nodes_dict_finds_node_witness :
  exists dobj,
    Objects.dendro_import_hdf5 insertion_order 1000 file_nested = Ret dobj
    /\ exists d R,
         dendro_import_hdf5 insertion_order 1000 file_nested = Ret d
         /\ Objects.read_heap (Objects.objects dobj) = Some R
         /\ (NoDup (idx <$> nodes_of d) ->
             forall n, n ∈ nodes_of d ->
               exists a, Objects.nodes_dict dobj !! idx n = Some a
                         /\ R !! a = Some n).
Proof.
  eexists. split; [vm_compute; reflexivity|].
  apply (nodes_dict_finds_node insertion_order 1000 file_nested).
  vm_compute. reflexivity.
Defined.
